(** * Schedule aggregation and windowing engine of [app/main.py]

    A shallow embedding of the pure helpers of the HEMS persona reporter:
    [_guess_slot_hours], [compute_from_schedule], [build_24h_csv],
    [load_windows_15m], [fmt_range_pt] and the [fmt_windows] closure of
    [persona_report].

    Conventions of the embedding.
    - A Python [float] is an IEEE 754 binary64 value, represented by the
      [spec_float] of [SpecFloat] at precision 53 and maximal exponent 1024;
      the arithmetic is the one [SpecFloat] specifies (round to nearest,
      ties to even), comparisons are [SFcompare].
    - A naive [datetime] is the number of microseconds elapsed since
      0001-01-01T00:00:00, a [timedelta] is a number of microseconds.
    - A Python [dict] is an association list in insertion order: assigning to
      an existing key keeps the key's position, a new key goes to the end.
    - A Python exception is [None].
    - The rounding errors of the slot duration are bounded on the real
      numbers of the standard library; nothing else uses them. *)

From Stdlib Require Import ZArith List String Ascii Bool Lia Sorted Permutation DecimalString.
From Stdlib Require Import SpecFloat.
From Stdlib Require Reals Lra.
Import ListNotations.

Open Scope string_scope.
Open Scope Z_scope.

(** ** Binary64 floats *)

Module B64.

Abbreviation float := spec_float (only parsing).

Definition prec : Z := 53.
Definition emax : Z := 1024.

Definition add : float -> float -> float := SFadd prec emax.
Definition sub : float -> float -> float := SFsub prec emax.
Definition mul : float -> float -> float := SFmul prec emax.
Definition div : float -> float -> float := SFdiv prec emax.
Definition abs : float -> float := SFabs.
Definition ltb : float -> float -> bool := SFltb.
Definition leb : float -> float -> bool := SFleb.
Definition eqb : float -> float -> bool := SFeqb.

Definition is_nan (x : float) : bool :=
  match x with S754_nan => true | _ => false end.

(** The literals of the source, as the doubles nearest to them. *)
Definition zero : float := S754_zero false.
(** [0.25] is 2^52 * 2^-54. *)
Definition quarter : float := S754_finite false 4503599627370496 (-54).
(** [1000.0] is 1000 * 2^43 * 2^-43. *)
Definition thousand : float := S754_finite false 8796093022208000 (-43).
(** [3600.0] is 3600 * 2^41 * 2^-41. *)
Definition f3600 : float := S754_finite false 7916483719987200 (-41).
(** [1e-9]: the double nearest to 10^-9. *)
Definition eps9 : float := S754_finite false 4835703278458517 (-82).
(** [float(3600 * 10**6)], the microseconds of an hour. *)
Definition us_per_hour_f : float := S754_finite false 7549747200000000 (-21).

(** The double that is exactly [j * 2^k], for a natural number [j] of at
    most 53 binary digits: the mantissa is [j] shifted to 53 digits. *)
Definition dyadic (j k : Z) : float :=
  match j with
  | Zpos _ =>
      S754_finite false (Z.to_pos (j * 2 ^ (53 - Zdigits2 j))) (k - (53 - Zdigits2 j))
  | _ => S754_zero false
  end.

(** The correctly rounded quotient [n / d] of two positive integers, with
    sign [s]: Python's [int / int] and the decimal-to-double conversion of
    a decimal string with a fixed number of fractional digits. *)
Definition of_quot (s : bool) (n d : Z) : float :=
  match n with
  | Z0 => S754_zero s
  | _ =>
      let '(mz, ez, lz) := SFdiv_core_binary prec emax n 0 d 0 in
      binary_round_aux prec emax s mz ez lz
  end.

(** The float nearest to an integer ([float(n)]). *)
Definition of_Z (n : Z) : float := binary_normalize prec emax n 0 false.

(** [a // b] rounded to the nearest integer, ties to the even one
    ([0 <= a], [0 < b]). *)
Definition div_half_even (a b : Z) : Z :=
  let q := a / b in
  let r := a mod b in
  match 2 * r ?= b with
  | Lt => q
  | Gt => q + 1
  | Eq => if Z.even q then q else q + 1
  end.

(** The integer part of a float, towards zero (C's [modf] integer part
    read by [PyLong_FromDouble]); [None] on NaN and the infinities. *)
Definition trunc (x : float) : option Z :=
  match x with
  | S754_zero _ => Some 0
  | S754_finite s m e =>
      Some (cond_Zopp s
              (match e with
               | Zneg p => Zpos m / 2 ^ Zpos p
               | _ => Zpos m * 2 ^ e
               end))
  | _ => None
  end.

(** The fractional part of a finite float, as an exact fraction
    [(sign, numerator, denominator)] with [0 <= numerator < denominator]. *)
Definition frac (x : float) : bool * Z * Z :=
  match x with
  | S754_finite s m (Zneg p) => (s, Zpos m mod 2 ^ Zpos p, 2 ^ Zpos p)
  | S754_finite s _ _ => (s, 0, 1)
  | S754_zero s => (s, 0, 1)
  | _ => (false, 0, 1)
  end.

(** The fractional part as a float ([modf]'s result; it is exact). *)
Definition frac_float (x : float) : float :=
  match x with
  | S754_finite s m (Zneg p) =>
      binary_normalize prec emax (cond_Zopp s (Zpos m mod 2 ^ Zpos p)) (Zneg p) s
  | S754_finite s _ _ => S754_zero s
  | S754_zero s => S754_zero s
  | S754_infinity s => S754_zero s
  | S754_nan => S754_nan
  end.

End B64.

Abbreviation float := B64.float (only parsing).

(** ** Python built-ins on floats *)

(** [max(a, b)]: the first argument unless the second is greater. *)
Definition py_max2 (a b : float) : float :=
  if B64.ltb a b then b else a.

(** [max(iterable)] on a non-empty iterable, [None] (a [ValueError]) on an
    empty one: the first item, replaced whenever a later one is greater. *)
Definition py_max (l : list float) : option float :=
  match l with
  | [] => None
  | x :: l' => Some (fold_left py_max2 l' x)
  end.

(** [sum(iterable)] of floats: the running total starts at [0] and the items
    are added left to right. *)
Definition py_sum (l : list float) : float :=
  fold_left B64.add l B64.zero.

(** [round(x, 3)]: the decimal with three fractional digits nearest to the
    exact value of [x] (ties to even), read back as the nearest double;
    zeros, infinities and NaN are returned unchanged. *)
Definition round3 (x : float) : float :=
  match x with
  | S754_finite s m e =>
      let n := match e with
               | Zneg p => B64.div_half_even (Zpos m * 1000) (2 ^ Zpos p)
               | _ => Zpos m * 1000 * 2 ^ e
               end in
      B64.of_quot s n 1000
  | _ => x
  end.

(** [n] is the whole number nearest to the fraction [num / den], and the
    even one of the two when the fraction lies half way between them. *)
Definition nearest_even (num den n : Z) : Prop :=
  2 * Z.abs (num - n * den) <= den
  /\ (2 * Z.abs (num - n * den) = den -> Z.even n = true).

(** A thousand times the magnitude [m * 2^e] of a finite double, as an
    exact fraction: its numerator and its denominator. *)
Definition thousandfold (m : positive) (e : Z) : Z * Z :=
  match e with
  | Zneg p => (Zpos m * 1000, 2 ^ Zpos p)
  | _ => (Zpos m * 1000 * 2 ^ e, 1)
  end.

(** ** [datetime] and [timedelta] *)

Module Datetime.

(** Microseconds since 0001-01-01T00:00:00 (naive datetimes). *)
Abbreviation datetime := Z (only parsing).
(** Microseconds. *)
Abbreviation timedelta := Z (only parsing).

Definition US_PER_SECOND : Z := 1000000.
Definition US_PER_MINUTE : Z := 60000000.
Definition US_PER_HOUR : Z := 3600000000.
Definition US_PER_DAY : Z := 86400000000.

(** [datetime.max] is 9999-12-31T23:59:59.999999, day 3652059. *)
Definition MAXORDINAL : Z := 3652059.
Definition max_us : Z := MAXORDINAL * US_PER_DAY - 1.

Definition valid (t : datetime) : Prop := 0 <= t <= max_us.

(** [b - a] of two datetimes never raises. *)
Definition diff (b a : datetime) : timedelta := b - a.

(** [timedelta.total_seconds()]: the integer quotient
    [microseconds / 10**6], correctly rounded. *)
Definition total_seconds (d : timedelta) : float :=
  match d with
  | Z0 => B64.zero
  | Zpos _ => B64.of_quot false d US_PER_SECOND
  | Zneg p => B64.of_quot true (Zpos p) US_PER_SECOND
  end.

(** The range of a [timedelta]: at most 999999999 days either way. *)
Definition delta_in_range (us : Z) : bool :=
  (-999999999 <=? us / US_PER_DAY) && (us / US_PER_DAY <=? 999999999).

(** [timedelta(hours=h)] for a float [h]: the whole hours are converted
    exactly, the fractional hours through one float product whose own
    fraction is then rounded to a whole microsecond, ties to even.
    [None] when [h] is NaN or infinite, or the result is out of range. *)
Definition timedelta_hours (h : float) : option timedelta :=
  match B64.trunc h with
  | None => None
  | Some ip =>
      let sum := ip * US_PER_HOUR in
      let '(_, fnum, _) := B64.frac h in
      let total :=
        if fnum =? 0 then Some sum
        else
          let p := B64.mul B64.us_per_hour_f (B64.frac_float h) in
          match B64.trunc p with
          | None => None
          | Some ip2 =>
              let y := sum + ip2 in
              let '(s, num, den) := B64.frac p in
              let unit := if s then -1 else 1 in
              Some (if num =? 0 then y
                    else match 2 * num ?= den with
                         | Lt => y
                         | Gt => y + unit
                         | Eq => if Z.odd y then y + unit else y
                         end)
          end in
      match total with
      | Some us => if delta_in_range us then Some us else None
      | None => None
      end
  end.

(** [t + d]: an [OverflowError] outside year 1 .. 9999. *)
Definition add (t : datetime) (d : timedelta) : option datetime :=
  let r := t + d in
  if (0 <=? r) && (r <=? max_us) then Some r else None.

Definition hour (t : datetime) : Z := (t / US_PER_HOUR) mod 24.
Definition minute (t : datetime) : Z := (t / US_PER_MINUTE) mod 60.
Definition second (t : datetime) : Z := (t / US_PER_SECOND) mod 60.

(** The proleptic Gregorian date of day number [n] (day 1 is 0001-01-01),
    as the standard library computes it. *)
Definition DAYS_IN_MONTH (month : Z) (leap : bool) : Z :=
  match month with
  | 2 => if leap then 29 else 28
  | 4 | 6 | 9 | 11 => 30
  | _ => 31
  end.

Definition DAYS_BEFORE_MONTH (month : Z) : Z :=
  match month with
  | 1 => 0 | 2 => 31 | 3 => 59 | 4 => 90 | 5 => 120 | 6 => 151
  | 7 => 181 | 8 => 212 | 9 => 243 | 10 => 273 | 11 => 304 | _ => 334
  end.

Definition ord2ymd (ordinal : Z) : Z * Z * Z :=
  let n := ordinal - 1 in
  let n400 := n / 146097 in
  let n := n mod 146097 in
  let n100 := n / 36524 in
  let n := n mod 36524 in
  let n4 := n / 1461 in
  let n := n mod 1461 in
  let n1 := n / 365 in
  let n := n mod 365 in
  let year := n400 * 400 + 1 + n100 * 100 + n4 * 4 + n1 in
  if (n1 =? 4) || (n100 =? 4) then (year - 1, 12, 31)
  else
    let leapyear := (n1 =? 3) && (negb (n4 =? 24) || (n100 =? 3)) in
    let month := Z.shiftr (n + 50) 5 in
    let preceding :=
      DAYS_BEFORE_MONTH month + (if (2 <? month) && leapyear then 1 else 0) in
    if n <? preceding then
      let month' := month - 1 in
      let preceding' := preceding - DAYS_IN_MONTH month' leapyear in
      (year, month', n - preceding' + 1)
    else (year, month, n - preceding + 1).

Definition date (t : datetime) : Z * Z * Z := ord2ymd (t / US_PER_DAY + 1).

(** Decimal rendering with a fixed number of digits, zero padded. *)
Definition digit (n : Z) : ascii := ascii_of_nat (48 + Z.to_nat (n mod 10)).

Definition d2 (n : Z) : string :=
  String (digit (n / 10)) (String (digit n) EmptyString).

Definition d4 (n : Z) : string :=
  String (digit (n / 1000)) (String (digit (n / 100)) (d2 n)).

(** [t.strftime("%Y-%m-%d %H:%M:%S")], the year padded with zeros to four
    digits as the library documents it.  The C library of some platforms
    leaves a year below 1000 without the padding; what is proved of the
    layout of a key is proved for the years 1000 to 9999
    ([four_digit_years] below), where the platforms agree. *)
Definition strftime_key (t : datetime) : string :=
  let '(y, m, d) := date t in
  d4 y ++ "-" ++ d2 m ++ "-" ++ d2 d ++ " "
     ++ d2 (hour t) ++ ":" ++ d2 (minute t) ++ ":" ++ d2 (second t).

(** [t.strftime('%Hh%M')]. *)
Definition strftime_HhM (t : datetime) : string :=
  d2 (hour t) ++ "h" ++ d2 (minute t).

(** Day number of a date, and the datetime of a calendar instant; used to
    write examples. *)
Definition is_leap (y : Z) : bool :=
  (y mod 4 =? 0) && (negb (y mod 100 =? 0) || (y mod 400 =? 0)).

Definition ymd2ord (y m d : Z) : Z :=
  let y1 := y - 1 in
  y1 * 365 + y1 / 4 - y1 / 100 + y1 / 400
  + DAYS_BEFORE_MONTH m + (if (2 <? m) && is_leap y then 1 else 0) + d.

Definition make (y m d hh mm ss : Z) : datetime :=
  (ymd2ord y m d - 1) * US_PER_DAY
  + hh * US_PER_HOUR + mm * US_PER_MINUTE + ss * US_PER_SECOND.

End Datetime.

Abbreviation datetime := Datetime.datetime (only parsing).

(** ** Dictionaries keyed by strings *)

Module Dict.
Section Ops.
Context {V : Type}.

Fixpoint get (d : list (string * V)) (k : string) : option V :=
  match d with
  | [] => None
  | (k', v) :: d' => if String.eqb k k' then Some v else get d' k
  end.

(** [d.get(k, dflt)] *)
Definition get_default (d : list (string * V)) (k : string) (dflt : V) : V :=
  match get d k with Some v => v | None => dflt end.

(** [k in d] *)
Definition mem (d : list (string * V)) (k : string) : bool :=
  match get d k with Some _ => true | None => false end.

(** [d[k] = v] *)
Fixpoint set (d : list (string * V)) (k : string) (v : V) : list (string * V) :=
  match d with
  | [] => [(k, v)]
  | (k', v') :: d' =>
      if String.eqb k k' then (k, v) :: d' else (k', v') :: set d' k v
  end.

(** [del d[k]] for a key that is present *)
Definition del (d : list (string * V)) (k : string) : list (string * V) :=
  filter (fun kv => negb (String.eqb k (fst kv))) d.

Definition keys (d : list (string * V)) : list string := map fst d.
Definition values (d : list (string * V)) : list V := map snd d.
End Ops.
End Dict.

Abbreviation dict V := (list (string * V)).

(** ** Domain models *)

Record DataItem := { name : string; value : float }.

Record ScheduleSlot := { timestamp : datetime; data : list DataItem }.

(** [cost_analysis] plays no part in the engine and is left out. *)
Record OptimizationSchedule := { schedule : list ScheduleSlot }.

(** The validator [_ensure_sorted]: [sorted(v, key=lambda s: s.timestamp)],
    a stable sort by timestamp. *)
Fixpoint insert_slot (s : ScheduleSlot) (l : list ScheduleSlot) : list ScheduleSlot :=
  match l with
  | [] => [s]
  | x :: l' =>
      if timestamp s <=? timestamp x then s :: l else x :: insert_slot s l'
  end.

Definition _ensure_sorted (v : list ScheduleSlot) : list ScheduleSlot :=
  fold_right insert_slot [] v.

(** A schedule in the order the validator leaves it: timestamps never
    decrease; and the stricter order in which no timestamp repeats. *)
Definition ts_le (a b : ScheduleSlot) : Prop := timestamp a <= timestamp b.
Definition ts_lt (a b : ScheduleSlot) : Prop := timestamp a < timestamp b.

Definition sorted_schedule (slots : list ScheduleSlot) : Prop := Sorted ts_le slots.
Definition strictly_sorted_schedule (slots : list ScheduleSlot) : Prop :=
  Sorted ts_lt slots.

(** Every timestamp is a [datetime], between year 1 and year 9999. *)
Definition valid_schedule (slots : list ScheduleSlot) : Prop :=
  Forall (fun slot => Datetime.valid (timestamp slot)) slots.

(** ** Slot-interval inference *)

Definition _guess_slot_hours (payload : OptimizationSchedule) : float :=
  let ts := map timestamp (schedule payload) in
  match ts with
  | t0 :: t1 :: _ =>
      let delta := Datetime.diff t1 t0 in
      if B64.ltb B64.zero (Datetime.total_seconds delta)
      then py_max2 (B64.div (Datetime.total_seconds delta) B64.f3600) B64.eps9
      else B64.quarter
  | _ => B64.quarter
  end.

(** ** Aggregator *)

Record Aggregates := {
  power_by_ts : dict float;
  energy_by_load : dict float;
  total_kwh : float;
  peak_kw : float;
  peak_ts : list string
}.

(** The key of a slot in [power_by_ts] and the total [p_sum] stored under
    it: the powers of the slot's entries added in order, starting from 0.0. *)
Definition slot_key (slot : ScheduleSlot) : string :=
  Datetime.strftime_key (timestamp slot).

Definition slot_power (slot : ScheduleSlot) : float :=
  fold_left B64.add (map value (data slot)) B64.zero.

(** The body of the inner loop, for one [(load, power)] entry. *)
Definition add_item (slot_h : float) (acc : float * dict float) (it : DataItem)
  : float * dict float :=
  let '(p_sum, energy) := acc in
  let val_kw := value it in
  (B64.add p_sum val_kw,
   Dict.set energy (name it)
     (B64.add (Dict.get_default energy (name it) B64.zero) (B64.mul val_kw slot_h))).

(** The body of the outer loop, for one slot. *)
Definition add_slot (slot_h : float) (acc : dict float * dict float) (slot : ScheduleSlot)
  : dict float * dict float :=
  let '(power, energy) := acc in
  let ts_str := Datetime.strftime_key (timestamp slot) in
  let '(p_sum, energy') := fold_left (add_item slot_h) (data slot) (B64.zero, energy) in
  (Dict.set power ts_str p_sum, energy').

Definition is_peak (peak_kw_val p : float) : bool :=
  B64.ltb (B64.abs (B64.sub p peak_kw_val)) B64.eps9.

Definition compute_from_schedule (payload : OptimizationSchedule) : Aggregates :=
  let slot_h := _guess_slot_hours payload in
  let '(power, energy) := fold_left (add_slot slot_h) (schedule payload) ([], []) in
  let total := round3 (py_sum (Dict.values energy)) in
  let peak_kw_val :=
    match py_max (Dict.values power) with
    | Some m => m
    | None => B64.zero
    end in
  {| power_by_ts := power;
     energy_by_load := energy;
     total_kwh := total;
     peak_kw := round3 peak_kw_val;
     peak_ts := map fst (filter (fun kv => is_peak peak_kw_val (snd kv)) power) |}.

(** The powers of the entries that bear the name of a load, in schedule
    order, a name that occurs twice in a slot counting twice. *)
Definition load_entries (n : string) (slots : list ScheduleSlot) : list float :=
  map value (filter (fun it => String.eqb (name it) n) (flat_map data slots)).

(** The reading of a slot as a mapping from load to power, in which a later
    entry for a load replaces an earlier one; the aggregator does not build
    it. *)
Definition as_mapping (items : list DataItem) : dict float :=
  fold_left (fun m it => Dict.set m (name it) (value it)) items [].

(** ** Hourly histogram *)

(** The white space [int] skips around the digits of an ASCII string: the
    characters of C's [isspace], that is the tab, the line feed, the
    vertical tab, the form feed, the carriage return and the space.  (The
    separators U+001C to U+001F are white space for [str.isspace], and
    [int] skips them only in a string that holds a character beyond ASCII;
    such a string is not modelled here.) *)
Definition is_space (c : ascii) : bool :=
  let n := nat_of_ascii c in
  ((9 <=? n) && (n <=? 13) || (n =? 32))%nat.

Definition is_digit (c : ascii) : bool :=
  let n := nat_of_ascii c in ((48 <=? n) && (n <=? 57))%nat.

Fixpoint lstrip (s : string) : string :=
  match s with
  | String c s' => if is_space c then lstrip s' else s
  | EmptyString => s
  end.

(** Digits followed by white space only: the value read so far, or [None]. *)
Fixpoint read_digits (s : string) (seen : bool) (acc : Z) : option Z :=
  match s with
  | EmptyString => if seen then Some acc else None
  | String c s' =>
      if is_digit c then read_digits s' true (acc * 10 + (Z.of_nat (nat_of_ascii c) - 48))
      else if seen && is_space c && (match lstrip s' with EmptyString => true | _ => false end)
           then Some acc
           else None
  end.

(** [int(s)] for the two-character slices the histogram reads: optional
    white space and sign around decimal digits; [None] is a [ValueError].
    (Digit grouping with underscores needs three characters or more.) *)
Definition py_int (s : string) : option Z :=
  match lstrip s with
  | String "+" s' => read_digits s' false 0
  | String "-" s' => option_map Z.opp (read_digits s' false 0)
  | s' => read_digits s' false 0
  end.

(** [l[i] += x] on the 24 buckets, which are keyed by [0 .. 23]; any other
    key is a [KeyError]. *)
Fixpoint bucket_add (l : list float) (i : nat) (x : float) : option (list float) :=
  match l, i with
  | [], _ => None
  | b :: l', O => Some (B64.add b x :: l')
  | b :: l', S i' => option_map (cons b) (bucket_add l' i' x)
  end.

Definition add_bucket (acc : option (list float)) (kv : string * float)
  : option (list float) :=
  match acc with
  | None => None
  | Some per_hour =>
      let '(ts, p_kw) := kv in
      match py_int (substring 11 2 ts) with
      | None => None
      | Some hour =>
          if hour <? 0 then None
          else bucket_add per_hour (Z.to_nat hour)
                 (B64.mul (B64.mul p_kw B64.quarter) B64.thousand)
      end
  end.

(** The table [per_hour_Wh] that [build_24h_csv] fills before printing it. *)
Definition per_hour_Wh (power : dict float) : option (list float) :=
  fold_left add_bucket power (Some (repeat B64.zero 24)).

(** Decimal rendering of a natural number. *)
Definition dec (n : Z) : string :=
  NilZero.string_of_uint (N.to_uint (Z.to_N n)).

(** [f"{x:.1f}"]: the decimal with one fractional digit nearest to the exact
    value of [x], ties to even. *)
Definition fmt_1f (x : float) : string :=
  match x with
  | S754_nan => "nan"
  | S754_infinity s => if s then "-inf" else "inf"
  | S754_zero s => if s then "-0.0" else "0.0"
  | S754_finite s m e =>
      let n := match e with
               | Zneg p => B64.div_half_even (Zpos m * 10) (2 ^ Zpos p)
               | _ => Zpos m * 10 * 2 ^ e
               end in
      (if s then "-" else "") ++ dec (n / 10) ++ "." ++ dec (n mod 10)
  end.

Definition newline : string := String (ascii_of_nat 10) EmptyString.

Definition csv_row (h : nat) (x : float) : string :=
  dec (Z.of_nat h) ++ "," ++ fmt_1f x.

Definition build_24h_csv (power : dict float) : option string :=
  match per_hour_Wh power with
  | None => None
  | Some per_hour =>
      let lines := "Hour,Power_W"
                   :: map (fun h => csv_row h (nth h per_hour B64.zero)) (seq 0 24) in
      Some (String.concat newline lines)
  end.

(** The powers of the entries [items] added up, as whole numbers: [u] gives
    the number of units an entry draws, the unit being a power of two of a
    kilowatt. *)
Definition total_units (u : DataItem -> Z) (items : list DataItem) : Z :=
  fold_right Z.add 0 (map u items).

(** ** Window builder *)

Definition window := (datetime * datetime)%type.

Definition mem_name (n : string) (l : list string) : bool :=
  existsb (String.eqb n) l.

(** [windows.setdefault(name, []).append(w)] *)
Definition append_window (windows : dict (list window)) (n : string) (w : window)
  : dict (list window) :=
  Dict.set windows n (Dict.get_default windows n [] ++ [w])%list.

(** Closing the windows of the loads that stop being present.  The loop
    runs over a copy of the keys of [active_start] and reads
    [active_start[name]] before deleting it, which is the value the copy of
    the items holds. *)
Definition close_absent (ts : datetime) (present : list string)
    (windows : dict (list window)) (active_start : dict datetime)
  : dict (list window) * dict datetime :=
  fold_left
    (fun st kv =>
       let '(n, start) := kv in
       if mem_name n present then st
       else (append_window (fst st) n (start, ts), Dict.del (snd st) n))
    active_start (windows, active_start).

(** Opening windows for newly present loads. *)
Definition open_new (ts : datetime) (items : list DataItem)
    (active_start : dict datetime) : dict datetime :=
  fold_left
    (fun act it => if Dict.mem act (name it) then act else Dict.set act (name it) ts)
    items active_start.

(** Closing every active window at [last_end]. *)
Definition close_all (last_end : datetime) (windows : dict (list window))
    (active_start : dict datetime) : dict (list window) :=
  fold_left (fun w kv => append_window w (fst kv) (snd kv, last_end))
    active_start windows.

(** The loop over [enumerate(payload.schedule)]; the slot with
    [i == len(payload.schedule) - 1] is the one with no successor. *)
Fixpoint windows_loop (slot_h : float) (slots : list ScheduleSlot)
    (windows : dict (list window)) (active_start : dict datetime)
  : option (dict (list window)) :=
  match slots with
  | [] => Some windows
  | slot :: rest =>
      let ts := timestamp slot in
      let present := map name (data slot) in
      let '(windows1, active1) := close_absent ts present windows active_start in
      let active2 := open_new ts (data slot) active1 in
      match rest with
      | [] =>
          match Datetime.timedelta_hours slot_h with
          | None => None
          | Some d =>
              match Datetime.add ts d with
              | None => None
              | Some last_end => Some (close_all last_end windows1 active2)
              end
          end
      | _ => windows_loop slot_h rest windows1 active2
      end
  end.

Definition load_windows_15m (payload : OptimizationSchedule)
  : option (dict (list window)) :=
  windows_loop (_guess_slot_hours payload) (schedule payload) [] [].

(** A load is present in a slot when one of the slot's entries bears its
    name. *)
Definition present (n : string) (slot : ScheduleSlot) : bool :=
  mem_name n (map name (data slot)).

(** The timestamp of the final slot, and the instant
    [last_timestamp + slot_duration] at which the windows still open are
    closed; [None] where the source raises ([timedelta] or [datetime] out of
    range) or there is no slot. *)
Definition final_timestamp (slots : list ScheduleSlot) : option datetime :=
  match slots with
  | [] => None
  | slot :: rest => Some (timestamp (last rest slot))
  end.

Definition closing_instant (slot_h : float) (slots : list ScheduleSlot) : option datetime :=
  match final_timestamp slots, Datetime.timedelta_hours slot_h with
  | Some t, Some d => Datetime.add t d
  | _, _ => None
  end.

Definition last_timestamp (payload : OptimizationSchedule) : option datetime :=
  final_timestamp (schedule payload).

Definition slot_duration (payload : OptimizationSchedule) : option Datetime.timedelta :=
  Datetime.timedelta_hours (_guess_slot_hours payload).

Definition window_end (payload : OptimizationSchedule) : option datetime :=
  closing_instant (_guess_slot_hours payload) (schedule payload).

(** The gap [schedule[1].timestamp - schedule[0].timestamp] that the slot
    duration is inferred from, in microseconds; [None] with fewer than two
    slots. *)
Definition first_gap (slots : list ScheduleSlot) : option Datetime.timedelta :=
  match slots with
  | s0 :: s1 :: _ => Some (Datetime.diff (timestamp s1) (timestamp s0))
  | _ => None
  end.

(** The windows of one load are in order when each starts strictly after
    the start of the one before and not before its end; they cover the
    slots of the load when a slot's timestamp lies in one of the half-open
    windows exactly if the load is present in the slot. *)
Definition windows_increasing (ws : list window) : Prop :=
  StronglySorted (fun w1 w2 => fst w1 < fst w2 /\ snd w1 <= fst w2) ws.

Definition windows_cover (slots : list ScheduleSlot) (n : string) (ws : list window) : Prop :=
  forall slot, In slot slots ->
    (present n slot = true <-> exists w, In w ws /\ fst w <= timestamp slot < snd w).

(** [st] starts the last run of slots, reaching the final slot, in all of
    which the load is present. *)
Definition trailing_run (n : string) (slots : list ScheduleSlot) (st : datetime) : Prop :=
  exists before s0 after,
    slots = (before ++ s0 :: after)%list
    /\ st = timestamp s0
    /\ Forall (fun s => present n s = true) (s0 :: after)
    /\ (before = [] \/ exists b s_abs, before = (b ++ [s_abs])%list /\ present n s_abs = false).

(** ** Rendering of the windows *)

(** The en dash U+2013, in UTF-8. *)
Definition en_dash : string :=
  String (ascii_of_nat 226) (String (ascii_of_nat 128) (String (ascii_of_nat 147) EmptyString)).

Definition fmt_range_pt (start_dt end_dt : datetime) : string :=
  Datetime.strftime_HhM start_dt ++ en_dash ++ Datetime.strftime_HhM end_dt.

(** The closure [fmt_windows] of [persona_report], with the dictionary
    [win] it captures as a parameter. *)
Definition fmt_windows (win : dict (list window)) (n : string) : string :=
  let ranges := map (fun w => fmt_range_pt (fst w) (snd w)) (Dict.get_default win n []) in
  match ranges with
  | [] => ""
  | [r] => r
  | [r1; r2] => String.concat " e " ranges
  | _ => String.concat ", " (removelast ranges) ++ " e " ++ last ranges ""
  end.

(** ** Further notions of the engine *)

(** [math.isfinite]. *)
Definition is_finite (x : float) : bool :=
  match x with
  | S754_zero _ | S754_finite _ _ _ => true
  | _ => false
  end.

(** The strings of [l], each once, in the order in which they first appear:
    the keys of a dictionary that is filled by assignments to the keys [l]. *)
Definition first_seen (l : list string) : list string :=
  fold_left (fun ks n => if mem_name n ks then ks else (ks ++ [n])%list) l [].

(** [0.0 <= x]: zero of either sign, a positive number or the positive
    infinity. *)
Definition nonnegative (x : float) : bool := B64.leb B64.zero x.

(** The bucket [int(ts[11:13])] a key falls into, when the slice reads as
    one of the hours [0 .. 23]; [None] where the histogram raises. *)
Definition bucket_of (ts : string) : option nat :=
  match py_int (substring 11 2 ts) with
  | Some hour => if (0 <=? hour) && (hour <? 24) then Some (Z.to_nat hour) else None
  | None => None
  end.

(** What a power adds to its bucket: [float(p_kw) * 0.25 * 1000.0]. *)
Definition watt_hours (p_kw : float) : float :=
  B64.mul (B64.mul p_kw B64.quarter) B64.thousand.

(** A key of ASCII characters: [int] reads a slice of such a key as
    [py_int] does.  (In a slice with a character beyond ASCII [int] also
    takes Unicode digits and white space.) *)
Definition ascii_key (ts : string) : bool :=
  forallb (fun c => (nat_of_ascii c <? 128)%nat) (list_ascii_of_string ts).

Definition ascii_keys (power : dict float) : Prop :=
  Forall (fun kv => ascii_key (fst kv) = true) power.

(** Timestamps from the year 1000 to the year 9999: their keys have the
    year in four digits whatever the platform's [strftime] does with
    shorter years. *)
Definition four_digit_years (slots : list ScheduleSlot) : Prop :=
  Forall (fun slot => Datetime.make 1000 1 1 0 0 0 <= timestamp slot <= Datetime.max_us)
    slots.

Definition in_bucket (h : nat) (kv : string * float) : bool :=
  match bucket_of (fst kv) with
  | Some i => Nat.eqb i h
  | None => false
  end.

(** Two slots with the same timestamp that name the same loads in the same
    order, whatever the powers. *)
Definition same_loads (s s' : ScheduleSlot) : Prop :=
  timestamp s = timestamp s' /\ map name (data s) = map name (data s').

(** The windows of a load follow one another when none starts before the
    end of the one before. *)
Definition windows_ordered (ws : list window) : Prop :=
  StronglySorted (fun w1 w2 => snd w1 <= fst w2) ws.

(** The number of runs of consecutive slots in which a load is present;
    [inside] tells that it is present in the slot before. *)
Fixpoint runs (n : string) (slots : list ScheduleSlot) (inside : bool) : nat :=
  match slots with
  | [] => O
  | slot :: rest =>
      ((if present n slot && negb inside then 1 else 0) + runs n rest (present n slot))%nat
  end.

(** ** Text

    A Python [str] whose content is not known to be ASCII (a persona, what
    the language model writes) is the list of its code points. *)

Module Str.

Abbreviation str := (list Z) (only parsing).

(** An ASCII literal. *)
Definition lit (s : string) : str :=
  map (fun c => Z.of_nat (nat_of_ascii c)) (list_ascii_of_string s).

(** [str.isspace] of one character: the white space [strip] removes and
    [\s] matches. *)
Definition isspace (c : Z) : bool :=
  ((9 <=? c) && (c <=? 13)) || ((28 <=? c) && (c <=? 32))
  || (c =? 133) || (c =? 160) || (c =? 5760)
  || ((8192 <=? c) && (c <=? 8202))
  || (c =? 8232) || (c =? 8233) || (c =? 8239) || (c =? 8287) || (c =? 12288).

Fixpoint lstrip (s : str) : str :=
  match s with
  | c :: s' => if isspace c then lstrip s' else s
  | [] => []
  end.

Definition rstrip (s : str) : str := rev (lstrip (rev s)).

Definition strip (s : str) : str := rstrip (lstrip s).

Fixpoint startswith (s prefix : str) {struct prefix} : bool :=
  match prefix, s with
  | [], _ => true
  | a :: prefix', b :: s' => (a =? b) && startswith s' prefix'
  | _ :: _, [] => false
  end.

(** [needle in hay] *)
Fixpoint contains (needle hay : str) : bool :=
  startswith hay needle
  || match hay with
     | [] => false
     | _ :: hay' => contains needle hay'
     end.

(** [sep.join(l)] *)
Fixpoint join (sep : str) (l : list str) : str :=
  match l with
  | [] => []
  | [x] => x
  | x :: l' => x ++ sep ++ join sep l'
  end.

End Str.

(** ** The report's text, after the language model *)

(** [f"Olá! Sou {who},"] *)
Definition header_line (who : Str.str) : Str.str :=
  (Str.lit "Ol" ++ [225] ++ Str.lit "! Sou " ++ who ++ Str.lit ",")%list.

(** The rest of the sentence that is put before a text without the
    header. *)
Definition opening_rest : Str.str :=
  (Str.lit " e estou aqui para indicar os hor" ++ [225]
   ++ Str.lit "rios ideais de consumo.")%list.

Definition costs_title : Str.str := Str.lit "Custos do dia".

(** The section that is put after a text that has cost lines to show and
    does not name the section. *)
Definition costs_section (cost_lines : list Str.str) : Str.str :=
  ([10; 10] ++ Str.lit "## Custos do dia" ++ [10]
   ++ Str.join [10] (map (fun x => Str.lit "- " ++ x) cost_lines) ++ [10])%list.

(** The post-processing of [persona_report], in its two steps: [text] is
    what the language model returned; the opening is put before a text that
    does not hold the header among its first 160 characters, and the costs
    section after a text that has cost lines to show and does not name it. *)
Definition with_header (who : Str.str) (text : Str.str) : Str.str :=
  if negb (Str.contains (header_line who) (firstn 160 text))
  then (header_line who ++ opening_rest ++ [10; 10] ++ text)%list
  else text.

Definition with_costs (cost_lines : list Str.str) (text : Str.str) : Str.str :=
  match cost_lines with
  | _ :: _ =>
      if negb (Str.contains costs_title text)
      then (Str.rstrip text ++ costs_section cost_lines)%list
      else text
  | [] => text
  end.

Definition postprocess (who : Str.str) (cost_lines : list Str.str) (text : Str.str)
  : Str.str :=
  with_costs cost_lines (with_header who text).

(** ** The peak times of the report *)

(** [f"{n:02d}"]: at least two characters, the sign counted, zeros before
    the digits. *)
Definition fmt_02d (n : Z) : string :=
  if n <? 0 then "-" ++ dec (- n)
  else if n <? 10 then "0" ++ dec n
  else dec n.

(** [f"{int(ts[11:13]):02d}h{ts[14:16]}"]; [None] where [int] raises. *)
Definition hhmm_entry (ts : string) : option string :=
  match py_int (substring 11 2 ts) with
  | Some hour => Some (fmt_02d hour ++ "h" ++ substring 14 2 ts)
  | None => None
  end.

(** The list comprehension, which raises at the first key that does. *)
Fixpoint hhmm_entries (peak_kw_ts : list string) : option (list string) :=
  match peak_kw_ts with
  | [] => Some []
  | ts :: rest =>
      match hhmm_entry ts with
      | None => None
      | Some x =>
          match hhmm_entries rest with
          | None => None
          | Some l => Some (x :: l)
          end
      end
  end.

Definition hhmm (peak_kw_ts : list string) : option string :=
  match peak_kw_ts with
  | [] => Some ""
  | _ => option_map (String.concat ", ") (hhmm_entries peak_kw_ts)
  end.

(** ** Personas *)

Definition CHARACTERS : list Str.str :=
  map Str.lit
    ["Master Yoda"; "James Bond"; "Homer Simpson"; "Sherlock Holmes";
     "Darth Vader"; "Harry Potter"; "Captain Jack Sparrow";
     "Gandalf the Grey"; "Tony Stark"; "Dracula"; "Elsa from Arendelle"].

(** [pick_persona]: [choice] is the index [random.choice] draws, below the
    number of characters. *)
Definition pick_persona (maybe_persona : option Str.str) (choice : nat) : Str.str :=
  match maybe_persona with
  | Some (c :: p) => Str.strip (c :: p)
  | _ => nth choice CHARACTERS []
  end.

(** ** Markdown stripping

    [re.sub(pattern, r"\1", text)] for a pattern made of a prefix, one group
    and a suffix: [find] tells, for the text that starts at a position,
    whether a match starts there and then how many characters the prefix,
    the group and the suffix take; the scan goes from left to right,
    resumes after a match, and keeps the group of a match and every
    character outside the matches.  No pattern here matches the empty
    string. *)
Fixpoint sub_group (find : Str.str -> option (nat * nat * nat)) (text : Str.str)
    (drop keep drop' : nat) : Str.str :=
  match text with
  | [] => []
  | c :: rest =>
      match drop, keep, drop' with
      | S n, _, _ => sub_group find rest n keep drop'
      | O, S n, _ => c :: sub_group find rest O n drop'
      | O, O, S n => sub_group find rest O O n
      | O, O, O =>
          match find text with
          | Some (S n, group, suffix) => sub_group find rest n group suffix
          | _ => c :: sub_group find rest O O O
          end
      end
  end.

(** The number of characters [d] the text starts with, at most [k]: what a
    greedy [d{1,k}] takes. *)
Fixpoint run (d : Z) (k : nat) (s : Str.str) : nat :=
  match k, s with
  | S k', c :: s' => if c =? d then S (run d k' s') else O
  | _, _ => O
  end.

(** The number of characters before the first [d] of the line, if the line
    has one: what a lazy [.*?] takes before [d] ([.] matches everything but
    a line feed). *)
Fixpoint until (d : Z) (s : Str.str) : option nat :=
  match s with
  | [] => None
  | c :: s' =>
      if c =? d then Some O
      else if c =? 10 then None
      else option_map S (until d s')
  end.

(** A match of [d{1,3}(.*?)d{1,3}] at the start of [s].  The opening takes
    the [r] characters [d] it can, up to three; the group reaches to the
    next [d] of the line, and the closing takes what it can.  When the line
    has no further [d], the opening gives one [d] back for the closing, and
    the group is empty; a single [d] does not match. *)
Definition emphasis_at (d : Z) (s : Str.str) : option (nat * nat * nat) :=
  match run d 3 s with
  | O => None
  | S r' =>
      let after := skipn (S r') s in
      match until d after with
      | Some group => Some (S r', group, run d 3 (skipn group after))
      | None =>
          match r' with
          | O => None
          | S _ => Some (r', O, 1%nat)
          end
      end
  end.

(** [re.sub(r"#+\s*", "", text)]: every ["#"] goes, and so does the white
    space that follows a run of them; [in_match] tells that the character
    before was taken by a match. *)
Fixpoint sub_headings (text : Str.str) (in_match : bool) : Str.str :=
  match text with
  | [] => []
  | c :: rest =>
      if c =? 35 then sub_headings rest true
      else if in_match && Str.isspace c then sub_headings rest true
      else c :: sub_headings rest false
  end.

(** A match of [\[(.*?)\]\(.*?\)] at the start of ["[" ++ s]: the group is
    the shortest text of the line that is followed by ["]("] and, further
    on the line, by [")"]; the result is the length of the group and of
    what stands between the parentheses. *)
Fixpoint link_group (s : Str.str) : option (nat * nat) :=
  match s with
  | [] => None
  | c :: s' =>
      let here :=
        if c =? 93 then
          match s' with
          | c2 :: s'' => if c2 =? 40 then until 41 s'' else None
          | [] => None
          end
        else None in
      match here with
      | Some url => Some (O, url)
      | None =>
          if c =? 10 then None
          else match link_group s' with
               | Some (group, url) => Some (S group, url)
               | None => None
               end
      end
  end.

Definition link_at (s : Str.str) : option (nat * nat * nat) :=
  match s with
  | c :: s' =>
      if c =? 91 then
        match link_group s' with
        | Some (group, url) => Some (1%nat, group, (3 + url)%nat)
        | None => None
        end
      else None
  | [] => None
  end.

Definition strip_markdown (md_text : Str.str) : Str.str :=
  let text := sub_group (emphasis_at 42) md_text 0 0 0 in
  let text := sub_group (emphasis_at 95) text 0 0 0 in
  let text := sub_headings text false in
  sub_group link_at text 0 0 0.

(** [s] is [t] with some characters left out. *)
Inductive subsequence : list Z -> list Z -> Prop :=
| subsequence_nil : subsequence [] []
| subsequence_keep c s t : subsequence s t -> subsequence (c :: s) (c :: t)
| subsequence_drop c s t : subsequence s t -> subsequence s (c :: t).

(** A character that starts no markup: none of [*], [_], [#] and [[]. *)
Definition plain (c : Z) : bool :=
  negb ((c =? 42) || (c =? 95) || (c =? 35) || (c =? 91)).

(** ** The spoken report

    The text [persona_report_audio] hands to the speech synthesis, from the
    text of the report: [None] is the reply "empty text from
    persona_report", with status 500. *)
Definition audio_text (report_text : Str.str) : option Str.str :=
  match strip_markdown (Str.strip report_text) with
  | [] => None
  | text => Some text
  end.

(** ** Cost lines *)

Record CostAnalysis := {
  total_cost : option float;
  total_load_cost : option float;
  total_solar_revenue : option float;
  currency : Str.str
}.

(** [f"{x:.2f}"]: the decimal with two fractional digits nearest to the
    exact value of [x], ties to even. *)
Definition fmt_2f (x : float) : string :=
  match x with
  | S754_nan => "nan"
  | S754_infinity s => if s then "-inf" else "inf"
  | S754_zero s => if s then "-0.00" else "0.00"
  | S754_finite s m e =>
      let n := match e with
               | Zneg p => B64.div_half_even (Zpos m * 100) (2 ^ Zpos p)
               | _ => Zpos m * 100 * 2 ^ e
               end in
      (if s then "-" else "") ++ dec (n / 100) ++ "." ++ dec (n mod 100 / 10) ++ dec (n mod 10)
  end.

(** [f"{label}: {float(x):.2f} {currency}"] *)
Definition cost_line (label : Str.str) (x : float) (cur : Str.str) : Str.str :=
  (label ++ Str.lit ": " ++ Str.lit (fmt_2f x) ++ [32] ++ cur)%list.

(** The currency and the cost lines of [persona_report], from the
    payload's [cost_analysis]. *)
Definition cost_currency (ca : option CostAnalysis) : Str.str :=
  match ca with
  | Some c => match currency c with [] => Str.lit "EUR" | cur => cur end
  | None => Str.lit "EUR"
  end.

Definition cost_lines (ca : option CostAnalysis) : list Str.str :=
  let cur := cost_currency ca in
  match ca with
  | None => []
  | Some c =>
      match total_cost c with
      | None => []
      | Some total =>
          match total_load_cost c, total_solar_revenue c with
          | Some load, Some solar =>
              let net := B64.sub load solar in
              [cost_line (Str.lit "Custo total") total cur;
               cost_line (Str.lit "Custo dos consumos") load cur;
               cost_line (Str.lit "Receita solar") solar cur;
               cost_line (Str.lit "Custo l" ++ [237]
                          ++ Str.lit "quido (consumos - receita solar)") net cur]
          | _, _ => [cost_line (Str.lit "Custo total") total cur]
          end
      end
  end.

(** ** The language model adapter

    [generate_text] posts one request to the backend and reads the text out
    of the reply.  A JSON value is what [r.json()] returns; the HTTP
    exchange is a function [post] from the request to what [requests.post]
    does with it. *)

#[warnings="-register-all"] Inductive json :=
| JNull
| JBool (b : bool)
| JInt (n : Z)
| JFloat (x : float)
| JStr (s : Str.str)
| JList (l : list json)
| JDict (d : list (Str.str * json)).

Inductive exn :=
| RuntimeError | TransportError | HTTPError | JSONDecodeError
| AttributeError | KeyError | TypeError | IndexError.

Inductive outcome (A : Type) :=
| Return (a : A)
| Raise (e : exn).
Arguments Return {A} a.
Arguments Raise {A} e.

Definition bind {A B : Type} (x : outcome A) (f : A -> outcome B) : outcome B :=
  match x with
  | Return a => f a
  | Raise e => Raise e
  end.

Definition str_eqb (a b : Str.str) : bool :=
  if list_eq_dec Z.eq_dec a b then true else false.

Fixpoint lookup (d : list (Str.str * json)) (k : Str.str) : option json :=
  match d with
  | [] => None
  | (k', v) :: d' => if str_eqb k k' then Some v else lookup d' k
  end.

(** [x.get(k, dflt)] *)
Definition get_or (x : json) (k : Str.str) (dflt : json) : outcome json :=
  match x with
  | JDict d => Return (match lookup d k with Some v => v | None => dflt end)
  | _ => Raise AttributeError
  end.

(** [x[k]] for a string [k] *)
Definition subscript (x : json) (k : Str.str) : outcome json :=
  match x with
  | JDict d => match lookup d k with Some v => Return v | None => Raise KeyError end
  | _ => Raise TypeError
  end.

(** [x[0]] *)
Definition subscript0 (x : json) : outcome json :=
  match x with
  | JList (v :: _) => Return v
  | JList [] => Raise IndexError
  | JStr (c :: _) => Return (JStr [c])
  | JStr [] => Raise IndexError
  | JDict _ => Raise KeyError
  | _ => Raise TypeError
  end.

Record Request := { url : Str.str; body : json }.

(** What [requests.post] does: it raises, or returns a response with a
    status and a body that is JSON or not. *)
Inductive Reply :=
| Failed
| Got (status : Z) (content : option json).

(** [r.raise_for_status(); r.json()] *)
Definition checked_json (r : Reply) : outcome json :=
  match r with
  | Failed => Raise TransportError
  | Got status content =>
      if (400 <=? status) && (status <? 600) then Raise HTTPError
      else match content with
           | Some v => Return v
           | None => Raise JSONDecodeError
           end
  end.

Definition message (role content : Str.str) : json :=
  JDict [(Str.lit "role", JStr role); (Str.lit "content", JStr content)].

(** The request of each backend. *)
Definition ollama_request (model endpoint system prompt : Str.str)
    (max_tokens : Z) (temperature : float) : Request :=
  {| url := (endpoint ++ Str.lit "/api/chat")%list;
     body := JDict [(Str.lit "model", JStr model);
                    (Str.lit "messages",
                     JList [message (Str.lit "system") system;
                            message (Str.lit "user") prompt]);
                    (Str.lit "stream", JBool false);
                    (Str.lit "options",
                     JDict [(Str.lit "temperature", JFloat temperature);
                            (Str.lit "num_predict", JInt max_tokens)])] |}.

Definition vllm_request (model endpoint system prompt : Str.str)
    (max_tokens : Z) (temperature : float) : Request :=
  {| url := (endpoint ++ Str.lit "/v1/chat/completions")%list;
     body := JDict [(Str.lit "model", JStr model);
                    (Str.lit "messages",
                     JList [message (Str.lit "system") system;
                            message (Str.lit "user") prompt]);
                    (Str.lit "max_tokens", JInt max_tokens);
                    (Str.lit "temperature", JFloat temperature)] |}.

Definition tgi_request (endpoint system prompt : Str.str)
    (max_tokens : Z) (temperature : float) : Request :=
  {| url := (endpoint ++ Str.lit "/generate")%list;
     body := JDict [(Str.lit "inputs",
                     JStr (Str.lit "<<SYS>>" ++ system ++ Str.lit "<<SYS>>" ++ [10] ++ prompt));
                    (Str.lit "parameters",
                     JDict [(Str.lit "max_new_tokens", JInt max_tokens);
                            (Str.lit "temperature", JFloat temperature)])] |}.

(** [generate_text], with the module's constants [LLAMA_BACKEND],
    [LLAMA_MODEL] and [LLAMA_ENDPOINT] as parameters: the requests that
    were posted, and what is returned or raised. *)
Definition generate_text (LLAMA_BACKEND LLAMA_MODEL LLAMA_ENDPOINT : Str.str)
    (post : Request -> Reply)
    (system prompt : Str.str) (max_tokens : Z) (temperature : float)
  : list Request * outcome json :=
  if str_eqb LLAMA_BACKEND (Str.lit "OLLAMA") then
    let req := ollama_request LLAMA_MODEL LLAMA_ENDPOINT system prompt max_tokens temperature in
    ([req],
     bind (checked_json (post req)) (fun j =>
     bind (get_or j (Str.lit "message") (JDict [])) (fun m =>
     get_or m (Str.lit "content") (JStr []))))
  else if str_eqb LLAMA_BACKEND (Str.lit "VLLM") then
    let req := vllm_request LLAMA_MODEL LLAMA_ENDPOINT system prompt max_tokens temperature in
    ([req],
     bind (checked_json (post req)) (fun j =>
     bind (subscript j (Str.lit "choices")) (fun cs =>
     bind (subscript0 cs) (fun c =>
     bind (subscript c (Str.lit "message")) (fun m =>
     subscript m (Str.lit "content"))))))
  else if str_eqb LLAMA_BACKEND (Str.lit "TGI") then
    let req := tgi_request LLAMA_ENDPOINT system prompt max_tokens temperature in
    ([req],
     bind (checked_json (post req)) (fun j => subscript j (Str.lit "generated_text")))
  else ([], Raise RuntimeError).

(** The backends [generate_text] knows. *)
Definition supported (backend : Str.str) : bool :=
  str_eqb backend (Str.lit "OLLAMA") || str_eqb backend (Str.lit "VLLM")
  || str_eqb backend (Str.lit "TGI").

(** A status on which [raise_for_status] does not raise. *)
Definition status_ok (status : Z) : bool := negb ((400 <=? status) && (status <? 600)).

(** ** The client's addresses *)

(** [s.split(sep)[0]] for a separator that is not empty: what stands before
    the first occurrence of [sep], or all of [s]. *)
Fixpoint before (sep s : Str.str) : Str.str :=
  if Str.startswith s sep then []
  else match s with
       | [] => []
       | c :: s' => c :: before sep s'
       end.

Fixpoint lstrip_char (c : Z) (s : Str.str) : Str.str :=
  match s with
  | x :: s' => if x =? c then lstrip_char c s' else s
  | [] => []
  end.

(** [s.rstrip("/")] *)
Definition rstrip_slash (s : Str.str) : Str.str := rev (lstrip_char 47 (rev s)).

(** The query that names the persona, if one is given: [quote] stands for
    [requests.utils.quote]. *)
Definition persona_query (quote : Str.str -> Str.str) (persona : option Str.str) : Str.str :=
  match persona with
  | Some (c :: p) => (Str.lit "?persona=" ++ quote (c :: p))%list
  | _ => []
  end.

(** The address of the text endpoint, and the address the client derives
    from it for the audio endpoint. *)
Definition text_url (quote : Str.str -> Str.str) (url : Str.str) (persona : option Str.str)
  : Str.str :=
  (url ++ persona_query quote persona)%list.

Definition audio_url (quote : Str.str -> Str.str) (url : Str.str) (persona : option Str.str)
  : Str.str :=
  let base := rstrip_slash (before (Str.lit "/persona_report") url) in
  (base ++ Str.lit "/persona_report_audio" ++ persona_query quote persona)%list.

(** ** Example schedules *)

Module Examples.

Definition f_one : float := S754_finite false 4503599627370496 (-52).
Definition f_two : float := S754_finite false 4503599627370496 (-51).
Definition f_three : float := S754_finite false 6755399441055744 (-51).
Definition f_half : float := S754_finite false 4503599627370496 (-53).
(** The double nearest to 0.001. *)
Definition f_milli : float := S754_finite false 4611686018427388 (-62).

(** 2024-01-01 at 00:00, 00:15 and 00:30. *)
Definition t_0000 : datetime := Datetime.make 2024 1 1 0 0 0.
Definition t_0015 : datetime := Datetime.make 2024 1 1 0 15 0.
Definition t_0030 : datetime := Datetime.make 2024 1 1 0 30 0.

Definition item (n : string) (v : float) : DataItem := {| name := n; value := v |}.
Definition slot (t : datetime) (d : list DataItem) : ScheduleSlot :=
  {| timestamp := t; data := d |}.

(** One load at 2 kW in two quarter-hour slots. *)
Definition oven_twice : OptimizationSchedule :=
  {| schedule := [slot t_0000 [item "oven" f_two]; slot t_0015 [item "oven" f_two]] |}.

(** A load present, absent, then present again. *)
Definition on_off_on : OptimizationSchedule :=
  {| schedule := [slot t_0000 [item "pump" f_one];
                  slot t_0015 [item "oven" f_two];
                  slot t_0030 [item "pump" f_one; item "oven" f_one]] |}.

(** Three slots bearing the same timestamp, the load absent in the middle
    one: a schedule the validator accepts, since its timestamps never
    decrease. *)
Definition repeated_timestamp : OptimizationSchedule :=
  {| schedule := [slot t_0000 [item "pump" f_one];
                  slot t_0000 [];
                  slot t_0000 [item "pump" f_one]] |}.

(** One slot naming the same load twice. *)
Definition duplicate_entry : OptimizationSchedule :=
  {| schedule := [slot t_0000 [item "oven" f_one; item "oven" f_two]] |}.

(** The doubles nearest to 0.1 and to 0.2, and one slot in which two loads
    draw them: the powers add up to 0.30000000000000004 kW. *)
Definition f_tenth : float := S754_finite false 7205759403792794 (-56).
Definition f_fifth : float := S754_finite false 7205759403792794 (-55).

Definition kettle_and_lamp : OptimizationSchedule :=
  {| schedule := [slot t_0000 [item "kettle" f_tenth; item "lamp" f_fifth]] |}.

(** One slot ten minutes before the end of the year 9999. *)
Definition last_minutes : OptimizationSchedule :=
  {| schedule := [slot (Datetime.make 9999 12 31 23 50 0) [item "pump" f_one]] |}.

(** Three slots twenty minutes apart, a third of an hour being no double;
    the oven is present in the final slot only. *)
Definition twenty_minutes : OptimizationSchedule :=
  {| schedule := [slot (Datetime.make 2024 1 1 0 0 0) [item "pump" f_one];
                  slot (Datetime.make 2024 1 1 0 20 0) [];
                  slot (Datetime.make 2024 1 1 0 40 0) [item "oven" f_two]] |}.

(** One slot, one load drawing a watt. *)
Definition one_watt : OptimizationSchedule :=
  {| schedule := [slot t_0000 [item "led" f_milli]] |}.

(** The power of an entry in units of [2^-q] kW, rounded down: its number
    of units when it draws a whole number of them. *)
Definition units_of (q : Z) (it : DataItem) : Z :=
  match value it with
  | S754_finite false m e =>
      match e + q with
      | Zneg p => Zpos m / 2 ^ Zpos p
      | k => Zpos m * 2 ^ k
      end
  | _ => 0
  end.

(** A quarter and an eighth of a kilowatt, and two slots in which a fridge
    draws the one and a lamp, in the second slot, the other: five eighths
    of a kilowatt in all. *)
Definition f_quarter : float := S754_finite false 4503599627370496 (-54).
Definition f_eighth : float := S754_finite false 4503599627370496 (-55).

Definition fridge_and_lamp : OptimizationSchedule :=
  {| schedule := [slot t_0000 [item "fridge" f_quarter];
                  slot t_0015 [item "fridge" f_quarter; item "lamp" f_eighth]] |}.

(** The double nearest to 0.006, and three slots in which a load draws
    6 W. *)
Definition f_six_milli : float := S754_finite false 6917529027641082 (-60).

Definition six_watts : OptimizationSchedule :=
  {| schedule := [slot t_0000 [item "led" f_six_milli];
                  slot t_0015 [item "led" f_six_milli];
                  slot t_0030 [item "led" f_six_milli]] |}.

End Examples.

Module CostSamples.

(** A total cost and a solar revenue, no load cost and an empty currency. *)
Definition total_and_solar : CostAnalysis :=
  {| total_cost := Some Examples.f_one; total_load_cost := None;
     total_solar_revenue := Some Examples.f_two; currency := [] |}.

End CostSamples.

(** ** Example texts and dictionaries *)

Module Samples.

(** [on_off_on] with other powers. *)
Definition on_off_on_other : OptimizationSchedule :=
  {| schedule := [Examples.slot Examples.t_0000 [Examples.item "pump" Examples.f_three];
                  Examples.slot Examples.t_0015 [Examples.item "oven" Examples.f_half];
                  Examples.slot Examples.t_0030 [Examples.item "pump" Examples.f_two;
                                                 Examples.item "oven" Examples.f_two]] |}.

(** The hourly buckets of [on_off_on]: 1250 Wh in the hour 0. *)
Definition on_off_on_buckets : list float :=
  B64.dyadic 10000 (-3) :: repeat B64.zero 23.

(** Three windows of the oven on 2024-02-29, the last one ending after
    midnight. *)
Definition evening : dict (list window) :=
  [("oven", [(Datetime.make 2024 2 29 7 5 0, Datetime.make 2024 2 29 9 30 0);
             (Datetime.make 2024 2 29 12 0 0, Datetime.make 2024 2 29 12 45 0);
             (Datetime.make 2024 2 29 23 59 0, Datetime.make 2024 3 1 0 14 0)])].

(** A dictionary with a key that is a date only. *)
Definition date_only : dict float := [("2024-01-01", Examples.f_one)].

Definition yoda : Str.str := Str.lit "Yoda".

(** A text without the greeting. *)
Definition plain_report : Str.str := Str.lit "Ligue o forno ao meio-dia.  ".

Definition one_cost_line : list Str.str := [Str.lit "Custo total: 1.00 EUR"].

End Samples.

(** * Properties *)

(** ** Dictionaries *)

Module DictFacts.
Section Facts.
Context {V : Type}.
Implicit Types (d : dict V) (k : string) (v : V).

Lemma get_set_eq d k v : Dict.get (Dict.set d k v) k = Some v.
Proof.
  induction d as [|[k' v'] d IH]; simpl.
  - now rewrite String.eqb_refl.
  - destruct (String.eqb k k') eqn:E; simpl.
    + now rewrite String.eqb_refl.
    + now rewrite E.
Qed.

Lemma get_set_ne d k k' v : k' <> k -> Dict.get (Dict.set d k v) k' = Dict.get d k'.
Proof.
  intros Hne. induction d as [|[k0 v0] d IH]; simpl.
  - destruct (String.eqb_spec k' k); [contradiction|reflexivity].
  - destruct (String.eqb_spec k k0) as [->|Hk]; simpl.
    + destruct (String.eqb_spec k' k0); [contradiction|reflexivity].
    + now rewrite IH.
Qed.

Lemma get_del_eq d k : Dict.get (Dict.del d k) k = None.
Proof.
  unfold Dict.del. induction d as [|[k0 v0] d IH]; simpl; [reflexivity|].
  destruct (String.eqb_spec k k0) as [->|Hk]; simpl; [assumption|].
  destruct (String.eqb_spec k k0); [contradiction|assumption].
Qed.

Lemma get_del_ne d k k' : k' <> k -> Dict.get (Dict.del d k) k' = Dict.get d k'.
Proof.
  intros Hne. unfold Dict.del. induction d as [|[k0 v0] d IH]; simpl; [reflexivity|].
  destruct (String.eqb_spec k k0) as [->|Hk]; simpl.
  - destruct (String.eqb_spec k' k0); [contradiction|assumption].
  - now rewrite IH.
Qed.

Lemma get_None_keys d k : Dict.get d k = None <-> ~ In k (Dict.keys d).
Proof.
  induction d as [|[k0 v0] d IH]; simpl.
  - tauto.
  - destruct (String.eqb_spec k k0) as [->|Hk].
    + split; [discriminate|intros H; exfalso; apply H; now left].
    + rewrite IH. split; intros H; [intros [E|E]; [now subst|now apply H]|tauto].
Qed.

Lemma get_Some_In d k v : Dict.get d k = Some v -> In (k, v) d.
Proof.
  induction d as [|[k0 v0] d IH]; simpl; [discriminate|].
  destruct (String.eqb_spec k k0) as [->|Hk].
  - intros [= ->]. now left.
  - intros H. right. now apply IH.
Qed.

Lemma In_get_Some d k v : NoDup (Dict.keys d) -> In (k, v) d -> Dict.get d k = Some v.
Proof.
  induction d as [|[k0 v0] d IH]; simpl; [tauto|].
  intros Hnd [E|Hin].
  - injection E as -> ->. now rewrite String.eqb_refl.
  - inversion Hnd as [|? ? Hnotin Hnd']; subst.
    destruct (String.eqb_spec k k0) as [->|Hk].
    + exfalso. apply Hnotin. unfold Dict.keys. now apply (in_map fst) in Hin.
    + now apply IH.
Qed.

(** Assigning keeps the order of the keys: an existing key stays where
    it is, a new one goes last. *)
Lemma keys_set d k v :
  Dict.keys (Dict.set d k v)
  = if Dict.mem d k then Dict.keys d else (Dict.keys d ++ [k])%list.
Proof.
  unfold Dict.mem. induction d as [|[k0 v0] d IH]; simpl; [reflexivity|].
  destruct (String.eqb_spec k k0) as [->|Hk]; simpl; [reflexivity|].
  rewrite IH. now destruct (Dict.get d k).
Qed.

Lemma NoDup_keys_set d k v : NoDup (Dict.keys d) -> NoDup (Dict.keys (Dict.set d k v)).
Proof.
  intros Hnd. rewrite keys_set. unfold Dict.mem.
  destruct (Dict.get d k) eqn:E; [assumption|].
  apply get_None_keys in E.
  apply NoDup_app; [assumption|repeat constructor; tauto|].
  intros x Hx [<-|[]]. contradiction.
Qed.

Lemma set_new d k v : Dict.get d k = None -> Dict.set d k v = (d ++ [(k, v)])%list.
Proof.
  induction d as [|[k0 v0] d IH]; simpl; [reflexivity|].
  destruct (String.eqb_spec k k0); [discriminate|].
  intros H. now rewrite IH.
Qed.

End Facts.
End DictFacts.

(** ** The validator *)

Module ValidatorFacts.

Lemma insert_slot_perm s l : Permutation (s :: l) (insert_slot s l).
Proof.
  induction l as [|x l IH]; simpl; [reflexivity|].
  destruct (timestamp s <=? timestamp x); [reflexivity|].
  rewrite perm_swap. now constructor.
Qed.

Lemma insert_slot_hd s l x :
  HdRel ts_le x l -> ts_le x s -> HdRel ts_le x (insert_slot s l).
Proof.
  intros Hl Hs. destruct l as [|y l]; simpl; [now constructor|].
  destruct (timestamp s <=? timestamp y); constructor; [assumption|].
  now inversion Hl.
Qed.

Lemma insert_slot_sorted s l : Sorted ts_le l -> Sorted ts_le (insert_slot s l).
Proof.
  induction 1 as [|x l Hs IH Hhd]; simpl; [repeat constructor|].
  destruct (Z.leb_spec (timestamp s) (timestamp x)) as [Hle|Hgt].
  - constructor; [now constructor|]. now constructor.
  - constructor; [assumption|]. apply insert_slot_hd; [assumption|]. unfold ts_le. lia.
Qed.

(** What the validator returns is a rearrangement of the slots it is given,
    in timestamp order. *)
Lemma _ensure_sorted_perm v : Permutation v (_ensure_sorted v).
Proof.
  induction v as [|s v IH]; simpl; [constructor|].
  rewrite <- insert_slot_perm. now constructor.
Qed.

Lemma _ensure_sorted_sorted v : sorted_schedule (_ensure_sorted v).
Proof.
  induction v as [|s v IH]; simpl; [constructor|]. now apply insert_slot_sorted.
Qed.

(** A schedule already in timestamp order, repeated timestamps included,
    is returned as it is. *)
Lemma _ensure_sorted_fixed v : sorted_schedule v -> _ensure_sorted v = v.
Proof.
  induction 1 as [|s v Hs IH Hhd]; simpl; [reflexivity|].
  fold (_ensure_sorted v). rewrite IH.
  destruct Hhd as [|x l Hle]; simpl; [reflexivity|].
  unfold ts_le in Hle. now destruct (Z.leb_spec (timestamp s) (timestamp x)); [|lia].
Qed.

End ValidatorFacts.

(** ** The empty schedule *)

Definition empty_payload : OptimizationSchedule := {| schedule := [] |}.

(** C7. For the empty schedule nothing raises and every aggregate is empty
    or zero: the aggregator returns empty [power_by_ts] and [energy_by_load],
    [total_kwh = 0.0], [peak_kw = 0.0] and no peak timestamp; the window
    builder returns the empty mapping (a value, not an exception). The slot
    duration falls back to 0.25 h and the 24 hourly buckets are all zero. *)
Theorem empty_schedule_degrades :
  compute_from_schedule empty_payload
  = {| power_by_ts := []; energy_by_load := []; total_kwh := B64.zero;
       peak_kw := B64.zero; peak_ts := [] |}
  /\ load_windows_15m empty_payload = Some []
  /\ _guess_slot_hours empty_payload = B64.quarter
  /\ per_hour_Wh (power_by_ts (compute_from_schedule empty_payload))
     = Some (repeat B64.zero 24).
Proof.
  repeat split.
Qed.

(** ** Rendering of the windows *)

Definition digit_value (c : ascii) : Z := Z.of_nat (nat_of_ascii c) - 48.

Lemma digit_is_digit n : is_digit (Datetime.digit n) = true.
Proof.
  unfold Datetime.digit.
  assert (H : (Z.to_nat (n mod 10) < 10)%nat)
    by (pose proof (Z.mod_pos_bound n 10); lia).
  destruct (Z.to_nat (n mod 10)) as [|k]; [reflexivity|].
  do 9 (destruct k as [|k]; [reflexivity|]). lia.
Qed.

Lemma digit_value_digit n : digit_value (Datetime.digit n) = n mod 10.
Proof.
  unfold Datetime.digit, digit_value.
  pose proof (Z.mod_pos_bound n 10 ltac:(lia)) as Hb.
  rewrite nat_ascii_embedding by lia. lia.
Qed.

(** A field rendered by [d2] is exactly two decimal digits, the tens then
    the units, so a value below ten is padded with a zero. *)
Lemma d2_two_digits n :
  0 <= n < 100 ->
  exists c1 c0,
    Datetime.d2 n = String c1 (String c0 EmptyString)
    /\ is_digit c1 = true /\ is_digit c0 = true
    /\ n = 10 * digit_value c1 + digit_value c0.
Proof.
  intros Hn. exists (Datetime.digit (n / 10)), (Datetime.digit n).
  repeat split; try apply digit_is_digit.
  rewrite !digit_value_digit.
  rewrite (Z.mod_small (n / 10)) by (split; [apply Z.div_pos|apply Z.div_lt_upper_bound]; lia).
  pose proof (Z.div_mod n 10). lia.
Qed.

Lemma hour_range t : 0 <= Datetime.hour t < 24.
Proof. apply Z.mod_pos_bound. lia. Qed.

Lemma minute_range t : 0 <= Datetime.minute t < 60.
Proof. apply Z.mod_pos_bound. lia. Qed.

Lemma string_app_assoc (s1 s2 s3 : string) : (s1 ++ s2) ++ s3 = s1 ++ (s2 ++ s3).
Proof. induction s1 as [|c s1 IH]; simpl; [reflexivity|now rewrite IH]. Qed.

Definition render (w : window) : string := fmt_range_pt (fst w) (snd w).

Lemma join_three_or_more (l : list string) (r : string) :
  (2 <= List.length l)%nat ->
  match (l ++ [r])%list with
  | [] => ""
  | [x] => x
  | [x; y] => String.concat " e " (l ++ [r])%list
  | _ => String.concat ", " (removelast (l ++ [r])%list) ++ " e " ++ last (l ++ [r])%list ""
  end
  = String.concat ", " l ++ " e " ++ r.
Proof.
  intros Hl.
  assert (E : match (l ++ [r])%list with
              | [] => ""
              | [x] => x
              | [x; y] => String.concat " e " (l ++ [r])%list
              | _ => String.concat ", " (removelast (l ++ [r])%list)
                       ++ " e " ++ last (l ++ [r])%list ""
              end
              = String.concat ", " (removelast (l ++ [r])%list)
                  ++ " e " ++ last (l ++ [r])%list "").
  { destruct l as [|a [|b [|c l]]]; simpl in Hl; try lia; reflexivity. }
  rewrite E. now rewrite removelast_last, last_last.
Qed.

(** The hour and the minute are those of the time of day: an instant is a
    whole number of days, then [hour] hours, [minute] minutes, and less
    than a minute. *)
Lemma time_of_day t :
  exists day rest,
    t = day * Datetime.US_PER_DAY + Datetime.hour t * Datetime.US_PER_HOUR
        + Datetime.minute t * Datetime.US_PER_MINUTE + rest
    /\ 0 <= rest < Datetime.US_PER_MINUTE.
Proof.
  exists (t / Datetime.US_PER_DAY), (t mod Datetime.US_PER_MINUTE).
  unfold Datetime.hour, Datetime.minute, Datetime.US_PER_DAY, Datetime.US_PER_HOUR,
    Datetime.US_PER_MINUTE.
  Z.div_mod_to_equations. lia.
Qed.

(** The hour and the minute of a calendar instant are the ones it was made
    of, whatever the day. *)
Lemma hour_minute_make y mo d hh mm ss :
  0 <= hh < 24 -> 0 <= mm < 60 -> 0 <= ss < 60 ->
  Datetime.hour (Datetime.make y mo d hh mm ss) = hh
  /\ Datetime.minute (Datetime.make y mo d hh mm ss) = mm.
Proof.
  intros Hh Hm Hs. unfold Datetime.make.
  generalize (Datetime.ymd2ord y mo d - 1). intros D.
  unfold Datetime.hour, Datetime.minute, Datetime.US_PER_DAY, Datetime.US_PER_HOUR,
    Datetime.US_PER_MINUTE, Datetime.US_PER_SECOND.
  Z.div_mod_to_equations. lia.
Qed.


(** ** The order of binary64 values *)

Module B64Facts.

(** A key whose lexicographic order is the order [SFcompare] decides on the
    values that are not NaN. *)
Definition rank (x : float) : Z * Z * Z :=
  match x with
  | S754_nan | S754_zero _ => (0, 0, 0)
  | S754_infinity true => (-2, 0, 0)
  | S754_infinity false => (2, 0, 0)
  | S754_finite true m e => (-1, - e, - Zpos m)
  | S754_finite false m e => (1, e, Zpos m)
  end.

Definition lex_lt (a b : Z * Z * Z) : Prop :=
  let '(a1, a2, a3) := a in
  let '(b1, b2, b3) := b in
  a1 < b1 \/ (a1 = b1 /\ (a2 < b2 \/ (a2 = b2 /\ a3 < b3))).

Definition lex_le (a b : Z * Z * Z) : Prop :=
  let '(a1, a2, a3) := a in
  let '(b1, b2, b3) := b in
  a1 < b1 \/ (a1 = b1 /\ (a2 < b2 \/ (a2 = b2 /\ a3 <= b3))).

Ltac cases_compare :=
  repeat match goal with
         | |- context [Z.compare ?a ?b] => destruct (Z.compare_spec a b)
         | |- context [Pos.compare_cont Eq ?a ?b] =>
             change (Pos.compare_cont Eq a b) with (Pos.compare a b);
             destruct (Pos.compare_spec a b)
         end.

Lemma ltb_rank (x y : float) :
  B64.is_nan x = false -> B64.is_nan y = false ->
  (B64.ltb x y = true <-> lex_lt (rank x) (rank y)).
Proof.
  unfold B64.ltb, SFltb.
  destruct x as [sx|sx| |sx mx ex], y as [sy|sy| |sy my ey]; simpl;
    try discriminate; intros _ _;
    try destruct sx; try destruct sy; simpl; cases_compare; simpl;
    split; intros Hgoal; try discriminate; try reflexivity; try lia.
Qed.

Lemma leb_rank (x y : float) :
  B64.is_nan x = false -> B64.is_nan y = false ->
  (B64.leb x y = true <-> lex_le (rank x) (rank y)).
Proof.
  unfold B64.leb, SFleb.
  destruct x as [sx|sx| |sx mx ex], y as [sy|sy| |sy my ey]; simpl;
    try discriminate; intros _ _;
    try destruct sx; try destruct sy; simpl; cases_compare; simpl;
    split; intros Hgoal; try discriminate; try reflexivity; try lia.
Qed.

Lemma leb_refl (x : float) : B64.is_nan x = false -> B64.leb x x = true.
Proof.
  intros Hx. apply leb_rank; trivial.
  destruct (rank x) as [[a b] c]. simpl. lia.
Qed.

Lemma leb_trans (x y z : float) :
  B64.is_nan x = false -> B64.is_nan y = false -> B64.is_nan z = false ->
  B64.leb x y = true -> B64.leb y z = true -> B64.leb x z = true.
Proof.
  intros Hx Hy Hz Hxy Hyz.
  apply leb_rank in Hxy; trivial. apply leb_rank in Hyz; trivial.
  apply leb_rank; trivial.
  destruct (rank x) as [[a1 a2] a3], (rank y) as [[b1 b2] b3], (rank z) as [[c1 c2] c3].
  simpl in *. lia.
Qed.

Lemma ltb_leb (x y : float) :
  B64.is_nan x = false -> B64.is_nan y = false ->
  B64.ltb x y = true -> B64.leb x y = true.
Proof.
  intros Hx Hy H. apply ltb_rank in H; trivial. apply leb_rank; trivial.
  destruct (rank x) as [[a1 a2] a3], (rank y) as [[b1 b2] b3]. simpl in *. lia.
Qed.

Lemma not_ltb_leb (x y : float) :
  B64.is_nan x = false -> B64.is_nan y = false ->
  B64.ltb x y = false -> B64.leb y x = true.
Proof.
  intros Hx Hy H. apply leb_rank; trivial.
  assert (H' : ~ lex_lt (rank x) (rank y)).
  { intros C. apply ltb_rank in C; trivial. congruence. }
  destruct (rank x) as [[a1 a2] a3], (rank y) as [[b1 b2] b3]. simpl in *. lia.
Qed.

End B64Facts.

(** ** Rounding to binary64

    What [SpecFloat]'s rounding does to a mantissa and an exponent, read on
    the integers: the number of binary digits, the right shift that brings
    a mantissa to 53 digits, and the sign and class of the result. *)

Module Rounding.

Lemma digits_bounds (p : positive) :
  2 ^ (Zpos (digits2_pos p) - 1) <= Zpos p < 2 ^ Zpos (digits2_pos p).
Proof.
  induction p as [p IH|p IH|]; simpl digits2_pos.
  - rewrite Pos2Z.inj_succ. change (Zpos p~1) with (2 * Zpos p + 1).
    replace (Z.succ (Zpos (digits2_pos p)) - 1) with (Z.succ (Zpos (digits2_pos p) - 1)) by lia.
    rewrite !Z.pow_succ_r by lia. lia.
  - rewrite Pos2Z.inj_succ. change (Zpos p~0) with (2 * Zpos p).
    replace (Z.succ (Zpos (digits2_pos p)) - 1) with (Z.succ (Zpos (digits2_pos p) - 1)) by lia.
    rewrite !Z.pow_succ_r by lia. lia.
  - simpl. lia.
Qed.

Lemma Zdigits2_bounds (m : Z) :
  0 < m -> 0 < Zdigits2 m /\ 2 ^ (Zdigits2 m - 1) <= m < 2 ^ Zdigits2 m.
Proof.
  destruct m as [|p|p]; try lia. intros _. simpl. split; [lia|apply digits_bounds].
Qed.

Lemma Zdigits2_nonneg (m : Z) : 0 <= Zdigits2 m.
Proof. destruct m; simpl; lia. Qed.

(** A number below [2^k] has at most [k] digits; one of at least [2^k]
    has more than [k]. *)
Lemma Zdigits2_le (m k : Z) : 0 < m -> 0 <= k -> m < 2 ^ k -> Zdigits2 m <= k.
Proof.
  intros Hm Hk Hlt. destruct (Zdigits2_bounds m Hm) as [Hd [Hlo _]].
  destruct (Z_le_gt_dec (Zdigits2 m) k) as [|Hgt]; [assumption|exfalso].
  assert (2 ^ k <= 2 ^ (Zdigits2 m - 1)) by (apply Z.pow_le_mono_r; lia). lia.
Qed.

Lemma Zdigits2_gt (m k : Z) : 0 <= k -> 2 ^ k <= m -> k < Zdigits2 m.
Proof.
  intros Hk Hle.
  assert (Hm : 0 < m) by (pose proof (Z.pow_pos_nonneg 2 k); lia).
  destruct (Zdigits2_bounds m Hm) as [Hd [_ Hhi]].
  destruct (Z_lt_le_dec k (Zdigits2 m)) as [|Hge]; [assumption|exfalso].
  assert (2 ^ Zdigits2 m <= 2 ^ k) by (apply Z.pow_le_mono_r; lia). lia.
Qed.

Lemma shr_1_m (mrs : shr_record) :
  0 <= shr_m mrs -> shr_m (shr_1 mrs) = shr_m mrs / 2.
Proof.
  destruct mrs as [m r s]. simpl. intros Hm.
  destruct m as [|[p|p|]|p]; simpl; try lia.
  - reflexivity.
  - apply (Z.div_unique (Zpos p~1) 2 (Zpos p) 1); lia.
  - apply (Z.div_unique (Zpos p~0) 2 (Zpos p) 0); lia.
  - reflexivity.
Qed.

Lemma iter_shr_1_m (p : positive) (mrs : shr_record) :
  0 <= shr_m mrs ->
  shr_m (iter_pos shr_1 p mrs) = shr_m mrs / 2 ^ Zpos p.
Proof.
  revert mrs. induction p as [p IH|p IH|]; intros mrs Hm; simpl iter_pos.
  - assert (Hp : 0 < 2 ^ Zpos p) by (apply Z.pow_pos_nonneg; lia).
    assert (H1 : 0 <= shr_m (shr_1 mrs)) by (rewrite shr_1_m by lia; apply Z.div_pos; lia).
    assert (H2 : 0 <= shr_m (iter_pos shr_1 p (shr_1 mrs)))
      by (rewrite IH by lia; apply Z.div_pos; lia).
    rewrite IH, IH, shr_1_m by lia.
    rewrite !Z.div_div by lia.
    f_equal. change (Zpos p~1) with (2 * Zpos p + 1).
    replace (2 * Zpos p + 1) with (1 + Zpos p + Zpos p) by lia.
    rewrite !Z.pow_add_r by lia. lia.
  - assert (Hp : 0 < 2 ^ Zpos p) by (apply Z.pow_pos_nonneg; lia).
    assert (H2 : 0 <= shr_m (iter_pos shr_1 p mrs))
      by (rewrite IH by lia; apply Z.div_pos; lia).
    rewrite IH, IH by lia.
    rewrite !Z.div_div by lia.
    f_equal. change (Zpos p~0) with (2 * Zpos p).
    replace (2 * Zpos p) with (Zpos p + Zpos p) by lia.
    rewrite !Z.pow_add_r by lia. lia.
  - rewrite shr_1_m by lia. reflexivity.
Qed.

Lemma Zdigits2_unique (m k : Z) : 0 < k -> 2 ^ (k - 1) <= m < 2 ^ k -> Zdigits2 m = k.
Proof.
  intros Hk [Hlo Hhi].
  assert (Hm : 0 < m) by (pose proof (Z.pow_pos_nonneg 2 (k - 1)); lia).
  pose proof (Zdigits2_le m k Hm ltac:(lia) Hhi).
  pose proof (Zdigits2_gt m (k - 1) ltac:(lia) Hlo). lia.
Qed.

Lemma Zdigits2_mono (a b : Z) : 0 < a -> a <= b -> Zdigits2 a <= Zdigits2 b.
Proof.
  intros Ha Hab.
  destruct (Zdigits2_bounds a Ha) as [Hda [Hlo _]].
  pose proof (Zdigits2_gt b (Zdigits2 a - 1) ltac:(lia) ltac:(lia)). lia.
Qed.

Lemma Zdigits2_div_pow2 (m n : Z) :
  0 < m -> 0 <= n < Zdigits2 m -> Zdigits2 (m / 2 ^ n) = Zdigits2 m - n.
Proof.
  intros Hm Hn. destruct (Zdigits2_bounds m Hm) as [Hd [Hlo Hhi]].
  assert (Hp : 0 < 2 ^ n) by (apply Z.pow_pos_nonneg; lia).
  apply Zdigits2_unique; [lia|]. split.
  - apply Z.div_le_lower_bound; [lia|].
    rewrite <- Z.pow_add_r by lia.
    now replace (n + (Zdigits2 m - n - 1)) with (Zdigits2 m - 1) by lia.
  - apply Z.div_lt_upper_bound; [lia|].
    rewrite <- Z.pow_add_r by lia.
    now replace (n + (Zdigits2 m - n)) with (Zdigits2 m) by lia.
Qed.

Lemma Zdigits2_mul_pow2 (m n : Z) :
  0 < m -> 0 <= n -> Zdigits2 (m * 2 ^ n) = Zdigits2 m + n.
Proof.
  intros Hm Hn. destruct (Zdigits2_bounds m Hm) as [Hd [Hlo Hhi]].
  assert (Hp : 0 < 2 ^ n) by (apply Z.pow_pos_nonneg; lia).
  apply Zdigits2_unique; [lia|].
  replace (Zdigits2 m + n - 1) with (Zdigits2 m - 1 + n) by lia.
  rewrite !Z.pow_add_r by lia. nia.
Qed.

Lemma fexp64 (x : Z) : fexp B64.prec B64.emax x = Z.max (x - 53) (-1074).
Proof. reflexivity. Qed.

Lemma shr_record_of_loc_m (m : Z) (l : location) : shr_m (shr_record_of_loc m l) = m.
Proof. destruct l as [|[]]; reflexivity. Qed.

(** [shr_fexp] divides the mantissa by the power of two that brings it to
    the exponent [fexp] asks for, when that exponent is higher. *)
Lemma shr_fexp_spec (m e : Z) (l : location) :
  0 <= m ->
  let n := Z.max (Zdigits2 m + e - 53) (-1074) - e in
  shr_fexp B64.prec B64.emax m e l
  = (fst (shr_fexp B64.prec B64.emax m e l), if 0 <? n then e + n else e)
  /\ shr_m (fst (shr_fexp B64.prec B64.emax m e l)) = if 0 <? n then m / 2 ^ n else m.
Proof.
  intros Hm n. unfold shr_fexp. rewrite fexp64. fold n. unfold shr.
  destruct n as [|p|p]; simpl; rewrite ?shr_record_of_loc_m; auto.
  rewrite iter_shr_1_m by (rewrite shr_record_of_loc_m; lia).
  now rewrite shr_record_of_loc_m.
Qed.

Lemma round_nearest_even_bounds (m : Z) (l : location) :
  m <= round_nearest_even m l <= m + 1.
Proof. destruct l as [|[]]; simpl; try destruct (Z.even m); lia. Qed.

(** A mantissa and exponent whose value is at least the least positive
    subnormal number. *)
Definition above_min (m e : Z) : Prop := 0 < m /\ -1074 < Zdigits2 m + e.

Lemma shr_fexp_above (m e : Z) (l : location) :
  above_min m e ->
  above_min (shr_m (fst (shr_fexp B64.prec B64.emax m e l)))
            (snd (shr_fexp B64.prec B64.emax m e l))
  /\ -1074 <= snd (shr_fexp B64.prec B64.emax m e l).
Proof.
  intros [Hm Hd].
  destruct (shr_fexp_spec m e l ltac:(lia)) as [He Hs].
  rewrite He at 2 3. simpl snd. rewrite Hs.
  set (n := Z.max (Zdigits2 m + e - 53) (-1074) - e) in *.
  destruct (Zdigits2_bounds m Hm) as [Hd0 [Hlo Hhi]].
  destruct (Z.ltb_spec 0 n) as [Hn|Hn].
  - assert (Hnd : n < Zdigits2 m) by lia.
    assert (Hp : 0 < 2 ^ n) by (apply Z.pow_pos_nonneg; lia).
    unfold above_min. rewrite Zdigits2_div_pow2 by lia. repeat split; try lia.
    apply Z.div_str_pos. split; [lia|].
    assert (2 ^ n <= 2 ^ (Zdigits2 m - 1)) by (apply Z.pow_le_mono_r; lia). lia.
  - unfold above_min. repeat split; lia.
Qed.

(** The values with sign [s] that are not NaN, and those that are not zero
    either. *)
Definition signed (s : bool) (x : float) : Prop :=
  x = S754_zero s \/ x = S754_infinity s \/ exists m e, x = S754_finite s m e.

Definition signed_nonzero (s : bool) (x : float) : Prop :=
  x = S754_infinity s \/ exists m e, x = S754_finite s m e.

Lemma shr_fexp_nonneg (m e : Z) (l : location) :
  0 <= m -> 0 <= shr_m (fst (shr_fexp B64.prec B64.emax m e l)).
Proof.
  intros Hm. destruct (shr_fexp_spec m e l Hm) as [_ Hs]. rewrite Hs.
  destruct (Z.ltb_spec 0 (Z.max (Zdigits2 m + e - 53) (-1074) - e)); [|assumption].
  apply Z.div_pos; [assumption|]. apply Z.pow_pos_nonneg; lia.
Qed.

(** Rounding a non-negative mantissa gives a value of the sign asked for,
    never NaN. *)
Lemma binary_round_aux_signed (s : bool) (m e : Z) (l : location) :
  0 <= m -> signed s (binary_round_aux B64.prec B64.emax s m e l).
Proof.
  intros Hm. unfold binary_round_aux.
  pose proof (shr_fexp_nonneg m e l Hm) as H1.
  destruct (shr_fexp B64.prec B64.emax m e l) as [mrs1 e1]. simpl in H1.
  pose proof (round_nearest_even_bounds (shr_m mrs1) (loc_of_shr_record mrs1)) as Hr.
  pose proof (shr_fexp_nonneg (round_nearest_even (shr_m mrs1) (loc_of_shr_record mrs1))
                e1 loc_Exact ltac:(lia)) as H2.
  destruct (shr_fexp B64.prec B64.emax _ e1 loc_Exact) as [mrs2 e2]. simpl in H2.
  unfold signed. destruct (shr_m mrs2) as [|p|p] eqn:E2; [auto| |lia].
  destruct (e2 <=? B64.emax - B64.prec); eauto.
Qed.

(** Rounding a value that is at least the least positive subnormal number
    does not give zero. *)
Lemma binary_round_aux_nonzero (s : bool) (m e : Z) (l : location) :
  above_min m e -> signed_nonzero s (binary_round_aux B64.prec B64.emax s m e l).
Proof.
  intros Ha. unfold binary_round_aux.
  destruct (shr_fexp_above m e l Ha) as [[H1 H1d] H1e].
  destruct (shr_fexp B64.prec B64.emax m e l) as [mrs1 e1]. simpl in H1, H1d, H1e.
  pose proof (round_nearest_even_bounds (shr_m mrs1) (loc_of_shr_record mrs1)) as Hr.
  set (m2 := round_nearest_even (shr_m mrs1) (loc_of_shr_record mrs1)) in *.
  assert (Ha2 : above_min m2 e1).
  { split; [lia|]. pose proof (Zdigits2_mono (shr_m mrs1) m2 H1 ltac:(lia)). lia. }
  destruct (shr_fexp_above m2 e1 loc_Exact Ha2) as [[H2 _] _].
  destruct (shr_fexp B64.prec B64.emax m2 e1 loc_Exact) as [mrs2 e2]. simpl in H2.
  unfold signed_nonzero. destruct (shr_m mrs2) as [|p|p] eqn:E2; try lia.
  destruct (e2 <=? B64.emax - B64.prec); eauto.
Qed.

(** The quotient the division core hands to the rounding: it is not
    negative, and when the quotient of the two values is at least the least
    positive subnormal number it has enough digits not to vanish. *)
Lemma div_core_nonneg (m1 e1 m2 e2 : Z) :
  0 <= m1 -> 0 < m2 ->
  0 <= fst (fst (SFdiv_core_binary B64.prec B64.emax m1 e1 m2 e2)).
Proof.
  intros H1 H2. unfold SFdiv_core_binary.
  set (e' := Z.min _ _). set (s := e1 - e2 - e').
  set (m' := match s with Zpos _ => Z.shiftl m1 s | Z0 => m1 | Zneg _ => 0 end).
  assert (Hm' : 0 <= m').
  { unfold m'. clearbody s. clear m'. destruct s; try lia.
    rewrite Z.shiftl_mul_pow2 by lia.
    apply Z.mul_nonneg_nonneg; [lia|]. apply Z.pow_nonneg. lia. }
  pose proof (Z.div_pos m' m2 Hm' H2) as Hq. unfold Z.div in Hq.
  destruct (Z.div_eucl m' m2) as [q r]. exact Hq.
Qed.

Lemma div_core_above (m1 e1 m2 e2 : Z) :
  0 < m1 -> 0 < m2 ->
  -1074 < Zdigits2 m1 + e1 - (Zdigits2 m2 + e2) ->
  above_min (fst (fst (SFdiv_core_binary B64.prec B64.emax m1 e1 m2 e2)))
            (snd (fst (SFdiv_core_binary B64.prec B64.emax m1 e1 m2 e2))).
Proof.
  intros H1 H2 HX. unfold SFdiv_core_binary. rewrite fexp64.
  set (X := Zdigits2 m1 + e1 - (Zdigits2 m2 + e2)) in *.
  set (e' := Z.min (Z.max (X - 53) (-1074)) (e1 - e2)).
  set (s := e1 - e2 - e').
  set (m' := match s with Zpos _ => Z.shiftl m1 s | Z0 => m1 | Zneg _ => 0 end).
  assert (Hs : 0 <= s) by (unfold s, e'; lia).
  assert (Em' : m' = m1 * 2 ^ s).
  { unfold m'. clearbody s. clear m'. destruct s; try lia.
    now rewrite Z.shiftl_mul_pow2 by lia. }
  destruct (Zdigits2_bounds m1 H1) as [Hd1 [Hlo1 _]].
  destruct (Zdigits2_bounds m2 H2) as [Hd2 [_ Hhi2]].
  set (k := Zdigits2 m1 - 1 + s - Zdigits2 m2).
  assert (Hk : 0 <= k) by (unfold k, s, e'; lia).
  assert (Hq : 2 ^ k <= m' / m2).
  { apply Z.div_le_lower_bound; [lia|].
    assert (Hpk : 0 < 2 ^ k) by (apply Z.pow_pos_nonneg; lia).
    assert (Hps : 0 < 2 ^ s) by (apply Z.pow_pos_nonneg; lia).
    assert (E : 2 ^ (Zdigits2 m1 - 1) * 2 ^ s = 2 ^ k * 2 ^ Zdigits2 m2).
    { rewrite <- !Z.pow_add_r by lia. f_equal. unfold k. lia. }
    rewrite Em'. nia. }
  pose proof (Zdigits2_gt (m' / m2) k Hk Hq) as Hdq.
  assert (Hpk : 0 < 2 ^ k) by (apply Z.pow_pos_nonneg; lia).
  unfold Z.div in Hq, Hdq. destruct (Z.div_eucl m' m2) as [q r]. simpl.
  split; [lia|]. unfold k, s in Hdq. lia.
Qed.

Lemma of_quot_signed (s : bool) (n d : Z) :
  0 <= n -> 0 < d -> signed s (B64.of_quot s n d).
Proof.
  intros Hn Hd. unfold B64.of_quot. destruct n as [|p|p]; [left; reflexivity| |lia].
  pose proof (div_core_nonneg (Zpos p) 0 d 0 ltac:(lia) Hd) as Hq.
  destruct (SFdiv_core_binary B64.prec B64.emax (Zpos p) 0 d 0) as [[mz ez] lz].
  now apply binary_round_aux_signed.
Qed.

Lemma of_quot_nonzero (s : bool) (n d : Z) :
  0 < n -> 0 < d -> Zdigits2 d < 1074 -> signed_nonzero s (B64.of_quot s n d).
Proof.
  intros Hn Hd Hdd. unfold B64.of_quot. destruct n as [|p|p]; try lia.
  destruct (Zdigits2_bounds (Zpos p) ltac:(lia)) as [Hdp _].
  pose proof (div_core_above (Zpos p) 0 d 0 ltac:(lia) Hd ltac:(lia)) as Hq.
  destruct (SFdiv_core_binary B64.prec B64.emax (Zpos p) 0 d 0) as [[mz ez] lz].
  now apply binary_round_aux_nonzero.
Qed.

Lemma signed_not_nan (s : bool) (x : float) : signed s x -> B64.is_nan x = false.
Proof. intros [->|[->|(m & e & ->)]]; reflexivity. Qed.

Lemma signed_nonzero_signed (s : bool) (x : float) : signed_nonzero s x -> signed s x.
Proof. unfold signed. intros [->|H]; auto. Qed.

Lemma positive_ltb (x : float) : signed_nonzero false x -> B64.ltb B64.zero x = true.
Proof. intros [->|(m & e & ->)]; reflexivity. Qed.

Lemma negative_ltb (x : float) : signed true x -> B64.ltb B64.zero x = false.
Proof. intros [->|[->|(m & e & ->)]]; reflexivity. Qed.

(** A quotient by a finite non-zero value is NaN only when the dividend
    is. *)
Lemma div_finite_not_nan (x : float) (s : bool) (m : positive) (e : Z) :
  B64.is_nan x = false -> B64.is_nan (B64.div x (S754_finite s m e)) = false.
Proof.
  destruct x as [sx|sx| |sx mx ex]; try reflexivity; [discriminate|]. intros _.
  unfold B64.div, SFdiv.
  pose proof (div_core_nonneg (Zpos mx) ex (Zpos m) e ltac:(lia) ltac:(lia)) as Hq.
  destruct (SFdiv_core_binary B64.prec B64.emax (Zpos mx) ex (Zpos m) e) as [[mz ez] lz].
  eapply signed_not_nan. now apply binary_round_aux_signed.
Qed.

End Rounding.

(** ** The normal range

    Values with a full 53-digit mantissa, and what division,
    multiplication and [timedelta(hours=...)] make of them. *)

Module Normal.

Import Rounding.

(** A mantissa of exactly 53 binary digits. *)
Definition full (m : Z) : Prop := 2 ^ 52 <= m < 2 ^ 53.

Lemma full_digits (m : Z) : full m -> Zdigits2 m = 53.
Proof. intros H. apply Zdigits2_unique; [lia|exact H]. Qed.

Lemma digits_full (m : Z) : 0 < m -> Zdigits2 m = 53 -> full m.
Proof. intros Hm H. destruct (Zdigits2_bounds m Hm) as [_ Hb]. rewrite H in Hb. exact Hb. Qed.

(** In the normal range rounding yields a finite value with a full
    mantissa, at the exponent that leaves 53 digits or at the next one. *)
Lemma binary_round_aux_normal (s : bool) (M E : Z) (l : location) :
  2 ^ 52 <= M ->
  -1074 <= E + Zdigits2 M - 53 ->
  E + Zdigits2 M - 52 <= 971 ->
  exists m e,
    binary_round_aux B64.prec B64.emax s M E l = S754_finite s m e
    /\ full (Zpos m)
    /\ (e = E + Zdigits2 M - 53 \/ e = E + Zdigits2 M - 52).
Proof.
  intros HM Hlo Hhi.
  assert (HM0 : 0 < M) by lia.
  pose proof (Zdigits2_gt M 52 ltac:(lia) HM) as HD.
  unfold binary_round_aux.
  destruct (shr_fexp_spec M E l ltac:(lia)) as [He1 Hm1].
  set (n := Z.max (Zdigits2 M + E - 53) (-1074) - E) in *.
  assert (En : n = Zdigits2 M - 53) by (unfold n; lia).
  destruct (shr_fexp B64.prec B64.emax M E l) as [mrs1 e1].
  injection He1 as He1. simpl in Hm1.
  assert (Ee1 : e1 = E + Zdigits2 M - 53).
  { rewrite He1. destruct (Z.ltb_spec 0 n); lia. }
  assert (Hf1 : full (shr_m mrs1)).
  { rewrite Hm1. destruct (Z.ltb_spec 0 n) as [Hn|Hn].
    - apply digits_full.
      + apply Z.div_str_pos. split; [apply Z.pow_pos_nonneg; lia|].
        destruct (Zdigits2_bounds M HM0) as [_ [Hlo' _]].
        assert (2 ^ n <= 2 ^ (Zdigits2 M - 1)) by (apply Z.pow_le_mono_r; lia). lia.
      + rewrite Zdigits2_div_pow2 by lia. lia.
    - apply digits_full; [lia|]. lia. }
  pose proof (round_nearest_even_bounds (shr_m mrs1) (loc_of_shr_record mrs1)) as Hr.
  set (m2 := round_nearest_even (shr_m mrs1) (loc_of_shr_record mrs1)) in *.
  unfold full in Hf1.
  destruct (shr_fexp_spec m2 e1 loc_Exact ltac:(lia)) as [He2 Hm2].
  destruct (shr_fexp B64.prec B64.emax m2 e1 loc_Exact) as [mrs2 e2].
  injection He2 as He2. simpl in Hm2.
  destruct (Z_lt_le_dec m2 (2 ^ 53)) as [Hlt|Hge].
  - assert (Hd2 : Zdigits2 m2 = 53) by (apply full_digits; unfold full; lia).
    rewrite Hd2 in He2, Hm2.
    replace (0 <? Z.max (53 + e1 - 53) (-1074) - e1) with false in He2, Hm2
      by (symmetry; apply Z.ltb_ge; lia).
    rewrite Hm2. destruct m2 as [|p|p]; try lia.
    replace (e2 <=? B64.emax - B64.prec) with true
      by (symmetry; apply Z.leb_le; unfold B64.emax, B64.prec; lia).
    exists p, e2. repeat split; try lia.
  - assert (Em2 : m2 = 2 ^ 53) by lia.
    assert (Hd2 : Zdigits2 m2 = 54) by (rewrite Em2; reflexivity).
    rewrite Hd2 in He2, Hm2.
    replace (0 <? Z.max (54 + e1 - 53) (-1074) - e1) with true in He2, Hm2
      by (symmetry; apply Z.ltb_lt; lia).
    replace (Z.max (54 + e1 - 53) (-1074) - e1) with 1 in He2, Hm2 by lia.
    rewrite Hm2, Em2. change (2 ^ 53 / 2 ^ 1) with (Zpos (2 ^ 52)).
    replace (e2 <=? B64.emax - B64.prec) with true
      by (symmetry; apply Z.leb_le; unfold B64.emax, B64.prec; lia).
    exists (2 ^ 52)%positive, e2. repeat split; try lia; reflexivity.
Qed.

(** The division core on two values whose quotient is in the normal range:
    the quotient it hands to the rounding has 53 or 54 digits. *)
Lemma div_core_normal (m1 e1 m2 e2 : Z) :
  0 < m1 -> 0 < m2 ->
  let X := Zdigits2 m1 + e1 - (Zdigits2 m2 + e2) in
  -1074 <= X - 53 -> X - 53 <= e1 - e2 ->
  exists q l,
    SFdiv_core_binary B64.prec B64.emax m1 e1 m2 e2 = (q, X - 53, l)
    /\ 2 ^ 52 <= q < 2 ^ 54.
Proof.
  intros H1 H2 X HXlo HXhi. unfold SFdiv_core_binary. rewrite fexp64. fold X.
  replace (Z.min (Z.max (X - 53) (-1074)) (e1 - e2)) with (X - 53) by lia.
  set (s := e1 - e2 - (X - 53)).
  set (m' := match s with Zpos _ => Z.shiftl m1 s | Z0 => m1 | Zneg _ => 0 end).
  assert (Hs : 0 <= s) by (unfold s; lia).
  assert (Em' : m' = m1 * 2 ^ s).
  { unfold m'. clearbody s. clear m'. destruct s; try lia.
    now rewrite Z.shiftl_mul_pow2 by lia. }
  destruct (Zdigits2_bounds m1 H1) as [Hd1 [Hlo1 Hhi1]].
  destruct (Zdigits2_bounds m2 H2) as [Hd2 [Hlo2 Hhi2]].
  assert (Es : s = 53 - Zdigits2 m1 + Zdigits2 m2) by (unfold s, X; lia).
  assert (Hps : 0 < 2 ^ s) by (apply Z.pow_pos_nonneg; lia).
  assert (Hq : 2 ^ 52 <= m' / m2 < 2 ^ 54).
  { split.
    - apply Z.div_le_lower_bound; [lia|].
      assert (E : 2 ^ (Zdigits2 m1 - 1) * 2 ^ s = 2 ^ Zdigits2 m2 * 2 ^ 52).
      { rewrite <- !Z.pow_add_r by lia. f_equal. lia. }
      rewrite Em'. nia.
    - apply Z.div_lt_upper_bound; [lia|].
      assert (E : 2 ^ Zdigits2 m1 * 2 ^ s = 2 ^ (Zdigits2 m2 - 1) * 2 ^ 54).
      { rewrite <- !Z.pow_add_r by lia. f_equal. lia. }
      rewrite Em'. nia. }
  unfold Z.div in Hq. destruct (Z.div_eucl m' m2) as [q r]. eauto.
Qed.

(** Positive finite values with a full mantissa and an exponent between two
    bounds. *)
Definition normal_pos (lo hi : Z) (x : float) : Prop :=
  exists m e, x = S754_finite false m e /\ full (Zpos m) /\ lo <= e <= hi.

Lemma round_quotient_normal (q E : Z) (l : location) :
  2 ^ 52 <= q < 2 ^ 54 -> -1074 <= E -> E <= 900 ->
  normal_pos E (E + 2) (binary_round_aux B64.prec B64.emax false q E l).
Proof.
  intros Hq Hlo Hhi.
  pose proof (Zdigits2_gt q 52 ltac:(lia) ltac:(lia)).
  pose proof (Zdigits2_le q 54 ltac:(lia) ltac:(lia) ltac:(lia)).
  destruct (binary_round_aux_normal false q E l) as (m & e & -> & Hf & He); try lia.
  exists m, e. repeat split; try apply Hf; lia.
Qed.

Lemma of_quot_normal (n d : Z) :
  0 < n -> 0 < d ->
  let X := Zdigits2 n - Zdigits2 d in
  -1021 <= X <= 53 ->
  normal_pos (X - 53) (X - 51) (B64.of_quot false n d).
Proof.
  intros Hn Hd X HX. unfold B64.of_quot. destruct n as [|p|p]; try lia.
  destruct (div_core_normal (Zpos p) 0 d 0 Hn Hd) as (q & l & -> & Hq); fold X; try lia.
  replace (Zdigits2 (Zpos p) + 0 - (Zdigits2 d + 0) - 53) with (X - 53) by (unfold X; lia).
  replace (X - 51) with (X - 53 + 2) by lia.
  apply round_quotient_normal; lia.
Qed.

Lemma div_normal (lo hi : Z) (x y : float) (ey : Z) :
  normal_pos lo hi x -> normal_pos ey ey y ->
  -1021 <= lo - ey -> hi - ey <= 953 ->
  normal_pos (lo - ey - 53) (hi - ey - 51) (B64.div x y).
Proof.
  intros (mx & ex & -> & Hfx & Hex) (my & ey' & -> & Hfy & Hey) Hlo Hhi.
  assert (ey' = ey) by lia. subst ey'.
  unfold B64.div, SFdiv.
  pose proof (full_digits _ Hfx) as Hdx. pose proof (full_digits _ Hfy) as Hdy.
  destruct (div_core_normal (Zpos mx) ex (Zpos my) ey) as (q & l & -> & Hq);
    rewrite ?Hdx, ?Hdy; try lia.
  replace (53 + ex - (53 + ey) - 53) with (ex - ey - 53) by lia.
  cbv iota beta. simpl xorb.
  destruct (round_quotient_normal q (ex - ey - 53) l Hq) as (m & e & -> & Hf & He); try lia.
  exists m, e. repeat split; try apply Hf; lia.
Qed.

Lemma mul_normal (lo1 hi1 lo2 hi2 : Z) (x y : float) :
  normal_pos lo1 hi1 x -> normal_pos lo2 hi2 y ->
  -1074 <= lo1 + lo2 + 52 -> hi1 + hi2 + 54 <= 971 ->
  normal_pos (lo1 + lo2 + 52) (hi1 + hi2 + 54) (B64.mul x y).
Proof.
  intros (mx & ex & -> & Hfx & Hex) (my & ey & -> & Hfy & Hey) Hlo Hhi.
  unfold B64.mul, SFmul. simpl xorb.
  unfold full in Hfx, Hfy.
  assert (HM : 2 ^ 104 <= Zpos (mx * my) < 2 ^ 106).
  { rewrite Pos2Z.inj_mul.
    change (2 ^ 104) with (2 ^ 52 * 2 ^ 52). change (2 ^ 106) with (2 ^ 53 * 2 ^ 53). nia. }
  pose proof (Zdigits2_gt (Zpos (mx * my)) 104 ltac:(lia) ltac:(lia)).
  pose proof (Zdigits2_le (Zpos (mx * my)) 106 ltac:(lia) ltac:(lia) ltac:(lia)).
  destruct (binary_round_aux_normal false (Zpos (mx * my)) (ex + ey) loc_Exact)
    as (m & e & -> & Hf & He); try lia.
  exists m, e. repeat split; try apply Hf; lia.
Qed.

Lemma normal_pos_weaken (lo hi lo' hi' : Z) (x : float) :
  normal_pos lo hi x -> lo' <= lo -> hi <= hi' -> normal_pos lo' hi' x.
Proof.
  intros (m & e & -> & Hf & He) Hlo Hhi. exists m, e. repeat split; try apply Hf; lia.
Qed.

Lemma iter_xO (m k : positive) : Zpos (Pos.iter xO m k) = Zpos m * 2 ^ Zpos k.
Proof.
  induction k as [|k IH] using Pos.peano_ind.
  - simpl Pos.iter. change (Zpos m~0) with (2 * Zpos m). change (2 ^ 1) with 2. lia.
  - rewrite Pos.iter_succ. change (Zpos (Pos.iter xO m k)~0) with (2 * Zpos (Pos.iter xO m k)).
    rewrite IH, Pos2Z.inj_succ, Z.pow_succ_r by lia. lia.
Qed.

(** Normalizing a positive integer mantissa of at most 53 digits. *)
Lemma binary_round_normal (mx : positive) (ex : Z) :
  let d := Zpos (digits2_pos mx) in
  d <= 53 -> -1074 <= ex - (53 - d) -> ex <= 900 ->
  normal_pos (ex - (53 - d)) (ex - (53 - d) + 1)
    (binary_round B64.prec B64.emax false mx ex).
Proof.
  intros d Hd Hlo Hhi. unfold binary_round. rewrite fexp64. fold d.
  replace (Z.max (d + ex - 53) (-1074)) with (d + ex - 53) by lia.
  unfold shl_align.
  replace (d + ex - 53 - ex) with (d - 53) by lia.
  destruct (digits_bounds mx) as [Hb1 Hb2]. fold d in Hb1, Hb2.
  assert (Hfull : forall M E, Zdigits2 M = 53 -> 0 < M -> E = ex - (53 - d) ->
                    normal_pos (ex - (53 - d)) (ex - (53 - d) + 1)
                      (binary_round_aux B64.prec B64.emax false M E loc_Exact)).
  { intros M E HD HM ->.
    pose proof (digits_full M HM HD) as HfM. unfold full in HfM.
    destruct (binary_round_aux_normal false M (ex - (53 - d)) loc_Exact)
      as (m & e & -> & Hf & He); try lia.
    exists m, e. repeat split; try apply Hf; lia. }
  destruct (d - 53) as [|k|k] eqn:Ek; try lia.
  - apply Hfull; [simpl; fold d; lia|lia|lia].
  - apply Hfull; [|lia|lia].
    rewrite iter_xO.
    rewrite Zdigits2_mul_pow2 by lia. simpl Zdigits2. fold d. lia.
Qed.

(** The integer and fractional parts of a positive normal value below
    [2^53]. *)
Lemma trunc_frac_normal (lo hi : Z) (x : float) :
  normal_pos lo hi x -> hi < 0 ->
  exists m k,
    x = S754_finite false m (Zneg k)
    /\ full (Zpos m) /\ lo <= Zneg k <= hi
    /\ B64.trunc x = Some (Zpos m / 2 ^ Zpos k)
    /\ B64.frac x = (false, Zpos m mod 2 ^ Zpos k, 2 ^ Zpos k).
Proof.
  intros (m & e & -> & Hf & He) Hhi. destruct e as [|k|k]; try lia.
  exists m, k. repeat split; try apply Hf; lia.
Qed.

Lemma us_per_hour_normal : normal_pos (-21) (-21) B64.us_per_hour_f.
Proof. eexists _, _. split; [reflexivity|]. unfold full. split; lia. Qed.

Lemma f3600_normal : normal_pos (-41) (-41) B64.f3600.
Proof. eexists _, _. split; [reflexivity|]. unfold full. split; lia. Qed.

(** [timedelta(hours=h)] on a positive finite [h] with a negative
    exponent. *)
Lemma timedelta_hours_eq (m k : positive) :
  Datetime.timedelta_hours (S754_finite false m (Zneg k))
  = let ip := Zpos m / 2 ^ Zpos k in
    let fnum := Zpos m mod 2 ^ Zpos k in
    let total :=
      if fnum =? 0 then Some (ip * Datetime.US_PER_HOUR)
      else
        let p := B64.mul B64.us_per_hour_f
                   (binary_normalize B64.prec B64.emax fnum (Zneg k) false) in
        match B64.trunc p with
        | None => None
        | Some ip2 =>
            let y := ip * Datetime.US_PER_HOUR + ip2 in
            let '(s, num, den) := B64.frac p in
            let unit := if s then -1 else 1 in
            Some (if num =? 0 then y
                  else match 2 * num ?= den with
                       | Lt => y
                       | Gt => y + unit
                       | Eq => if Z.odd y then y + unit else y
                       end)
        end in
    match total with
    | Some us => if Datetime.delta_in_range us then Some us else None
    | None => None
    end.
Proof. reflexivity. Qed.

Lemma delta_in_range_small (us : Z) :
  0 <= us < 2 ^ 64 -> Datetime.delta_in_range us = true.
Proof.
  intros H. unfold Datetime.delta_in_range, Datetime.US_PER_DAY.
  apply andb_true_intro. split; apply Z.leb_le.
  - assert (0 <= us / 86400000000) by (apply Z.div_pos; lia). lia.
  - assert (us / 86400000000 < 999999999) by (apply Z.div_lt_upper_bound; lia). lia.
Qed.

(** A duration of at least [2^-30] hours and less than [2^31] hours is a
    positive whole number of microseconds. *)
Lemma timedelta_hours_normal (h : float) :
  normal_pos (-82) (-22) h ->
  exists d, Datetime.timedelta_hours h = Some d /\ 0 < d.
Proof.
  intros Hh.
  destruct (trunc_frac_normal _ _ h Hh ltac:(lia)) as (m & k & -> & Hf & Hk & _ & _).
  rewrite timedelta_hours_eq. unfold full in Hf.
  assert (Hpk : 0 < 2 ^ Zpos k) by (apply Z.pow_pos_nonneg; lia).
  assert (Hk22 : 2 ^ 22 <= 2 ^ Zpos k) by (apply Z.pow_le_mono_r; lia).
  set (ip := Zpos m / 2 ^ Zpos k).
  set (fnum := Zpos m mod 2 ^ Zpos k).
  assert (Hip : 0 <= ip < 2 ^ 31).
  { unfold ip. split; [apply Z.div_pos; lia|].
    apply Z.div_lt_upper_bound; [lia|].
    change (2 ^ 53) with (2 ^ 22 * 2 ^ 31) in Hf. nia. }
  pose proof (Z.mod_pos_bound (Zpos m) (2 ^ Zpos k) Hpk) as Hfn. fold fnum in Hfn.
  pose proof (Z.div_mod (Zpos m) (2 ^ Zpos k) ltac:(lia)) as Hdm. fold ip fnum in Hdm.
  cbv zeta. unfold Datetime.US_PER_HOUR.
  destruct (Z.eqb_spec fnum 0) as [E0|Hne].
  - assert (0 < ip) by nia.
    rewrite delta_in_range_small by lia. eexists. split; [reflexivity|lia].
  - destruct fnum as [|f|f] eqn:Ef; try lia. simpl binary_normalize.
    set (d := Zpos (digits2_pos f)).
    assert (Hd : 1 <= d <= 53 /\ d <= Zpos k
                 /\ (ip = 0 -> d = 53)).
    { destruct (digits_bounds f) as [Hb1 Hb2]. fold d in Hb1, Hb2.
      assert (Hd1 : d <= 53).
      { apply (Zdigits2_le (Zpos f) 53); lia. }
      assert (Hd2 : d <= Zpos k).
      { apply (Zdigits2_le (Zpos f) (Zpos k)); lia. }
      repeat split; try lia. intros Hip0.
      assert (Zpos f = Zpos m) by nia.
      unfold d. change (Zpos (digits2_pos f)) with (Zdigits2 (Zpos f)).
      rewrite H. apply full_digits. exact Hf. }
    destruct Hd as (Hd1 & Hdk & Hd0).
    pose proof (binary_round_normal f (Zneg k)) as Hfr. fold d in Hfr.
    specialize (Hfr ltac:(lia) ltac:(lia) ltac:(lia)).
    pose proof (mul_normal _ _ _ _ _ _ us_per_hour_normal Hfr ltac:(lia) ltac:(lia)) as Hp.
    destruct (trunc_frac_normal _ _ _ Hp ltac:(lia)) as (mp & kp & Ep & Hfp & Hkp & Htr & Hfrac).
    rewrite Htr, Hfrac. unfold full in Hfp.
    assert (Hpkp : 0 < 2 ^ Zpos kp) by (apply Z.pow_pos_nonneg; lia).
    assert (Hk19 : 2 ^ 19 <= 2 ^ Zpos kp) by (apply Z.pow_le_mono_r; lia).
    set (ip2 := Zpos mp / 2 ^ Zpos kp).
    assert (Hip2 : 0 <= ip2 < 2 ^ 34).
    { unfold ip2. split; [apply Z.div_pos; lia|].
      apply Z.div_lt_upper_bound; [lia|].
      change (2 ^ 53) with (2 ^ 19 * 2 ^ 34) in Hfp. nia. }
    assert (Hpos : 0 < ip * 3600000000 + ip2).
    { destruct (Z.eq_dec ip 0) as [Hz|Hnz]; [|lia].
      specialize (Hd0 Hz).
      assert (Hk51 : 2 ^ Zpos kp <= 2 ^ 51) by (apply Z.pow_le_mono_r; lia).
      assert (1 <= ip2); [|lia].
      unfold ip2. apply Z.div_le_lower_bound; lia. }
    set (y := ip * 3600000000 + ip2) in *.
    set (r := if Zpos mp mod 2 ^ Zpos kp =? 0 then y
              else match 2 * (Zpos mp mod 2 ^ Zpos kp) ?= 2 ^ Zpos kp with
                   | Lt => y
                   | Gt => y + 1
                   | Eq => if Z.odd y then y + 1 else y
                   end).
    assert (Hr : y <= r <= y + 1).
    { unfold r. destruct (_ =? 0); [lia|].
      destruct (_ ?= _); [destruct (Z.odd y)| |]; lia. }
    rewrite delta_in_range_small by lia.
    exists r. split; [reflexivity|lia].
Qed.

End Normal.

(** ** Exact operations

    On the doubles that are natural numbers times a power of two the
    operations of the aggregator and of the histogram round nothing. *)

Module Exact.

Import Rounding Normal.

Lemma iter_pos_swap {A : Type} (f : A -> A) (p : positive) (x : A) :
  iter_pos f p (f x) = f (iter_pos f p x).
Proof.
  revert x. induction p as [p IH|p IH|]; intros x; simpl; [|now rewrite !IH|reflexivity].
  now rewrite !IH.
Qed.

Lemma iter_pos_iter {A : Type} (f : A -> A) (p : positive) (x : A) :
  iter_pos f p x = Pos.iter f x p.
Proof.
  revert x. induction p as [p IH|p IH|]; intros x; simpl; [|now rewrite !IH|reflexivity].
  now rewrite !iter_pos_swap, !IH.
Qed.

(** Shifting out zero bits loses nothing. *)
Lemma iter_shr_1_exact (n : positive) (x : positive) :
  iter_pos shr_1 n {| shr_m := Zpos (Pos.iter xO x n); shr_r := false; shr_s := false |}
  = {| shr_m := Zpos x; shr_r := false; shr_s := false |}.
Proof.
  rewrite iter_pos_iter.
  induction n as [|n IH] using Pos.peano_ind; [reflexivity|].
  rewrite !Pos.iter_succ, <- Pos.iter_swap. exact IH.
Qed.

(** Rounding a full mantissa followed by [n] zero bits is exact. *)
Lemma binary_round_aux_exact (s : bool) (M0 : positive) (n E : Z) :
  full (Zpos M0) -> 0 <= n -> -1074 <= E + n <= 971 ->
  binary_round_aux B64.prec B64.emax s (Zpos M0 * 2 ^ n) E loc_Exact
  = S754_finite s M0 (E + n).
Proof.
  intros Hf Hn HE. unfold binary_round_aux.
  assert (Hstep2 : shr_fexp B64.prec B64.emax (Zpos M0) (E + n) loc_Exact
                   = ({| shr_m := Zpos M0; shr_r := false; shr_s := false |}, E + n)).
  { unfold shr_fexp. rewrite fexp64, (full_digits _ Hf).
    replace (Z.max (53 + (E + n) - 53) (-1074) - (E + n)) with 0 by lia. reflexivity. }
  assert (Hstep1 : shr_fexp B64.prec B64.emax (Zpos M0 * 2 ^ n) E loc_Exact
                   = ({| shr_m := Zpos M0; shr_r := false; shr_s := false |}, E + n)).
  { unfold shr_fexp. rewrite fexp64, Zdigits2_mul_pow2, (full_digits _ Hf) by lia.
    replace (Z.max (53 + n + E - 53) (-1074) - E) with n by lia.
    destruct n as [|k|k]; try lia.
    - rewrite Z.mul_1_r, Z.add_0_r. reflexivity.
    - unfold shr. rewrite <- iter_xO. simpl shr_record_of_loc.
      now rewrite iter_shr_1_exact. }
  rewrite Hstep1. simpl shr_m. simpl loc_of_shr_record. simpl round_nearest_even.
  rewrite Hstep2. simpl shr_m.
  replace (E + n <=? B64.emax - B64.prec) with true
    by (symmetry; apply Z.leb_le; unfold B64.emax, B64.prec; lia).
  reflexivity.
Qed.

Definition fits (j : Z) : Prop := 0 <= j < 2 ^ 53.

Lemma fits_digits (j : Z) : 0 < j -> fits j -> 0 < Zdigits2 j <= 53.
Proof.
  intros Hj [_ Hlt]. destruct (Zdigits2_bounds j Hj) as [Hd _].
  pose proof (Zdigits2_le j 53 Hj ltac:(lia) Hlt). lia.
Qed.

Lemma dy_mantissa_full (j : Z) :
  0 < j -> fits j -> full (j * 2 ^ (53 - Zdigits2 j)).
Proof.
  intros Hj Hf. destruct (fits_digits j Hj Hf) as [Hd0 Hd].
  apply digits_full.
  - apply Z.mul_pos_pos; [lia|apply Z.pow_pos_nonneg; lia].
  - rewrite Zdigits2_mul_pow2 by lia. lia.
Qed.

(** Rounding [j * 2^c] at exponent [E] when no left shift is needed. *)
Lemma binary_round_aux_dy (j c E : Z) :
  0 < j -> fits j -> 53 - Zdigits2 j <= c ->
  -1074 <= E + c - (53 - Zdigits2 j) <= 971 ->
  binary_round_aux B64.prec B64.emax false (j * 2 ^ c) E loc_Exact = B64.dyadic j (E + c).
Proof.
  intros Hj Hf Hc HE. destruct (fits_digits j Hj Hf) as [Hd0 Hd].
  pose proof (dy_mantissa_full j Hj Hf) as Hfull.
  set (M0 := j * 2 ^ (53 - Zdigits2 j)) in *.
  assert (HM0 : 0 < M0) by (unfold full in Hfull; lia).
  assert (E1 : j * 2 ^ c = Zpos (Z.to_pos M0) * 2 ^ (c - (53 - Zdigits2 j))).
  { rewrite Z2Pos.id by lia. unfold M0. rewrite <- Z.mul_assoc, <- Z.pow_add_r by lia.
    do 2 f_equal. lia. }
  rewrite E1, binary_round_aux_exact; try lia.
  - unfold B64.dyadic. destruct j as [|p|p]; try lia. fold M0. f_equal. lia.
  - rewrite Z2Pos.id by lia. exact Hfull.
Qed.

(** Normalizing [j * 2^c] at exponent [k - c]. *)
Lemma binary_normalize_dy (j c k : Z) :
  0 <= j -> fits j -> 0 <= c ->
  -1074 <= k - (53 - Zdigits2 j) -> k <= 900 ->
  binary_normalize B64.prec B64.emax (j * 2 ^ c) (k - c) false = B64.dyadic j k.
Proof.
  intros Hj0 Hf Hc Hlo Hhi.
  destruct (Z.eq_dec j 0) as [->|Hnz]; [reflexivity|].
  assert (Hj : 0 < j) by lia.
  destruct (fits_digits j Hj Hf) as [Hd0 Hd].
  assert (Hpc : 0 < 2 ^ c) by (apply Z.pow_pos_nonneg; lia).
  assert (HS : 0 < j * 2 ^ c) by (apply Z.mul_pos_pos; lia).
  assert (HdS : Zdigits2 (j * 2 ^ c) = Zdigits2 j + c) by (apply Zdigits2_mul_pow2; lia).
  destruct (j * 2 ^ c) as [|S|S] eqn:ES; try lia.
  unfold binary_normalize, binary_round. rewrite fexp64.
  change (Zpos (digits2_pos S)) with (Zdigits2 (Zpos S)). rewrite HdS.
  replace (Z.max (Zdigits2 j + c + (k - c) - 53) (-1074)) with (Zdigits2 j + k - 53) by lia.
  unfold shl_align.
  replace (Zdigits2 j + k - 53 - (k - c)) with (Zdigits2 j + c - 53) by lia.
  destruct (Zdigits2 j + c - 53) as [|t|t] eqn:Et.
  - rewrite <- ES.
    replace (B64.dyadic j k) with (B64.dyadic j (k - c + c)) by (f_equal; lia).
    apply binary_round_aux_dy; trivial; lia.
  - rewrite <- ES.
    replace (B64.dyadic j k) with (B64.dyadic j (k - c + c)) by (f_equal; lia).
    apply binary_round_aux_dy; trivial; lia.
  - rewrite iter_xO, <- ES, <- Z.mul_assoc, <- Z.pow_add_r by lia.
    replace (B64.dyadic j k) with (B64.dyadic j (Zdigits2 j + k - 53 + (c + Zpos t))) by (f_equal; lia).
    apply binary_round_aux_dy; trivial; lia.
Qed.

Lemma shl_align_fst (m : positive) (e ez : Z) :
  ez <= e -> Zpos (fst (shl_align m e ez)) = Zpos m * 2 ^ (e - ez).
Proof.
  intros H. unfold shl_align. destruct (ez - e) as [|t|t] eqn:Et; try lia.
  - replace (e - ez) with 0 by lia. simpl fst. lia.
  - simpl fst. rewrite iter_xO. do 2 f_equal. lia.
Qed.

Lemma dy_finite (j k : Z) :
  0 < j -> fits j ->
  exists M, B64.dyadic j k = S754_finite false M (k - (53 - Zdigits2 j))
            /\ Zpos M = j * 2 ^ (53 - Zdigits2 j) /\ full (Zpos M).
Proof.
  intros Hj Hf. pose proof (dy_mantissa_full j Hj Hf) as Hfull.
  assert (0 < j * 2 ^ (53 - Zdigits2 j)) by (unfold full in Hfull; lia).
  exists (Z.to_pos (j * 2 ^ (53 - Zdigits2 j))).
  rewrite Z2Pos.id by lia. repeat split; try apply Hfull.
  unfold B64.dyadic. destruct j; try lia. reflexivity.
Qed.

(** The range of exponents in which the values of this development live. *)
Definition mild (k : Z) : Prop := -900 <= k <= 900.

Lemma add_dy (a b k : Z) :
  0 <= a -> 0 <= b -> fits (a + b) -> mild k ->
  B64.add (B64.dyadic a k) (B64.dyadic b k) = B64.dyadic (a + b) k.
Proof.
  intros Ha Hb Hab Hk. unfold mild in Hk.
  assert (Hfa : fits a) by (unfold fits in *; lia).
  assert (Hfb : fits b) by (unfold fits in *; lia).
  destruct (Z.eq_dec a 0) as [->|Hna]; [|destruct (Z.eq_dec b 0) as [->|Hnb]].
  - simpl Z.add. destruct b as [|p|p]; try lia; reflexivity.
  - rewrite Z.add_0_r. destruct a as [|p|p]; try lia; reflexivity.
  - destruct (dy_finite a k ltac:(lia) Hfa) as (Ma & -> & EMa & _).
    destruct (dy_finite b k ltac:(lia) Hfb) as (Mb & -> & EMb & _).
    destruct (fits_digits a ltac:(lia) Hfa) as [Hda0 Hda].
    destruct (fits_digits b ltac:(lia) Hfb) as [Hdb0 Hdb].
    unfold B64.add, SFadd.
    set (ea := k - (53 - Zdigits2 a)). set (eb := k - (53 - Zdigits2 b)).
    set (ez := Z.min ea eb). unfold cond_Zopp.
    rewrite !shl_align_fst by (unfold ez; lia).
    rewrite EMa, EMb, <- !Z.mul_assoc, <- !Z.pow_add_r by (unfold ez, ea, eb; lia).
    replace (53 - Zdigits2 a + (ea - ez)) with (k - ez) by (unfold ea; lia).
    replace (53 - Zdigits2 b + (eb - ez)) with (k - ez) by (unfold eb; lia).
    rewrite <- Z.mul_add_distr_r.
    replace ez with (k - (k - ez)) at 2 by lia.
    destruct (fits_digits (a + b) ltac:(lia) Hab) as [Hd0 Hd].
    apply binary_normalize_dy; try lia; trivial.
Qed.

Lemma div_eucl_exact (q b : Z) : 0 < b -> Z.div_eucl (q * b) b = (q, 0).
Proof.
  intros Hb. pose proof (Z.div_mul q b ltac:(lia)) as Hq.
  pose proof (Z.mod_mul q b ltac:(lia)) as Hr.
  unfold Z.div, Z.modulo in Hq, Hr.
  destruct (Z.div_eucl (q * b) b) as [q' r']. congruence.
Qed.

Lemma digits_scaled (a c t : Z) :
  0 < a -> 0 < c < 2 ^ t -> 0 <= t ->
  Zdigits2 a <= Zdigits2 (c * a) <= Zdigits2 a + t.
Proof.
  intros Ha Hc Ht. destruct (Zdigits2_bounds a Ha) as [Hd [Hlo Hhi]]. split.
  - apply Zdigits2_mono; nia.
  - apply Zdigits2_le; [nia|lia|].
    rewrite Z.pow_add_r by lia. nia.
Qed.

(** The product with a positive constant [b * 2^t * 2^ey] is exact when
    [a * b] fits. *)
Lemma mul_dy (a k b t ey : Z) (My : positive) :
  0 <= a -> 0 < b -> 0 <= t -> Zpos My = b * 2 ^ t -> fits (a * b) ->
  mild k -> mild (k + t + ey) ->
  B64.mul (B64.dyadic a k) (S754_finite false My ey) = B64.dyadic (a * b) (k + t + ey).
Proof.
  intros Ha Hb Ht EMy Hab Hk Hk'. unfold mild in *.
  destruct (Z.eq_dec a 0) as [->|Hna]; [reflexivity|].
  assert (Hfa : fits a) by (unfold fits in *; nia).
  destruct (dy_finite a k ltac:(lia) Hfa) as (Ma & -> & EMa & _).
  destruct (fits_digits a ltac:(lia) Hfa) as [Hda0 Hda].
  destruct (fits_digits (a * b) ltac:(nia) Hab) as [Hd0 Hd].
  assert (Hmono : Zdigits2 a <= Zdigits2 (a * b)) by (apply Zdigits2_mono; nia).
  unfold B64.mul, SFmul. simpl xorb.
  rewrite Pos2Z.inj_mul, EMa, EMy.
  replace (a * 2 ^ (53 - Zdigits2 a) * (b * 2 ^ t))
    with (a * b * 2 ^ (53 - Zdigits2 a + t))
    by (rewrite Z.pow_add_r by lia; ring).
  rewrite binary_round_aux_dy; [f_equal; lia|nia|exact Hab|lia|lia].
Qed.

Lemma mul_quarter_dy (a k : Z) :
  0 <= a -> fits a -> mild k -> mild (k - 2) ->
  B64.mul (B64.dyadic a k) B64.quarter = B64.dyadic a (k - 2).
Proof.
  intros Ha Hf Hk Hk'. unfold B64.quarter.
  rewrite (mul_dy a k 1 52 (-54)); try lia; try reflexivity.
  - f_equal; lia.
  - now rewrite Z.mul_1_r.
  - exact Hk.
  - now replace (k + 52 + -54) with (k - 2) by lia.
Qed.

Lemma mul_thousand_dy (a k : Z) :
  0 <= a -> fits (a * 1000) -> mild k ->
  B64.mul (B64.dyadic a k) B64.thousand = B64.dyadic (a * 1000) k.
Proof.
  intros Ha Hf Hk. unfold B64.thousand.
  rewrite (mul_dy a k 1000 43 (-43)); try lia; try reflexivity; trivial.
  - f_equal; lia.
  - now replace (k + 43 + -43) with k by lia.
Qed.

Lemma new_location_zero (m : Z) : new_location m 0 = loc_Exact.
Proof. unfold new_location. destruct (Z.even m); reflexivity. Qed.

(** The division core on a dividend that the divisor divides. *)
Lemma div_core_exact (m1 e1 m2 e2 q : Z) :
  0 < m1 -> 0 < m2 ->
  let e' := Z.min (Z.max (Zdigits2 m1 + e1 - (Zdigits2 m2 + e2) - 53) (-1074)) (e1 - e2) in
  m1 * 2 ^ (e1 - e2 - e') = q * m2 ->
  SFdiv_core_binary B64.prec B64.emax m1 e1 m2 e2 = (q, e', loc_Exact).
Proof.
  intros H1 H2 e' Hq. unfold SFdiv_core_binary. rewrite fexp64. fold e'.
  set (s := e1 - e2 - e') in *.
  assert (Hs : 0 <= s) by (unfold s, e'; lia).
  assert (Em' : match s with Zpos _ => Z.shiftl m1 s | Z0 => m1 | Zneg _ => 0 end
                = q * m2).
  { rewrite <- Hq. clearbody s. destruct s; try lia.
    now rewrite Z.shiftl_mul_pow2 by lia. }
  rewrite Em', div_eucl_exact by lia. now rewrite new_location_zero.
Qed.

Lemma div_thousand_dy (a k : Z) :
  0 <= a -> fits (a * 1000) -> mild k ->
  B64.div (B64.dyadic (a * 1000) k) B64.thousand = B64.dyadic a k.
Proof.
  intros Ha Hf Hk. unfold mild in Hk.
  destruct (Z.eq_dec a 0) as [->|Hna]; [reflexivity|].
  assert (Hfa : fits a) by (unfold fits in *; lia).
  destruct (dy_finite (a * 1000) k ltac:(lia) Hf) as (M1 & -> & EM1 & HfM1).
  destruct (fits_digits a ltac:(lia) Hfa) as [Hda0 Hda].
  destruct (fits_digits (a * 1000) ltac:(lia) Hf) as [Hd0 Hd].
  pose proof (digits_scaled a 1000 10 ltac:(lia) ltac:(lia) ltac:(lia)) as Hsc.
  replace (1000 * a) with (a * 1000) in Hsc by lia.
  set (d' := Zdigits2 (a * 1000)) in *.
  unfold B64.div, B64.thousand, SFdiv.
  rewrite (div_core_exact (Zpos M1) (k - (53 - d')) 8796093022208000 (-43)
             (a * 2 ^ (63 - d'))); try lia.
  - rewrite (full_digits _ HfM1). change (Zdigits2 8796093022208000) with 53.
    replace (Z.min (Z.max (53 + (k - (53 - d')) - (53 + -43) - 53) (-1074))
               (k - (53 - d') - -43)) with (k - (53 - d') - 10) by lia.
    simpl xorb.
    rewrite binary_round_aux_dy; try lia; trivial.
    f_equal. lia.
  - rewrite (full_digits _ HfM1). change (Zdigits2 8796093022208000) with 53.
    replace (Z.min (Z.max (53 + (k - (53 - d')) - (53 + -43) - 53) (-1074))
               (k - (53 - d') - -43)) with (k - (53 - d') - 10) by lia.
    replace (k - (53 - d') - -43 - (k - (53 - d') - 10)) with 53 by lia.
    rewrite EM1. change 8796093022208000 with (1000 * 2 ^ 43).
    replace (a * 1000 * 2 ^ (53 - d') * 2 ^ 53) with (a * 1000 * 2 ^ (53 - d' + 53))
      by (rewrite Z.pow_add_r by lia; ring).
    replace (a * 2 ^ (63 - d') * (1000 * 2 ^ 43)) with (a * 1000 * 2 ^ (63 - d' + 43))
      by (rewrite Z.pow_add_r by lia; ring).
    do 2 f_equal. lia.
Qed.

(** A whole number of eighths is a whole number of thousandths: rounding
    it to three decimals changes nothing. *)
Lemma round3_dy (a : Z) : 0 <= a -> fits a -> round3 (B64.dyadic a (-3)) = B64.dyadic a (-3).
Proof.
  intros Ha Hf.
  destruct (Z.eq_dec a 0) as [->|Hna]; [reflexivity|].
  destruct (dy_finite a (-3) ltac:(lia) Hf) as (M & E & EM & HfM).
  destruct (fits_digits a ltac:(lia) Hf) as [Hd0 Hd].
  set (d := Zdigits2 a) in *.
  rewrite E at 1. unfold round3.
  destruct (-3 - (53 - d)) as [|p|p] eqn:Ep; try lia.
  assert (Hp : Zpos p = 56 - d) by lia.
  assert (Hpow : 0 < 2 ^ Zpos p) by (apply Z.pow_pos_nonneg; lia).
  assert (En : B64.div_half_even (Zpos M * 1000) (2 ^ Zpos p) = a * 125).
  { assert (Eprod : Zpos M * 1000 = a * 125 * 2 ^ Zpos p).
    { rewrite EM, Hp. replace (56 - d) with (53 - d + 3) by lia.
      rewrite Z.pow_add_r by lia. change (2 ^ 3) with 8. ring. }
    unfold B64.div_half_even.
    rewrite Eprod, Z.div_mul, Z.mod_mul by lia.
    simpl Z.mul. destruct (0 ?= 2 ^ Zpos p) eqn:Ec; try reflexivity.
    - apply Z.compare_eq in Ec. lia.
    - apply Z.compare_gt_iff in Ec. lia. }
  rewrite En. unfold B64.of_quot.
  pose proof (digits_scaled a 125 7 ltac:(lia) ltac:(lia) ltac:(lia)) as Hsc.
  replace (125 * a) with (a * 125) in Hsc by lia. fold d in Hsc.
  set (d1 := Zdigits2 (a * 125)) in *.
  destruct (a * 125) as [|n|n] eqn:E125; try lia.
  rewrite (div_core_exact (Zpos n) 0 1000 0 (a * 2 ^ (60 - d1))); try lia.
  - change (Zdigits2 1000) with 10. fold d1.
    replace (Z.min (Z.max (d1 + 0 - (10 + 0) - 53) (-1074)) (0 - 0)) with (d1 - 63) by lia.
    rewrite binary_round_aux_dy; try lia; trivial.
    f_equal. lia.
  - change (Zdigits2 1000) with 10. fold d1.
    replace (Z.min (Z.max (d1 + 0 - (10 + 0) - 53) (-1074)) (0 - 0)) with (d1 - 63) by lia.
    replace (0 - 0 - (d1 - 63)) with (60 - d1 + 3) by lia.
    rewrite <- E125, Z.pow_add_r by lia. change (2 ^ 3) with 8. ring.
Qed.

End Exact.

(** ** Python's [max] *)

Definition not_nan (x : float) : Prop := B64.is_nan x = false.

Lemma py_max2_cases (a b : float) : py_max2 a b = a \/ py_max2 a b = b.
Proof. unfold py_max2. destruct (B64.ltb a b); auto. Qed.

Lemma fold_py_max2_In (l : list float) (x : float) :
  In (fold_left py_max2 l x) (x :: l).
Proof.
  revert x. induction l as [|y l IH]; intros x; simpl; [now left|].
  destruct (IH (py_max2 x y)) as [E|Hin].
  - rewrite <- E. destruct (py_max2_cases x y) as [E'|E']; rewrite E'; simpl; auto.
  - simpl. auto.
Qed.

Lemma py_max2_upper (a b : float) :
  not_nan a -> not_nan b ->
  not_nan (py_max2 a b)
  /\ B64.leb a (py_max2 a b) = true /\ B64.leb b (py_max2 a b) = true.
Proof.
  intros Ha Hb. unfold py_max2. destruct (B64.ltb a b) eqn:E.
  - repeat split; trivial; [now apply B64Facts.ltb_leb|now apply B64Facts.leb_refl].
  - repeat split; trivial; [now apply B64Facts.leb_refl|now apply B64Facts.not_ltb_leb].
Qed.

Lemma fold_py_max2_upper (l : list float) (x : float) :
  not_nan x -> Forall not_nan l ->
  not_nan (fold_left py_max2 l x)
  /\ Forall (fun v => B64.leb v (fold_left py_max2 l x) = true) (x :: l).
Proof.
  revert x. induction l as [|y l IH]; intros x Hx Hl; simpl.
  - split; [assumption|]. constructor; [now apply B64Facts.leb_refl|constructor].
  - inversion Hl as [|? ? Hy Hl']; subst.
    destruct (py_max2_upper x y Hx Hy) as (Hm & Hxm & Hym).
    destruct (IH _ Hm Hl') as (Hr & Hall).
    split; [assumption|].
    inversion Hall as [|? ? Hmr Hrest]; subst.
    assert (Hnan : forall v, In v l -> not_nan v) by (now apply Forall_forall).
    constructor; [|constructor]; trivial.
    + now apply (B64Facts.leb_trans x (py_max2 x y)).
    + now apply (B64Facts.leb_trans y (py_max2 x y)).
Qed.

(** [max] returns one of the items, and an upper bound of them all when
    none is NaN. *)
Lemma py_max_spec (l : list float) (m : float) :
  py_max l = Some m ->
  In m l /\ (Forall not_nan l -> Forall (fun v => B64.leb v m = true) l).
Proof.
  destruct l as [|x l]; simpl; [discriminate|]. intros [= <-]. split.
  - apply fold_py_max2_In.
  - intros Hl. inversion Hl; subst. now apply fold_py_max2_upper.
Qed.

(** ** The aggregator, slot by slot *)

Lemma fold_add_item_fst (h : float) (items : list DataItem) (p : float) (e : dict float) :
  fst (fold_left (add_item h) items (p, e))
  = fold_left B64.add (map value items) p.
Proof.
  revert p e. induction items as [|it items IH]; intros p e; simpl; [reflexivity|].
  apply IH.
Qed.

Lemma add_slot_power (h : float) (P E : dict float) (slot : ScheduleSlot) :
  fst (add_slot h (P, E) slot) = Dict.set P (slot_key slot) (slot_power slot).
Proof.
  unfold add_slot, slot_power, slot_key.
  rewrite <- (fold_add_item_fst h (data slot) B64.zero E).
  now destruct (fold_left (add_item h) (data slot) (B64.zero, E)).
Qed.

(** [power_by_ts] alone: one assignment per slot. *)
Definition set_power (P : dict float) (slot : ScheduleSlot) : dict float :=
  Dict.set P (slot_key slot) (slot_power slot).

Lemma fold_add_slot_power (h : float) (slots : list ScheduleSlot) (P E : dict float) :
  fst (fold_left (add_slot h) slots (P, E)) = fold_left set_power slots P.
Proof.
  revert P E. induction slots as [|slot slots IH]; intros P E; cbn [fold_left]; [reflexivity|].
  rewrite (surjective_pairing (add_slot h (P, E) slot)), IH, add_slot_power.
  reflexivity.
Qed.

Lemma compute_power (payload : OptimizationSchedule) :
  power_by_ts (compute_from_schedule payload)
  = fold_left set_power (schedule payload) [].
Proof.
  unfold compute_from_schedule.
  rewrite <- (fold_add_slot_power (_guess_slot_hours payload) (schedule payload) [] []).
  now destruct (fold_left (add_slot (_guess_slot_hours payload)) (schedule payload) ([], [])).
Qed.

Lemma fold_set_power_NoDup (slots : list ScheduleSlot) (P : dict float) :
  NoDup (Dict.keys P) -> NoDup (Dict.keys (fold_left set_power slots P)).
Proof.
  revert P. induction slots as [|slot slots IH]; intros P HP; simpl; [assumption|].
  apply IH. now apply DictFacts.NoDup_keys_set.
Qed.

Lemma fold_set_power_nonempty (slots : list ScheduleSlot) (P : dict float) :
  P <> [] \/ slots <> [] -> fold_left set_power slots P <> [].
Proof.
  revert P. induction slots as [|slot slots IH]; intros P H; simpl.
  - destruct H; [assumption|congruence].
  - apply IH. left. unfold set_power.
    destruct P as [|[k v] P]; simpl; [discriminate|].
    destruct (String.eqb (slot_key slot) k); discriminate.
Qed.

(** Rounding to three decimals

    [div_half_even] gives the nearest whole number, the even one at a tie,
    so [round3] reads back the decimal that is nearest to its argument. *)
Lemma div_half_even_nearest (a b : Z) :
  0 <= a -> 0 < b ->
  nearest_even a b (B64.div_half_even a b) /\ 0 <= B64.div_half_even a b.
Proof.
  intros Ha Hb. unfold nearest_even, B64.div_half_even.
  pose proof (Z.div_mod a b ltac:(lia)) as Hdm.
  pose proof (Z.mod_pos_bound a b Hb) as Hr.
  assert (Hq : 0 <= a / b) by (apply Z.div_pos; lia).
  set (q := a / b) in *. set (r := a mod b) in *.
  destruct (Z.compare_spec (2 * r) b) as [Ec|Ec|Ec].
  - destruct (Z.even q) eqn:Ev.
    + replace (a - q * b) with r by lia.
      split; [split; [lia|intros _; exact Ev]|lia].
    + replace (a - (q + 1) * b) with (r - b) by lia.
      split; [split; [lia|intros _; rewrite Z.even_add, Ev; reflexivity]|lia].
  - replace (a - q * b) with r by lia.
    split; [split; [lia|intros E; exfalso; lia]|lia].
  - replace (a - (q + 1) * b) with (r - b) by lia.
    split; [split; [lia|intros E; exfalso; lia]|lia].
Qed.

Lemma round3_nearest (x : float) :
  match x with
  | S754_finite s m e =>
      exists n, 0 <= n
                /\ nearest_even (fst (thousandfold m e)) (snd (thousandfold m e)) n
                /\ round3 x = B64.of_quot s n 1000
  | _ => round3 x = x
  end.
Proof.
  destruct x as [s|s| |s m e]; try reflexivity.
  unfold round3, thousandfold. destruct e as [|p|p].
  - exists (Zpos m * 1000 * 2 ^ 0). cbn [fst snd]. split; [lia|]. split; [|reflexivity].
    unfold nearest_even. lia.
  - exists (Zpos m * 1000 * 2 ^ Zpos p). cbn [fst snd].
    assert (0 < 2 ^ Zpos p) by (apply Z.pow_pos_nonneg; lia).
    split; [nia|]. split; [|reflexivity]. unfold nearest_even. lia.
  - assert (Hp : 0 < 2 ^ Zpos p) by (apply Z.pow_pos_nonneg; lia).
    destruct (div_half_even_nearest (Zpos m * 1000) (2 ^ Zpos p) ltac:(lia) Hp) as [Hn H0].
    exists (B64.div_half_even (Zpos m * 1000) (2 ^ Zpos p)). cbn [fst snd].
    repeat split; trivial; apply Hn.
Qed.

Lemma compute_peak (payload : OptimizationSchedule) :
  let a := compute_from_schedule payload in
  let peak_val := match py_max (Dict.values (power_by_ts a)) with
                  | Some m => m
                  | None => B64.zero
                  end in
  peak_kw a = round3 peak_val
  /\ peak_ts a = map fst (filter (fun kv => is_peak peak_val (snd kv)) (power_by_ts a)).
Proof.
  unfold compute_from_schedule.
  destruct (fold_left (add_slot (_guess_slot_hours payload)) (schedule payload) ([], []))
    as [P E]. simpl. split; reflexivity.
Qed.

(** C1. The peak is the maximum of the per-timestamp totals, rounded to
    three decimals, and 0.0 for the empty schedule: it is [round3] of the
    value Python's [max] returns, which is one of the totals and, when no
    total is NaN, is at least every total. Rounded to three decimals means
    this: for a finite maximum of magnitude [m * 2^e] the peak is the double
    nearest to [n / 1000], with the sign of the maximum, where [n] is the
    whole number nearest to [1000 * m * 2^e], the even one at a tie; a
    maximum that is a zero, an infinity or NaN is returned as it is. The
    peak timestamps are exactly the keys whose unrounded total [p] satisfies
    [abs(p - peak) < 1e-9] for the unrounded peak: every such key is listed
    and no other key is. *)
Theorem peak_correct (payload : OptimizationSchedule) :
  let a := compute_from_schedule payload in
  let totals := Dict.values (power_by_ts a) in
  let peak_val := match py_max totals with Some m => m | None => B64.zero end in
  peak_kw a = round3 peak_val
  /\ match peak_val with
     | S754_finite s m e =>
         exists n, 0 <= n
                   /\ nearest_even (fst (thousandfold m e)) (snd (thousandfold m e)) n
                   /\ peak_kw a = B64.of_quot s n 1000
     | _ => peak_kw a = peak_val
     end
  /\ (schedule payload = [] -> peak_kw a = B64.zero)
  /\ (schedule payload <> [] ->
      py_max totals = Some peak_val
      /\ In peak_val totals
      /\ (Forall not_nan totals -> Forall (fun v => B64.leb v peak_val = true) totals))
  /\ (forall k,
        In k (peak_ts a)
        <-> exists p, Dict.get (power_by_ts a) k = Some p
                      /\ B64.ltb (B64.abs (B64.sub p peak_val)) B64.eps9 = true).
Proof.
  intros a totals peak_val.
  destruct (compute_peak payload) as [Hkw Hts].
  fold a in Hkw, Hts. fold totals in Hkw, Hts. fold peak_val in Hkw, Hts.
  assert (Hnd : NoDup (Dict.keys (power_by_ts a))).
  { unfold a. rewrite compute_power. apply fold_set_power_NoDup. constructor. }
  split; [exact Hkw|]. split; [|split; [|split]].
  - rewrite Hkw. exact (round3_nearest peak_val).
  - intros Hs. rewrite Hkw. unfold peak_val, totals, a.
    rewrite compute_power, Hs. reflexivity.
  - intros Hs.
    assert (Hne : power_by_ts a <> []).
    { unfold a. rewrite compute_power. apply fold_set_power_nonempty. now right. }
    destruct (py_max totals) as [m|] eqn:Em.
    + subst peak_val. split; [reflexivity|]. now apply py_max_spec.
    + exfalso. unfold totals, Dict.values in Em.
      destruct (power_by_ts a); [congruence|discriminate].
  - intros k. rewrite Hts, in_map_iff. split.
    + intros [[k' p] [Ek Hin]]. simpl in Ek. subst k'.
      apply filter_In in Hin. destruct Hin as [Hin Hp]. exists p. split.
      * now apply DictFacts.In_get_Some.
      * exact Hp.
    + intros [p [Hget Hp]]. exists (k, p). split; [reflexivity|].
      apply filter_In. split; [now apply DictFacts.get_Some_In|exact Hp].
Qed.

(** ** Sorted schedules *)

Lemma ts_le_trans : Relations_1.Transitive ts_le.
Proof. intros a b c. unfold ts_le. lia. Qed.

Lemma ts_lt_trans : Relations_1.Transitive ts_lt.
Proof. intros a b c. unfold ts_lt. lia. Qed.

Lemma sorted_strong (slots : list ScheduleSlot) :
  sorted_schedule slots -> StronglySorted ts_le slots.
Proof. apply Sorted_StronglySorted, ts_le_trans. Qed.

Lemma strictly_sorted_strong (slots : list ScheduleSlot) :
  strictly_sorted_schedule slots -> StronglySorted ts_lt slots.
Proof. apply Sorted_StronglySorted, ts_lt_trans. Qed.

Lemma StronglySorted_filter {A : Type} (R : A -> A -> Prop) (f : A -> bool) (l : list A) :
  StronglySorted R l -> StronglySorted R (filter f l).
Proof.
  induction 1 as [|x l Hl IH Hx]; simpl; [constructor|].
  destruct (f x); [|assumption].
  constructor; [assumption|].
  rewrite Forall_forall in *. intros y Hy. apply Hx.
  now apply filter_In in Hy.
Qed.

(** Slots in timestamp order with pairwise distinct keys have pairwise
    distinct timestamps. *)
Lemma sorted_distinct_keys_strict (slots : list ScheduleSlot) :
  StronglySorted ts_le slots -> NoDup (map slot_key slots) ->
  StronglySorted ts_lt slots.
Proof.
  induction 1 as [|x l Hl IH Hx]; intros Hnd; [constructor|].
  simpl in Hnd. inversion Hnd as [|? ? Hnotin Hnd']; subst.
  constructor; [now apply IH|].
  rewrite Forall_forall in *. intros y Hy.
  specialize (Hx y Hy). unfold ts_le in Hx. unfold ts_lt.
  destruct (Z.eq_dec (timestamp x) (timestamp y)) as [E|E]; [|lia].
  exfalso. apply Hnotin. unfold slot_key at 1. rewrite E.
  now apply (in_map slot_key).
Qed.

(** ** The aggregator on distinct keys *)

Definition power_entry (slot : ScheduleSlot) : string * float :=
  (slot_key slot, slot_power slot).

Lemma fold_set_power_distinct (slots : list ScheduleSlot) (P : dict float) :
  NoDup (Dict.keys P ++ map slot_key slots) ->
  fold_left set_power slots P = (P ++ map power_entry slots)%list.
Proof.
  revert P. induction slots as [|slot slots IH]; intros P Hnd; simpl.
  - now rewrite app_nil_r.
  - assert (Hnew : Dict.get P (slot_key slot) = None).
    { apply DictFacts.get_None_keys. intros Hin.
      apply NoDup_remove_2 in Hnd. apply Hnd, in_or_app. now left. }
    unfold set_power at 2. rewrite (DictFacts.set_new _ _ _ Hnew).
    rewrite IH.
    + now rewrite <- app_assoc.
    + unfold Dict.keys. rewrite map_app. simpl. rewrite <- app_assoc. exact Hnd.
Qed.

Lemma filter_power_entries (f : float -> bool) (slots : list ScheduleSlot) :
  map fst (filter (fun kv => f (snd kv)) (map power_entry slots))
  = map slot_key (filter (fun slot => f (slot_power slot)) slots).
Proof.
  induction slots as [|slot slots IH]; simpl; [reflexivity|].
  destruct (f (slot_power slot)); simpl; now rewrite IH.
Qed.

(** C9. On a schedule in timestamp order whose slots have pairwise distinct
    keys, [power_by_ts] lists one entry per slot in schedule order, and the
    peak timestamps are the keys of the slots at the peak, in schedule
    order: a list in strictly ascending chronological order. *)
Theorem peak_ts_chronological (payload : OptimizationSchedule) :
  sorted_schedule (schedule payload) ->
  NoDup (map slot_key (schedule payload)) ->
  let a := compute_from_schedule payload in
  let peak_val := match py_max (Dict.values (power_by_ts a)) with
                  | Some m => m
                  | None => B64.zero
                  end in
  let peaks := filter (fun slot => is_peak peak_val (slot_power slot)) (schedule payload) in
  power_by_ts a = map power_entry (schedule payload)
  /\ peak_ts a = map slot_key peaks
  /\ StronglySorted ts_lt peaks.
Proof.
  intros Hsorted Hnd a peak_val peaks.
  assert (Hp : power_by_ts a = map power_entry (schedule payload)).
  { unfold a. rewrite compute_power. now apply (fold_set_power_distinct _ []). }
  split; [exact Hp|]. split.
  - destruct (compute_peak payload) as [_ Hts]. fold a in Hts. fold peak_val in Hts.
    rewrite Hts, Hp. apply filter_power_entries.
  - apply StronglySorted_filter.
    apply sorted_distinct_keys_strict; [now apply sorted_strong|assumption].
Qed.

(** ** The window builder, load by load *)

Module WindowFacts.

(** What the builder has recorded for one load: its list of windows and,
    when a window is open, the instant it started. The loop acts on each
    load independently of the others. *)

(** The windows a load has after [l] is appended to what it had, where a
    load without windows has no key. *)
Definition extend (o : option (list window)) (l : list window) : option (list window) :=
  match l with
  | [] => o
  | _ => Some (match o with Some ws => ws | None => [] end ++ l)%list
  end.

Lemma extend_nil o : extend o [] = o.
Proof. reflexivity. Qed.

Lemma extend_app o l1 l2 : extend (extend o l1) l2 = extend o (l1 ++ l2).
Proof.
  destruct l1 as [|w1 l1]; [reflexivity|].
  destruct l2 as [|w2 l2]; simpl.
  - now rewrite app_nil_r.
  - now rewrite <- app_assoc.
Qed.

Lemma get_append_window_eq (W : dict (list window)) n w :
  Dict.get (append_window W n w) n = extend (Dict.get W n) [w].
Proof.
  unfold append_window. rewrite DictFacts.get_set_eq.
  unfold Dict.get_default. reflexivity.
Qed.

Lemma get_append_window_ne (W : dict (list window)) n n' w :
  n' <> n -> Dict.get (append_window W n w) n' = Dict.get W n'.
Proof. intros H. unfold append_window. now apply DictFacts.get_set_ne. Qed.

Lemma NoDup_keys_del {V : Type} (d : dict V) k :
  NoDup (Dict.keys d) -> NoDup (Dict.keys (Dict.del d k)).
Proof.
  unfold Dict.del, Dict.keys. induction d as [|[k0 v0] d IH]; simpl; intros H; [constructor|].
  inversion H as [|? ? Hnotin Hnd]; subst.
  destruct (negb (String.eqb k k0)); simpl; [|now apply IH].
  constructor; [|now apply IH].
  intros Hin. apply Hnotin. apply in_map_iff in Hin. destruct Hin as [[k1 v1] [E Hin]].
  apply filter_In in Hin. apply in_map_iff. exists (k1, v1). tauto.
Qed.

Definition close_step (ts : datetime) (here : list string)
    (st : dict (list window) * dict datetime) (kv : string * datetime) :=
  let '(n, start) := kv in
  if mem_name n here then st
  else (append_window (fst st) n (start, ts), Dict.del (snd st) n).

Definition closed (ts : datetime) (here : list string) (n : string)
    (a : option datetime) : list window :=
  match a with
  | Some start => if mem_name n here then [] else [(start, ts)]
  | None => []
  end.

Lemma close_fold ts here (l : dict datetime) :
  NoDup (Dict.keys l) ->
  forall W Ac,
    let r := fold_left (close_step ts here) l (W, Ac) in
    (forall n, Dict.get (fst r) n = extend (Dict.get W n) (closed ts here n (Dict.get l n)))
    /\ (forall n, Dict.get (snd r) n
                  = match Dict.get l n with
                    | Some _ => if mem_name n here then Dict.get Ac n else None
                    | None => Dict.get Ac n
                    end)
    /\ (NoDup (Dict.keys Ac) -> NoDup (Dict.keys (snd r))).
Proof.
  induction l as [|[k st] l IH]; intros Hnd W Ac; simpl.
  - repeat split; auto.
  - inversion Hnd as [|? ? Hnotin Hnd']; subst.
    assert (Hk : Dict.get l k = None) by now apply DictFacts.get_None_keys.
    destruct (mem_name k here) eqn:Ek.
    + destruct (IH Hnd' W Ac) as (HW & HA & HN). repeat split.
      * intros n. rewrite HW. destruct (String.eqb_spec n k) as [->|Hne]; [|reflexivity].
        rewrite Hk. simpl. now rewrite Ek.
      * intros n. rewrite HA. destruct (String.eqb_spec n k) as [->|Hne]; [|reflexivity].
        rewrite Hk. now rewrite Ek.
      * exact HN.
    + destruct (IH Hnd' (append_window W k (st, ts)) (Dict.del Ac k)) as (HW & HA & HN).
      repeat split.
      * intros n. rewrite HW. destruct (String.eqb_spec n k) as [->|Hne].
        -- rewrite Hk, get_append_window_eq. simpl. now rewrite Ek.
        -- now rewrite get_append_window_ne.
      * intros n. rewrite HA. destruct (String.eqb_spec n k) as [->|Hne].
        -- rewrite Hk, Ek. apply DictFacts.get_del_eq.
        -- rewrite DictFacts.get_del_ne by assumption. reflexivity.
      * intros HAc. apply HN. now apply NoDup_keys_del.
Qed.

Lemma close_absent_get ts here W A :
  NoDup (Dict.keys A) ->
  let r := close_absent ts here W A in
  (forall n, Dict.get (fst r) n = extend (Dict.get W n) (closed ts here n (Dict.get A n)))
  /\ (forall n, Dict.get (snd r) n = if mem_name n here then Dict.get A n else None)
  /\ NoDup (Dict.keys (snd r)).
Proof.
  intros Hnd.
  destruct (close_fold ts here A Hnd W A) as (HW & HA & HN).
  change (fold_left (close_step ts here) A (W, A)) with (close_absent ts here W A) in *.
  repeat split; auto.
  intros n. rewrite HA. destruct (Dict.get A n); [reflexivity|].
  now destruct (mem_name n here).
Qed.

Lemma mem_name_In n l : mem_name n l = true <-> In n l.
Proof.
  unfold mem_name. rewrite existsb_exists. split.
  - intros [x [Hin E]]. apply String.eqb_eq in E. now subst.
  - intros H. exists n. split; [assumption|apply String.eqb_refl].
Qed.

Lemma open_new_get ts items A :
  NoDup (Dict.keys A) ->
  (forall n, Dict.get (open_new ts items A) n
             = if mem_name n (map name items)
               then Some (match Dict.get A n with Some s => s | None => ts end)
               else Dict.get A n)
  /\ NoDup (Dict.keys (open_new ts items A)).
Proof.
  unfold open_new. revert A. induction items as [|it items IH]; intros A Hnd; simpl.
  - split; [reflexivity|assumption].
  - set (A1 := if Dict.mem A (name it) then A else Dict.set A (name it) ts).
    assert (Hnd1 : NoDup (Dict.keys A1)).
    { unfold A1. destruct (Dict.mem A (name it)); [assumption|].
      now apply DictFacts.NoDup_keys_set. }
    assert (HA1 : forall n, Dict.get A1 n
                            = if String.eqb n (name it)
                              then Some (match Dict.get A n with Some s => s | None => ts end)
                              else Dict.get A n).
    { intros n. unfold A1, Dict.mem.
      destruct (String.eqb_spec n (name it)) as [->|Hne].
      - destruct (Dict.get A (name it)) eqn:E; [assumption|apply DictFacts.get_set_eq].
      - destruct (Dict.get A (name it)); [reflexivity|now apply DictFacts.get_set_ne]. }
    destruct (IH A1 Hnd1) as [Hget Hnd2]. split; [|exact Hnd2].
    intros n. rewrite Hget, HA1.
    destruct (String.eqb n (name it)); simpl; [|reflexivity].
    now destruct (mem_name n (map name items)).
Qed.

Lemma close_all_get e (A : dict datetime) :
  NoDup (Dict.keys A) ->
  forall W n,
    Dict.get (close_all e W A) n
    = extend (Dict.get W n)
        (match Dict.get A n with Some s => [(s, e)] | None => [] end).
Proof.
  unfold close_all. induction A as [|[k st] A IH]; intros Hnd W n; simpl; [reflexivity|].
  inversion Hnd as [|? ? Hnotin Hnd']; subst.
  rewrite (IH Hnd'). destruct (String.eqb_spec n k) as [->|Hne].
  - apply DictFacts.get_None_keys in Hnotin. rewrite Hnotin.
    apply get_append_window_eq.
  - now rewrite get_append_window_ne.
Qed.

(** The windows one load gets from the slots still to come, given the
    start [a] of its open window, if any, and the closing instant [e]. *)
Fixpoint trace (n : string) (e : datetime) (slots : list ScheduleSlot)
    (a : option datetime) : list window :=
  match slots with
  | [] => match a with Some s => [(s, e)] | None => [] end
  | slot :: rest =>
      if present n slot
      then trace n e rest (Some (match a with Some s => s | None => timestamp slot end))
      else (match a with Some s => [(s, timestamp slot)] | None => [] end
            ++ trace n e rest None)%list
  end.

Lemma last_cons {A : Type} (x d : A) (l : list A) : last (x :: l) d = last l x.
Proof.
  revert x d. induction l as [|y l IH]; intros x d; [reflexivity|].
  change (last (x :: y :: l) d) with (last (y :: l) d).
  now rewrite (IH y d), (IH y x).
Qed.

Lemma closing_instant_cons h slot slot' rest :
  closing_instant h (slot :: slot' :: rest) = closing_instant h (slot' :: rest).
Proof. unfold closing_instant, final_timestamp. now rewrite last_cons. Qed.

(** One pass of the loop body over a slot that is not the final one. *)
Lemma loop_body_get slot W A :
  NoDup (Dict.keys A) ->
  let r := close_absent (timestamp slot) (map name (data slot)) W A in
  let A2 := open_new (timestamp slot) (data slot) (snd r) in
  (forall n, Dict.get (fst r) n
             = extend (Dict.get W n)
                 (if present n slot then []
                  else match Dict.get A n with
                       | Some s => [(s, timestamp slot)]
                       | None => []
                       end))
  /\ (forall n, Dict.get A2 n
                = if present n slot
                  then Some (match Dict.get A n with Some s => s | None => timestamp slot end)
                  else None)
  /\ NoDup (Dict.keys A2).
Proof.
  intros Hnd r A2.
  destruct (close_absent_get (timestamp slot) (map name (data slot)) W A Hnd)
    as (HW & HA & HN).
  fold r in HW, HA, HN.
  destruct (open_new_get (timestamp slot) (data slot) (snd r) HN) as [HO HN2].
  fold A2 in HO, HN2.
  repeat split; [| |exact HN2].
  - intros n. rewrite HW. unfold closed, present.
    destruct (Dict.get A n); [|now destruct (mem_name n (map name (data slot)))].
    reflexivity.
  - intros n. rewrite HO, HA. unfold present.
    now destruct (mem_name n (map name (data slot))).
Qed.

(** The loop returns exactly when the closing instant exists, and then
    every load has the windows it had, followed by its trace. *)
Lemma windows_loop_trace h slots :
  slots <> [] ->
  forall W A,
    NoDup (Dict.keys A) ->
    match closing_instant h slots with
    | None => windows_loop h slots W A = None
    | Some e =>
        exists W', windows_loop h slots W A = Some W'
                   /\ forall n, Dict.get W' n
                                = extend (Dict.get W n) (trace n e slots (Dict.get A n))
    end.
Proof.
  induction slots as [|slot rest IH]; intros Hne W A Hnd; [congruence|].
  destruct (loop_body_get slot W A Hnd) as (HW & HA & HN).
  cbn [windows_loop].
  destruct (close_absent (timestamp slot) (map name (data slot)) W A) as [W1 A1] eqn:Ec.
  cbn [fst snd] in HW, HA, HN.
  destruct rest as [|slot' rest'].
  - unfold closing_instant, final_timestamp. cbn [last].
    destruct (Datetime.timedelta_hours h) as [d|]; [|reflexivity].
    destruct (Datetime.add (timestamp slot) d) as [e|]; [|reflexivity].
    eexists. split; [reflexivity|].
    intros n. rewrite close_all_get by assumption.
    rewrite HW, HA, extend_app. cbn [trace].
    destruct (present n slot); cbn [app]; rewrite ?app_nil_r; reflexivity.
  - rewrite closing_instant_cons.
    assert (Hne' : slot' :: rest' <> []) by discriminate.
    specialize (IH Hne' W1 (open_new (timestamp slot) (data slot) A1) HN).
    destruct (closing_instant h (slot' :: rest')) as [e|]; [|exact IH].
    destruct IH as (W' & HW' & Hget). exists W'. split; [exact HW'|].
    intros n. rewrite Hget, HW, HA, extend_app.
    change (trace n e (slot :: slot' :: rest') (Dict.get A n))
      with (if present n slot
            then trace n e (slot' :: rest')
                   (Some (match Dict.get A n with Some s => s | None => timestamp slot end))
            else (match Dict.get A n with Some s => [(s, timestamp slot)] | None => [] end
                  ++ trace n e (slot' :: rest') None)%list).
    now destruct (present n slot).
Qed.

(** *** What the trace of a load contains *)

Lemma trace_nonempty n e slots a :
  trace n e slots a <> []
  <-> a <> None \/ exists slot, In slot slots /\ present n slot = true.
Proof.
  revert a. induction slots as [|slot rest IH]; intros a; simpl.
  - destruct a as [s|]; split.
    + intros _. left. discriminate.
    + intros _. discriminate.
    + congruence.
    + intros [H|[slot [[] _]]]. congruence.
  - destruct (present n slot) eqn:Ep.
    + rewrite IH. split.
      * intros _. right. exists slot. auto.
      * intros _. left. discriminate.
    + split.
      * intros H. destruct a as [s|]; [left; discriminate|].
        simpl in H. apply IH in H. destruct H as [H|[x [Hin Hx]]]; [congruence|].
        right. exists x. auto.
      * intros [H|[x [[<-|Hin] Hx]]].
        -- destruct a; [discriminate|congruence].
        -- congruence.
        -- intros E. apply app_eq_nil in E. destruct E as [_ E]. revert E.
           apply IH. right. exists x. auto.
Qed.

Lemma trace_head n e slots s :
  exists y tl, trace n e slots (Some s) = (s, y) :: tl.
Proof.
  revert s. induction slots as [|slot rest IH]; intros s; simpl.
  - now exists e, [].
  - destruct (present n slot).
    + apply IH.
    + simpl. eauto.
Qed.

(** The hypotheses under which the trace is well formed: the slots to come
    are in strictly increasing order, all before the closing instant, and
    after the start of the open window. *)
Record ahead (e : datetime) (slots : list ScheduleSlot) (a : option datetime) : Prop := {
  ahead_sorted : StronglySorted ts_lt slots;
  ahead_end : forall slot, In slot slots -> timestamp slot < e;
  ahead_open : forall s, a = Some s -> s < e /\ forall slot, In slot slots -> s < timestamp slot
}.

Lemma ahead_present e slot rest a :
  ahead e (slot :: rest) a ->
  ahead e rest (Some (match a with Some s => s | None => timestamp slot end)).
Proof.
  intros [Hs He Ho]. inversion Hs as [|? ? Hs' Hall]; subst.
  rewrite Forall_forall in Hall. split.
  - exact Hs'.
  - intros x Hx. apply He. now right.
  - intros s [= <-]. destruct a as [s|].
    + destruct (Ho s eq_refl) as [H1 H2]. split; [exact H1|].
      intros x Hx. apply H2. now right.
    + split; [apply He; now left|]. intros x Hx. now apply Hall.
Qed.

Lemma ahead_absent e slot rest a :
  ahead e (slot :: rest) a -> ahead e rest None.
Proof.
  intros [Hs He Ho]. inversion Hs as [|? ? Hs' Hall]; subst. split.
  - exact Hs'.
  - intros x Hx. apply He. now right.
  - discriminate.
Qed.

(** Every window of the trace is a non-empty interval that starts at the
    start of the open window or at a later slot, and ends at a later slot
    or at [e]. *)
Lemma trace_bounds n e slots a :
  ahead e slots a ->
  forall w, In w (trace n e slots a) ->
    fst w < snd w
    /\ (a = Some (fst w) \/ exists slot, In slot slots /\ fst w = timestamp slot)
    /\ (snd w = e \/ exists slot, In slot slots /\ snd w = timestamp slot).
Proof.
  revert a. induction slots as [|slot rest IH]; intros a Ha w Hw; simpl in Hw.
  - destruct a as [s|]; [|contradiction]. destruct Hw as [<-|[]]. simpl.
    destruct (ahead_open _ _ _ Ha s eq_refl) as [H _]. auto.
  - destruct (present n slot).
    + destruct (IH _ (ahead_present _ _ _ _ Ha) w Hw) as (Hb & Hst & Hen).
      split; [exact Hb|]. split.
      * destruct Hst as [E|[x [Hx Ex]]].
        -- destruct a as [s|]; [left; exact E|].
           right. exists slot. split; [now left|congruence].
        -- right. exists x. split; [now right|exact Ex].
      * destruct Hen as [E|[x [Hx Ex]]]; [now left|].
        right. exists x. split; [now right|exact Ex].
    + apply in_app_or in Hw. destruct Hw as [Hw|Hw].
      * destruct a as [s|]; [|contradiction]. destruct Hw as [<-|[]]. simpl.
        destruct (ahead_open _ _ _ Ha s eq_refl) as [_ H].
        specialize (H slot (or_introl eq_refl)).
        split; [exact H|]. split; [now left|].
        right. exists slot. split; [now left|reflexivity].
      * destruct (IH _ (ahead_absent _ _ _ _ Ha) w Hw) as (Hb & Hst & Hen).
        split; [exact Hb|]. split.
        -- destruct Hst as [E|[x [Hx Ex]]]; [discriminate|].
           right. exists x. split; [now right|exact Ex].
        -- destruct Hen as [E|[x [Hx Ex]]]; [now left|].
           right. exists x. split; [now right|exact Ex].
Qed.

Lemma ahead_head_lt e slot rest a x :
  ahead e (slot :: rest) a -> In x rest -> timestamp slot < timestamp x.
Proof.
  intros [Hs _ _] Hx. inversion Hs as [|? ? _ Hall]; subst.
  rewrite Forall_forall in Hall. now apply Hall.
Qed.

Lemma trace_increasing n e slots a :
  ahead e slots a -> windows_increasing (trace n e slots a).
Proof.
  unfold windows_increasing.
  revert a. induction slots as [|slot rest IH]; intros a Ha; simpl.
  - destruct a; repeat constructor.
  - destruct (present n slot).
    + apply IH. eapply ahead_present; eauto.
    + pose proof (ahead_absent _ _ _ _ Ha) as Ha'.
      destruct a as [s|]; simpl; [|now apply IH].
      constructor; [now apply IH|].
      apply Forall_forall. intros w Hw.
      destruct (trace_bounds n e rest None Ha' w Hw) as (_ & Hst & _).
      destruct Hst as [E|[x [Hx Ex]]]; [discriminate|].
      pose proof (ahead_head_lt _ _ _ _ x Ha Hx).
      destruct (ahead_open _ _ _ Ha s eq_refl) as [_ H'].
      specialize (H' slot (or_introl eq_refl)). simpl. lia.
Qed.

Lemma trace_cover n e slots a :
  ahead e slots a -> windows_cover slots n (trace n e slots a).
Proof.
  unfold windows_cover.
  revert a. induction slots as [|slot rest IH]; intros a Ha x Hx; [contradiction|].
  simpl. destruct (present n slot) eqn:Ep.
  - pose proof (ahead_present _ _ _ _ Ha) as Ha'.
    destruct Hx as [<-|Hx]; [|now apply IH].
    rewrite Ep. split; [intros _|reflexivity].
    set (s' := match a with Some s => s | None => timestamp slot end) in *.
    destruct (trace_head n e rest s') as (y & tl & E).
    exists (s', y). rewrite E. split; [now left|]. simpl.
    assert (Hin : In (s', y) (trace n e rest (Some s'))) by (rewrite E; now left).
    destruct (trace_bounds n e rest _ Ha' _ Hin) as (_ & _ & Hen). simpl in Hen.
    assert (Hs' : s' <= timestamp slot).
    { unfold s'. destruct a as [s|]; [|lia].
      destruct (ahead_open _ _ _ Ha s eq_refl) as [_ H].
      specialize (H slot (or_introl eq_refl)). lia. }
    split; [exact Hs'|].
    destruct Hen as [->|[z [Hz ->]]].
    + apply (ahead_end _ _ _ Ha). now left.
    + eapply ahead_head_lt; eauto.
  - pose proof (ahead_absent _ _ _ _ Ha) as Ha'.
    destruct Hx as [<-|Hx].
    + rewrite Ep. split; [discriminate|].
      intros [w [Hw Hcov]]. exfalso.
      apply in_app_or in Hw. destruct Hw as [Hw|Hw].
      * destruct a as [s|]; [|contradiction]. destruct Hw as [<-|[]]. simpl in Hcov. lia.
      * destruct (trace_bounds n e rest None Ha' w Hw) as (_ & Hst & _).
        destruct Hst as [E|[z [Hz Ez]]]; [discriminate|].
        pose proof (ahead_head_lt _ _ _ _ z Ha Hz). lia.
    + rewrite (IH None Ha' x Hx). split.
      * intros [w [Hw Hcov]]. exists w. split; [apply in_or_app; now right|exact Hcov].
      * intros [w [Hw Hcov]]. apply in_app_or in Hw. destruct Hw as [Hw|Hw].
        -- exfalso. destruct a as [s|]; [|contradiction]. destruct Hw as [<-|[]].
           simpl in Hcov. pose proof (ahead_head_lt _ _ _ _ x Ha Hx). lia.
        -- exists w. auto.
Qed.

(** *** The window still open after the slots *)

Definition opened (n : string) (slot : ScheduleSlot) (a : option datetime) : option datetime :=
  if present n slot
  then Some (match a with Some s => s | None => timestamp slot end)
  else None.

Fixpoint active_after (n : string) (slots : list ScheduleSlot) (a : option datetime)
  : option datetime :=
  match slots with
  | [] => a
  | slot :: rest => active_after n rest (opened n slot a)
  end.

Fixpoint closed_of (n : string) (slots : list ScheduleSlot) (a : option datetime)
  : list window :=
  match slots with
  | [] => []
  | slot :: rest =>
      ((if present n slot then []
        else match a with Some s => [(s, timestamp slot)] | None => [] end)
       ++ closed_of n rest (opened n slot a))%list
  end.

Lemma trace_split n e slots a :
  trace n e slots a
  = (closed_of n slots a
     ++ match active_after n slots a with Some s => [(s, e)] | None => [] end)%list.
Proof.
  revert a. induction slots as [|slot rest IH]; intros a; simpl; [reflexivity|].
  unfold opened. destruct (present n slot); simpl.
  - apply IH.
  - now rewrite IH, app_assoc.
Qed.

Lemma active_after_app n l1 l2 a :
  active_after n (l1 ++ l2) a = active_after n l2 (active_after n l1 a).
Proof. revert a. induction l1 as [|x l1 IH]; intros a; simpl; [reflexivity|apply IH]. Qed.

Lemma closed_of_app n l1 l2 a :
  closed_of n (l1 ++ l2) a
  = (closed_of n l1 a ++ closed_of n l2 (active_after n l1 a))%list.
Proof.
  revert a. induction l1 as [|x l1 IH]; intros a; simpl; [reflexivity|].
  now rewrite IH, app_assoc.
Qed.

Lemma closed_of_ends n slots a w :
  In w (closed_of n slots a) ->
  exists slot, In slot slots /\ snd w = timestamp slot /\ present n slot = false.
Proof.
  revert a. induction slots as [|slot rest IH]; intros a Hw; simpl in Hw; [contradiction|].
  apply in_app_or in Hw. destruct Hw as [Hw|Hw].
  - destruct (present n slot) eqn:Ep; [contradiction|].
    destruct a as [s|]; [|contradiction]. destruct Hw as [<-|[]].
    exists slot. simpl. auto.
  - destruct (IH _ Hw) as (x & Hx & Hrest). exists x. split; [now right|exact Hrest].
Qed.

Lemma absent_throughout n slots :
  (forall slot, In slot slots -> present n slot = false) ->
  closed_of n slots None = [] /\ active_after n slots None = None.
Proof.
  induction slots as [|slot rest IH]; intros H; simpl; [auto|].
  unfold opened. rewrite (H slot (or_introl eq_refl)). simpl.
  apply IH. intros x Hx. apply H. now right.
Qed.

Lemma active_after_None n slots a :
  active_after n slots a = None ->
  (slots = [] /\ a = None)
  \/ exists b s_abs, slots = (b ++ [s_abs])%list /\ present n s_abs = false.
Proof.
  induction slots as [|x l _] using rev_ind; simpl.
  - auto.
  - rewrite active_after_app. simpl. unfold opened.
    destruct (present n x) eqn:Ep; [discriminate|]. intros _. right. eauto.
Qed.

Lemma active_after_run n slots st :
  active_after n slots None = Some st -> trailing_run n slots st.
Proof.
  revert st. induction slots as [|x l IH] using rev_ind; intros st; simpl; [discriminate|].
  rewrite active_after_app. simpl. unfold opened.
  destruct (present n x) eqn:Ep; [|discriminate].
  destruct (active_after n l None) as [s|] eqn:El; intros [= <-].
  - destruct (IH s eq_refl) as (before & s0 & after & -> & -> & Hall & Hb).
    exists before, s0, (after ++ [x])%list. repeat split.
    + now rewrite <- app_assoc.
    + change (s0 :: after ++ [x])%list with ((s0 :: after) ++ [x])%list.
      apply Forall_app. split; [exact Hall|]. now constructor.
    + exact Hb.
  - exists l, x, []. repeat split.
    + now constructor.
    + apply active_after_None in El. destruct El as [[-> _]|H]; auto.
Qed.

(** *** The builder on a whole schedule *)

Lemma final_timestamp_snoc pre final :
  final_timestamp (pre ++ [final]) = Some (timestamp final).
Proof.
  destruct pre as [|x pre]; [reflexivity|].
  cbn [app final_timestamp]. now rewrite last_last.
Qed.

Lemma final_timestamp_max slots t :
  StronglySorted ts_lt slots -> final_timestamp slots = Some t ->
  forall slot, In slot slots -> timestamp slot <= t.
Proof.
  induction slots as [|x l _] using rev_ind; [discriminate|].
  rewrite final_timestamp_snoc. intros Hs [= <-] slot Hin.
  apply in_app_or in Hin. destruct Hin as [Hin|[<-|[]]]; [|lia].
  induction l as [|y l IH]; [contradiction|].
  simpl in Hs. inversion Hs as [|? ? Hs' Hall]; subst.
  destruct Hin as [<-|Hin]; [|now apply IH].
  rewrite Forall_forall in Hall. specialize (Hall x). unfold ts_lt in Hall.
  assert (timestamp y < timestamp x) by (apply Hall, in_or_app; right; now left). lia.
Qed.

Lemma load_windows_trace payload :
  schedule payload <> [] ->
  match window_end payload with
  | None => load_windows_15m payload = None
  | Some e =>
      exists w, load_windows_15m payload = Some w
                /\ forall n, Dict.get w n = extend None (trace n e (schedule payload) None)
  end.
Proof.
  intros Hne. unfold window_end, load_windows_15m.
  apply (windows_loop_trace (_guess_slot_hours payload) (schedule payload) Hne [] []).
  constructor.
Qed.

Lemma extend_None_nonempty l : extend None l <> Some [].
Proof. destruct l; simpl; discriminate. Qed.

Lemma extend_None_default l :
  match extend None l with Some ws => ws | None => [] end = l.
Proof. now destruct l. Qed.

End WindowFacts.

(** ** Slot-interval inference *)

Lemma total_seconds_positive (d : Z) :
  0 < d -> Rounding.signed_nonzero false (Datetime.total_seconds d).
Proof.
  intros Hd. unfold Datetime.total_seconds. destruct d as [|p|p]; try lia.
  apply Rounding.of_quot_nonzero; [lia|reflexivity|reflexivity].
Qed.

Lemma total_seconds_test (d : Z) :
  B64.ltb B64.zero (Datetime.total_seconds d) = (0 <? d).
Proof.
  destruct (Z.ltb_spec 0 d) as [Hd|Hd].
  - now apply Rounding.positive_ltb, total_seconds_positive.
  - unfold Datetime.total_seconds. destruct d as [|p|p]; try lia; [reflexivity|].
    apply Rounding.negative_ltb, Rounding.of_quot_signed; [lia|reflexivity].
Qed.

Lemma total_seconds_not_nan (d : Z) : B64.is_nan (Datetime.total_seconds d) = false.
Proof.
  unfold Datetime.total_seconds. destruct d as [|p|p]; [reflexivity| |].
  - eapply Rounding.signed_not_nan, Rounding.of_quot_signed; [lia|reflexivity].
  - eapply Rounding.signed_not_nan, Rounding.of_quot_signed; [lia|reflexivity].
Qed.

(** The clamp: [max(q, 1e-9)] is at least [1e-9], hence positive, whenever
    [q] is not NaN. *)
Lemma clamp_positive (q : float) :
  B64.is_nan q = false ->
  B64.is_nan (py_max2 q B64.eps9) = false
  /\ B64.ltb B64.zero (py_max2 q B64.eps9) = true
  /\ B64.leb B64.eps9 (py_max2 q B64.eps9) = true.
Proof.
  intros Hq. unfold py_max2. destruct (B64.ltb q B64.eps9) eqn:E.
  - repeat split.
  - assert (Hle : B64.leb B64.eps9 q = true) by now apply B64Facts.not_ltb_leb.
    repeat split; trivial.
    apply B64Facts.ltb_rank; trivial.
    apply B64Facts.leb_rank in Hle; trivial.
    destruct (B64Facts.rank q) as [[a b] c]. simpl in *. lia.
Qed.


(** The gap between two datetimes is below [2^59] microseconds. *)
Lemma valid_gap (t0 t1 : Z) :
  Datetime.valid t0 -> Datetime.valid t1 -> t1 - t0 < 2 ^ 59.
Proof. unfold Datetime.valid. change Datetime.max_us with 315537897599999999. lia. Qed.

Lemma total_seconds_normal (d : Z) :
  0 < d < 2 ^ 59 -> Normal.normal_pos (-72) (-12) (Datetime.total_seconds d).
Proof.
  intros Hd. unfold Datetime.total_seconds. destruct d as [|p|p]; try lia.
  destruct (Rounding.Zdigits2_bounds (Zpos p) ltac:(lia)) as [Hd1 _].
  pose proof (Rounding.Zdigits2_le (Zpos p) 59 ltac:(lia) ltac:(lia) ltac:(lia)) as Hd2.
  pose proof (Normal.of_quot_normal (Zpos p) Datetime.US_PER_SECOND ltac:(lia) ltac:(reflexivity))
    as H.
  change (Zdigits2 Datetime.US_PER_SECOND) with 20 in H.
  eapply Normal.normal_pos_weaken; [apply H| |]; lia.
Qed.

(** On a schedule of datetimes the inferred slot duration is a positive
    whole number of microseconds: [timedelta(hours=slot_h)] does not
    raise. *)
Lemma slot_duration_positive (payload : OptimizationSchedule) :
  valid_schedule (schedule payload) ->
  exists d, slot_duration payload = Some d /\ 0 < d.
Proof.
  intros Hv. unfold slot_duration, _guess_slot_hours.
  destruct (schedule payload) as [|s0 [|s1 rest]]; simpl map; cbv iota.
  1, 2: exists 900000000; split; [reflexivity|lia].
  unfold Datetime.diff. rewrite total_seconds_test.
  destruct (Z.ltb_spec 0 (timestamp s1 - timestamp s0)) as [Hgap|Hgap];
    [|exists 900000000; split; [reflexivity|lia]].
  inversion Hv as [|? ? Hv0 Hv']; subst. inversion Hv' as [|? ? Hv1 _]; subst.
  pose proof (valid_gap _ _ Hv0 Hv1) as Hlt.
  pose proof (total_seconds_normal _ (conj Hgap Hlt)) as Hs.
  pose proof (Normal.div_normal _ _ _ _ _ Hs Normal.f3600_normal ltac:(lia) ltac:(lia)) as Hq.
  set (q := B64.div (Datetime.total_seconds (timestamp s1 - timestamp s0)) B64.f3600) in *.
  unfold py_max2. destruct (B64.ltb q B64.eps9) eqn:E.
  - exists 4. split; [reflexivity|lia].
  - apply Normal.timedelta_hours_normal.
    destruct Hq as (m & e & Eq & Hf & He).
    assert (Hnan : B64.is_nan q = false) by (rewrite Eq; reflexivity).
    pose proof (B64Facts.not_ltb_leb q B64.eps9 Hnan eq_refl E) as Hle.
    apply B64Facts.leb_rank in Hle; trivial.
    rewrite Eq in Hle. unfold B64.eps9, B64Facts.rank, B64Facts.lex_le in Hle.
    exists m, e. repeat split; try apply Hf; try exact Eq; lia.
Qed.

(** ** The value of a rounded result *)

Module Value.

Import Rounding Normal.

(** In the normal range the mantissa that rounding yields is the one cut
    to 53 digits, or the next one; [m2] is that mantissa before the
    carry into a 54th digit is absorbed by the exponent. *)
Lemma binary_round_aux_value (s : bool) (M E : Z) (l : location) :
  2 ^ 52 <= M ->
  -1074 <= E + Zdigits2 M - 53 ->
  E + Zdigits2 M - 52 <= 971 ->
  let n := Zdigits2 M - 53 in
  exists m e m2,
    binary_round_aux B64.prec B64.emax s M E l = S754_finite s m e
    /\ full (Zpos m)
    /\ M / 2 ^ n <= m2 <= M / 2 ^ n + 1
    /\ ((e = E + n /\ Zpos m = m2) \/ (e = E + n + 1 /\ 2 * Zpos m = m2)).
Proof.
  intros HM Hlo Hhi n0.
  assert (HM0 : 0 < M) by lia.
  pose proof (Zdigits2_gt M 52 ltac:(lia) HM) as HD.
  unfold binary_round_aux.
  destruct (shr_fexp_spec M E l ltac:(lia)) as [He1 Hm1].
  set (n := Z.max (Zdigits2 M + E - 53) (-1074) - E) in *.
  assert (En : n = Zdigits2 M - 53) by (unfold n; lia).
  destruct (shr_fexp B64.prec B64.emax M E l) as [mrs1 e1].
  injection He1 as He1. simpl in Hm1.
  assert (Ee1 : e1 = E + n0).
  { rewrite He1. unfold n0. destruct (Z.ltb_spec 0 n); lia. }
  assert (Em1 : shr_m mrs1 = M / 2 ^ n0).
  { rewrite Hm1. unfold n0. rewrite <- En. destruct (Z.ltb_spec 0 n) as [Hn|Hn]; [reflexivity|].
    replace n with 0 by lia. now rewrite Z.div_1_r. }
  assert (Hf1 : full (shr_m mrs1)).
  { rewrite Hm1. destruct (Z.ltb_spec 0 n) as [Hn|Hn].
    - apply digits_full.
      + apply Z.div_str_pos. split; [apply Z.pow_pos_nonneg; lia|].
        destruct (Zdigits2_bounds M HM0) as [_ [Hlo' _]].
        assert (2 ^ n <= 2 ^ (Zdigits2 M - 1)) by (apply Z.pow_le_mono_r; lia). lia.
      + rewrite Zdigits2_div_pow2 by lia. lia.
    - apply digits_full; [lia|]. lia. }
  pose proof (round_nearest_even_bounds (shr_m mrs1) (loc_of_shr_record mrs1)) as Hr.
  set (m2 := round_nearest_even (shr_m mrs1) (loc_of_shr_record mrs1)) in *.
  unfold full in Hf1.
  destruct (shr_fexp_spec m2 e1 loc_Exact ltac:(lia)) as [He2 Hm2].
  destruct (shr_fexp B64.prec B64.emax m2 e1 loc_Exact) as [mrs2 e2].
  injection He2 as He2. simpl in Hm2.
  destruct (Z_lt_le_dec m2 (2 ^ 53)) as [Hlt|Hge].
  - assert (Hd2 : Zdigits2 m2 = 53) by (apply full_digits; unfold full; lia).
    rewrite Hd2 in He2, Hm2.
    replace (0 <? Z.max (53 + e1 - 53) (-1074) - e1) with false in He2, Hm2
      by (symmetry; apply Z.ltb_ge; lia).
    rewrite Hm2. destruct m2 as [|p|p] eqn:Ep; try lia.
    replace (e2 <=? B64.emax - B64.prec) with true
      by (symmetry; apply Z.leb_le; unfold B64.emax, B64.prec; lia).
    exists p, e2, (Zpos p). split; [reflexivity|]. split; [unfold full; lia|].
    split; [rewrite <- Em1; lia|]. left. split; [lia|reflexivity].
  - assert (Em2 : m2 = 2 ^ 53) by lia.
    assert (Hd2 : Zdigits2 m2 = 54) by (rewrite Em2; reflexivity).
    rewrite Hd2 in He2, Hm2.
    replace (0 <? Z.max (54 + e1 - 53) (-1074) - e1) with true in He2, Hm2
      by (symmetry; apply Z.ltb_lt; lia).
    replace (Z.max (54 + e1 - 53) (-1074) - e1) with 1 in He2, Hm2 by lia.
    rewrite Hm2, Em2. change (2 ^ 53 / 2 ^ 1) with (Zpos (2 ^ 52)).
    replace (e2 <=? B64.emax - B64.prec) with true
      by (symmetry; apply Z.leb_le; unfold B64.emax, B64.prec; lia).
    exists (2 ^ 52)%positive, e2, (2 ^ 53). split; [reflexivity|].
    split; [unfold full; lia|]. split; [rewrite <- Em1; lia|].
    right. split; [lia|reflexivity].
Qed.

(** The quotient the division core hands to the rounding, and what it
    leaves out. *)
Lemma div_core_value (m1 e1 m2 e2 : Z) :
  0 < m1 -> 0 < m2 ->
  let X := Zdigits2 m1 + e1 - (Zdigits2 m2 + e2) in
  -1074 <= X - 53 -> X - 53 <= e1 - e2 ->
  exists q l,
    SFdiv_core_binary B64.prec B64.emax m1 e1 m2 e2 = (q, X - 53, l)
    /\ 2 ^ 52 <= q < 2 ^ 54
    /\ q * m2 <= m1 * 2 ^ (e1 - e2 - (X - 53)) < (q + 1) * m2.
Proof.
  intros H1 H2 X HXlo HXhi. unfold SFdiv_core_binary. rewrite fexp64. fold X.
  replace (Z.min (Z.max (X - 53) (-1074)) (e1 - e2)) with (X - 53) by lia.
  set (s := e1 - e2 - (X - 53)).
  set (m' := match s with Zpos _ => Z.shiftl m1 s | Z0 => m1 | Zneg _ => 0 end).
  assert (Hs : 0 <= s) by (unfold s; lia).
  assert (Em' : m' = m1 * 2 ^ s).
  { unfold m'. clearbody s. clear m'. destruct s; try lia.
    now rewrite Z.shiftl_mul_pow2 by lia. }
  destruct (Zdigits2_bounds m1 H1) as [Hd1 [Hlo1 Hhi1]].
  destruct (Zdigits2_bounds m2 H2) as [Hd2 [Hlo2 Hhi2]].
  assert (Es : s = 53 - Zdigits2 m1 + Zdigits2 m2) by (unfold s, X; lia).
  assert (Hps : 0 < 2 ^ s) by (apply Z.pow_pos_nonneg; lia).
  assert (Hq : 2 ^ 52 <= m' / m2 < 2 ^ 54).
  { split.
    - apply Z.div_le_lower_bound; [lia|].
      assert (E : 2 ^ (Zdigits2 m1 - 1) * 2 ^ s = 2 ^ Zdigits2 m2 * 2 ^ 52).
      { rewrite <- !Z.pow_add_r by lia. f_equal. lia. }
      rewrite Em'. nia.
    - apply Z.div_lt_upper_bound; [lia|].
      assert (E : 2 ^ Zdigits2 m1 * 2 ^ s = 2 ^ (Zdigits2 m2 - 1) * 2 ^ 54).
      { rewrite <- !Z.pow_add_r by lia. f_equal. lia. }
      rewrite Em'. nia. }
  pose proof (Z.div_mod m' m2 ltac:(lia)) as Hdm.
  pose proof (Z.mod_pos_bound m' m2 H2) as Hr.
  unfold Z.div, Z.modulo in Hq, Hdm, Hr. destruct (Z.div_eucl m' m2) as [q r].
  eexists q, _. split; [reflexivity|]. split; [exact Hq|].
  rewrite <- Em'. nia.
Qed.

End Value.

(** ** Rounding errors, on the reals *)

Module Approx.

Import Reals Lra Rounding Normal.
Local Open Scope R_scope.

(** The real number [m * 2^e]. *)
Definition F2R (m e : Z) : R := IZR m * powerRZ 2 e.

Lemma pow2_pos (e : Z) : 0 < powerRZ 2 e.
Proof. apply powerRZ_lt. lra. Qed.

Lemma pow2_add (a b : Z) : powerRZ 2 (a + b) = powerRZ 2 a * powerRZ 2 b.
Proof. apply powerRZ_add. lra. Qed.

Lemma pow2_IZR (n : Z) : (0 <= n)%Z -> powerRZ 2 n = IZR (2 ^ n).
Proof.
  intros Hn. rewrite <- (Z2Nat.id n Hn) at 1.
  rewrite <- pow_powerRZ, pow_IZR. now rewrite Z2Nat.id.
Qed.

Lemma F2R_scale (m e n : Z) : (0 <= n)%Z -> F2R (m * 2 ^ n) e = F2R m (e + n).
Proof.
  intros Hn. unfold F2R. rewrite mult_IZR, <- pow2_IZR, pow2_add by assumption. ring.
Qed.

Lemma F2R_le (a b e : Z) : (a <= b)%Z -> F2R a e <= F2R b e.
Proof.
  intros H. unfold F2R. apply Rmult_le_compat_r; [left; apply pow2_pos|now apply IZR_le].
Qed.

Lemma F2R_succ (a e : Z) : F2R (a + 1) e = F2R a e + powerRZ 2 e.
Proof. unfold F2R. rewrite plus_IZR. ring. Qed.

(** A full mantissa is at least [2^52] units of the last place. *)
Lemma F2R_full (m e : Z) : full m -> powerRZ 2 e * 4503599627370496 <= F2R m e.
Proof.
  intros [Hlo _]. unfold F2R. apply IZR_le in Hlo.
  change (2 ^ 52)%Z with 4503599627370496%Z in Hlo.
  pose proof (pow2_pos e). nra.
Qed.

(** Rounding in the normal range: the result is within one unit of the
    last place, so within [2^-52] of itself, of every real number between
    the mantissa given and the next one. *)
Lemma round_R (M E : Z) (l : location) (x : R) :
  (2 ^ 52 <= M)%Z ->
  (-1074 <= E + Zdigits2 M - 53)%Z ->
  (E + Zdigits2 M - 52 <= 971)%Z ->
  F2R M E <= x < F2R (M + 1) E ->
  exists m e,
    binary_round_aux B64.prec B64.emax false M E l = S754_finite false m e
    /\ full (Zpos m)
    /\ Rabs (F2R (Zpos m) e - x) <= F2R (Zpos m) e / 4503599627370496.
Proof.
  intros HM Hlo Hhi Hx.
  destruct (Value.binary_round_aux_value false M E l HM Hlo Hhi)
    as (m & e & m2 & Hbra & Hf & Hm2 & Hcase).
  exists m, e. split; [exact Hbra|]. split; [exact Hf|].
  pose proof (Zdigits2_gt M 52 ltac:(lia) HM) as HD.
  set (n := (Zdigits2 M - 53)%Z) in *.
  assert (Hn : (0 <= n)%Z) by (unfold n; lia).
  set (e1 := (E + n)%Z) in *. set (m1 := (M / 2 ^ n)%Z) in *.
  assert (Hpn : (0 < 2 ^ n)%Z) by (apply Z.pow_pos_nonneg; lia).
  pose proof (Z.mul_div_le M (2 ^ n) Hpn) as Hd1.
  pose proof (Z.mul_succ_div_gt M (2 ^ n) Hpn) as Hd2. fold m1 in Hd1, Hd2.
  assert (Evalue : F2R (Zpos m) e = F2R m2 e1).
  { destruct Hcase as [[-> ->]|[-> <-]]; [reflexivity|].
    unfold F2R. rewrite mult_IZR, pow2_add. simpl (powerRZ 2 1). ring. }
  assert (Hulp : powerRZ 2 e1 * 4503599627370496 <= F2R (Zpos m) e).
  { destruct Hcase as [[-> _]|[-> _]]; [now apply F2R_full|].
    pose proof (F2R_full (Zpos m) (e1 + 1) Hf) as H.
    rewrite pow2_add in H. simpl (powerRZ 2 1) in H.
    pose proof (pow2_pos e1). lra. }
  assert (HloM : F2R m1 e1 <= F2R M E).
  { unfold e1. rewrite <- F2R_scale by assumption. apply F2R_le. lia. }
  assert (HhiM : F2R (M + 1) E <= F2R (m1 + 1) e1).
  { unfold e1. rewrite <- (F2R_scale (m1 + 1)) by assumption. apply F2R_le. lia. }
  pose proof (F2R_le m1 m2 e1 ltac:(lia)) as H1.
  pose proof (F2R_le m2 (m1 + 1) e1 ltac:(lia)) as H2.
  rewrite (F2R_succ m1 e1) in HhiM, H2.
  rewrite Evalue in *. apply Rabs_le. lra.
Qed.

Lemma quot_between (q n d s E : Z) :
  (0 < d)%Z -> (0 <= s)%Z -> (q * d <= n * 2 ^ s < (q + 1) * d)%Z ->
  F2R q E <= IZR n / IZR d * powerRZ 2 (E + s) < F2R (q + 1) E.
Proof.
  intros Hd Hs [H1 H2].
  apply IZR_le in H1. apply IZR_lt in H2.
  rewrite !mult_IZR, <- pow2_IZR in H1, H2 by assumption. rewrite plus_IZR in H2.
  assert (Hd' : 0 < IZR d) by (apply IZR_lt; lia).
  pose proof (pow2_pos E) as HE.
  rewrite pow2_add. unfold F2R. rewrite plus_IZR.
  set (B := powerRZ 2 s) in *. set (A := powerRZ 2 E) in *.
  set (x := IZR n / IZR d).
  assert (Hx : x * IZR d = IZR n) by (unfold x; field; lra).
  assert (Hq1 : IZR q <= x * B).
  { apply Rmult_le_reg_r with (IZR d); [exact Hd'|].
    replace (x * B * IZR d) with (IZR n * B) by (rewrite <- Hx; ring). exact H1. }
  assert (Hq2 : x * B < IZR q + 1).
  { apply Rmult_lt_reg_r with (IZR d); [exact Hd'|].
    replace (x * B * IZR d) with (IZR n * B) by (rewrite <- Hx; ring). exact H2. }
  replace (x * (A * B)) with (x * B * A) by ring. split.
  - apply Rmult_le_compat_r; lra.
  - apply Rmult_lt_compat_r; lra.
Qed.

Lemma pow2_sub (a b : Z) : powerRZ 2 (a - b) = powerRZ 2 a / powerRZ 2 b.
Proof.
  pose proof (pow2_pos b) as Hb.
  replace a with (a - b + b)%Z at 2 by lia. rewrite pow2_add. field. lra.
Qed.

(** The quotient of two whole numbers, of two doubles, and the product of
    two doubles are within [2^-52] of themselves of the exact results. *)
Lemma of_quot_R (n d : Z) :
  (0 < n)%Z -> (0 < d)%Z ->
  (-1021 <= Zdigits2 n - Zdigits2 d <= 53)%Z ->
  exists m e,
    B64.of_quot false n d = S754_finite false m e
    /\ full (Zpos m)
    /\ Rabs (F2R (Zpos m) e - IZR n / IZR d) <= F2R (Zpos m) e / 4503599627370496.
Proof.
  intros Hn Hd HX. unfold B64.of_quot. destruct n as [|p|p]; try lia.
  destruct (Value.div_core_value (Zpos p) 0 d 0 Hn Hd) as (q & l & -> & Hq & Hqd); try lia.
  set (X := (Zdigits2 (Zpos p) + 0 - (Zdigits2 d + 0))%Z) in *.
  pose proof (Zdigits2_gt q 52 ltac:(lia) ltac:(lia)) as Hd1.
  pose proof (Zdigits2_le q 54 ltac:(lia) ltac:(lia) ltac:(lia)) as Hd2.
  apply round_R; try (unfold X in *; lia).
  pose proof (quot_between q (Zpos p) d (0 - 0 - (X - 53)) (X - 53) Hd
                ltac:(unfold X; lia) Hqd) as H.
  replace (X - 53 + (0 - 0 - (X - 53)))%Z with 0%Z in H by lia.
  simpl (powerRZ 2 0) in H. rewrite Rmult_1_r in H. exact H.
Qed.

Lemma div_R (mx my : positive) (ex ey : Z) :
  full (Zpos mx) -> full (Zpos my) ->
  (-1021 <= ex - ey)%Z -> (ex - ey <= 953)%Z ->
  exists m e,
    B64.div (S754_finite false mx ex) (S754_finite false my ey) = S754_finite false m e
    /\ full (Zpos m)
    /\ Rabs (F2R (Zpos m) e - F2R (Zpos mx) ex / F2R (Zpos my) ey)
       <= F2R (Zpos m) e / 4503599627370496.
Proof.
  intros Hfx Hfy Hlo Hhi. unfold B64.div, SFdiv.
  pose proof (full_digits _ Hfx) as Hdx. pose proof (full_digits _ Hfy) as Hdy.
  destruct (Value.div_core_value (Zpos mx) ex (Zpos my) ey) as (q & l & -> & Hq & Hqd);
    rewrite ?Hdx, ?Hdy; try lia.
  rewrite Hdx, Hdy in Hqd.
  replace (53 + ex - (53 + ey) - 53)%Z with (ex - ey - 53)%Z in * by lia.
  replace (ex - ey - (ex - ey - 53))%Z with 53%Z in Hqd by lia.
  cbv iota beta. simpl xorb.
  pose proof (Zdigits2_gt q 52 ltac:(lia) ltac:(lia)) as Hd1.
  pose proof (Zdigits2_le q 54 ltac:(lia) ltac:(lia) ltac:(lia)) as Hd2.
  apply round_R; try lia.
  pose proof (quot_between q (Zpos mx) (Zpos my) 53 (ex - ey - 53) ltac:(lia) ltac:(lia) Hqd)
    as H.
  replace (ex - ey - 53 + 53)%Z with (ex - ey)%Z in H by lia.
  replace (F2R (Zpos mx) ex / F2R (Zpos my) ey)
    with (IZR (Zpos mx) / IZR (Zpos my) * powerRZ 2 (ex - ey)); [exact H|].
  unfold F2R. rewrite pow2_sub. pose proof (pow2_pos ey).
  assert (0 < IZR (Zpos my)) by (apply IZR_lt; lia). field. lra.
Qed.

Lemma mul_R (mx my : positive) (ex ey : Z) :
  full (Zpos mx) -> full (Zpos my) ->
  (-1074 <= ex + ey + 52)%Z -> (ex + ey + 54 <= 971)%Z ->
  exists m e,
    B64.mul (S754_finite false mx ex) (S754_finite false my ey) = S754_finite false m e
    /\ full (Zpos m)
    /\ Rabs (F2R (Zpos m) e - F2R (Zpos mx) ex * F2R (Zpos my) ey)
       <= F2R (Zpos m) e / 4503599627370496.
Proof.
  intros Hfx Hfy Hlo Hhi. unfold B64.mul, SFmul. simpl xorb.
  unfold full in Hfx, Hfy.
  assert (HM : (2 ^ 104 <= Zpos (mx * my) < 2 ^ 106)%Z).
  { rewrite Pos2Z.inj_mul.
    change (2 ^ 104)%Z with (2 ^ 52 * 2 ^ 52)%Z.
    change (2 ^ 106)%Z with (2 ^ 53 * 2 ^ 53)%Z. nia. }
  pose proof (Zdigits2_gt (Zpos (mx * my)) 104 ltac:(lia) ltac:(lia)).
  pose proof (Zdigits2_le (Zpos (mx * my)) 106 ltac:(lia) ltac:(lia) ltac:(lia)).
  apply round_R; try lia.
  replace (F2R (Zpos mx) ex * F2R (Zpos my) ey) with (F2R (Zpos (mx * my)) (ex + ey)).
  - rewrite F2R_succ. pose proof (pow2_pos (ex + ey)). lra.
  - unfold F2R. rewrite Pos2Z.inj_mul, mult_IZR, pow2_add. ring.
Qed.

(** Two whole numbers less than one apart are equal. *)
Lemma IZR_near (a b : Z) : Rabs (IZR a - IZR b) < 1 -> a = b.
Proof.
  intros H. rewrite <- minus_IZR in H.
  destruct (Rabs_def2 _ _ H) as [H1 H2].
  apply lt_IZR in H1. apply (lt_IZR (-1)) in H2. lia.
Qed.

End Approx.

(** ** The slot duration is the gap between the first two timestamps *)

Module GapFacts.

Import Reals Lra Rounding Normal Approx.

Lemma Rabs_bounds (x y : R) : (Rabs x <= y -> - y <= x <= y)%R.
Proof. unfold Rabs. destruct (Rcase_abs x); lra. Qed.

Lemma F2R_neg (m k : Z) : 0 <= k -> F2R m (- k) = (IZR m / IZR (2 ^ k))%R.
Proof.
  intros Hk. unfold F2R. rewrite <- pow2_IZR by assumption.
  replace (- k) with (0 - k) by lia. rewrite pow2_sub. simpl (powerRZ 2 0).
  pose proof (pow2_pos k). field. lra.
Qed.

Lemma pow2_ge_1 (e : Z) : 0 <= e -> (1 <= powerRZ 2 e)%R.
Proof.
  intros He. rewrite pow2_IZR by assumption. apply IZR_le.
  assert (0 < 2 ^ e) by (apply Z.pow_pos_nonneg; lia). lia.
Qed.

(** Rounding a whole number and a fraction [num / den] below one to the
    nearest whole number, the even one at a tie, as [timedelta] does with
    the microseconds. *)
Lemma nearest_microsecond (y num den : Z) :
  0 <= num < den ->
  let r := if num =? 0 then y
           else match 2 * num ?= den with
                | Lt => y
                | Gt => y + 1
                | Eq => if Z.odd y then y + 1 else y
                end in
  (Rabs (IZR r - (IZR y + IZR num / IZR den)) <= 1 / 2)%R.
Proof.
  intros [Hn Hd] r.
  assert (Hden : (0 < IZR den)%R) by (apply IZR_lt; lia).
  set (t := (IZR num / IZR den)%R).
  assert (Ht : (t * IZR den = IZR num)%R) by (unfold t; field; lra).
  assert (Ht0 : (0 <= t)%R).
  { apply Rmult_le_reg_r with (IZR den); [exact Hden|]. rewrite Ht, Rmult_0_l.
    now apply IZR_le. }
  assert (Hcases : (r = y /\ 2 * t <= 1)%R \/ (r = y + 1 /\ (1 <= 2 * t)%R /\ (t < 1)%R)).
  { assert (Ht1 : (t < 1)%R).
    { apply Rmult_lt_reg_r with (IZR den); [exact Hden|]. rewrite Ht, Rmult_1_l.
      now apply IZR_lt. }
    unfold r. destruct (Z.eqb_spec num 0) as [E0|Hne].
    - left. split; [reflexivity|]. 
      assert (t = 0)%R; [|lra].
      apply Rmult_eq_reg_r with (IZR den); [|lra]. rewrite Ht, E0. lra.
    - destruct (Z.compare_spec (2 * num) den) as [Ec|Ec|Ec].
      + assert (E2 : (2 * t = 1)%R).
        { apply Rmult_eq_reg_r with (IZR den); [|lra].
          replace (2 * t * IZR den)%R with (2 * IZR num)%R by (rewrite <- Ht; ring).
          rewrite <- Ec, mult_IZR. lra. }
        destruct (Z.odd y); [right|left]; repeat split; lra.
      + left. split; [reflexivity|].
        apply Rmult_le_reg_r with (IZR den); [exact Hden|].
        replace (2 * t * IZR den)%R with (2 * IZR num)%R by (rewrite <- Ht; ring).
        rewrite Rmult_1_l. apply IZR_lt in Ec. rewrite mult_IZR in Ec. lra.
      + right. split; [reflexivity|]. split; [|exact Ht1].
        apply Rmult_le_reg_r with (IZR den); [exact Hden|].
        replace (2 * t * IZR den)%R with (2 * IZR num)%R by (rewrite <- Ht; ring).
        rewrite Rmult_1_l. apply IZR_lt in Ec. rewrite mult_IZR in Ec. lra. }
  apply Rabs_le.
  destruct Hcases as [[-> H2]|[-> [H2 H3]]]; rewrite ?plus_IZR; lra.
Qed.

Lemma f3600_value : F2R 7916483719987200 (-41) = 3600%R.
Proof.
  change 7916483719987200 with (3600 * 2 ^ 41). rewrite F2R_scale by lia.
  unfold F2R. simpl. lra.
Qed.

Lemma us_per_hour_value : F2R 7549747200000000 (-21) = 3600000000%R.
Proof.
  change 7549747200000000 with (3600000000 * 2 ^ 21). rewrite F2R_scale by lia.
  unfold F2R. simpl. lra.
Qed.

(** The hours inferred from a gap of [g] microseconds, [4 <= g <= 2^45]:
    a double [h] above [1e-9] with [3.6e9 * h] within a hundredth of a
    microsecond of [g]. *)
Lemma gap_hours (g : Z) :
  4 <= g <= 2 ^ 45 ->
  exists mh kh,
    py_max2 (B64.div (Datetime.total_seconds g) B64.f3600) B64.eps9
    = S754_finite false mh (Zneg kh)
    /\ full (Zpos mh) /\ 22 <= Zpos kh <= 84
    /\ (Rabs (3600000000 * F2R (Zpos mh) (Zneg kh) - IZR g) <= 1 / 50)%R.
Proof.
  intros Hg.
  assert (Hpos : 0 < g) by lia.
  destruct (Zdigits2_bounds g Hpos) as [Hd0 _].
  pose proof (Zdigits2_le g 46 Hpos ltac:(lia) ltac:(lia)) as Hd46.
  destruct (of_quot_R g 1000000) as (ms & es & Es & Hfs & HS);
    [lia|lia|change (Zdigits2 1000000) with 20; lia|].
  assert (Hts : Datetime.total_seconds g = S754_finite false ms es).
  { unfold Datetime.total_seconds. destruct g; try lia. exact Es. }
  destruct (total_seconds_normal g ltac:(lia)) as (ms' & es' & Ets' & _ & Hes).
  rewrite Hts in Ets'. injection Ets' as <- <-.
  destruct (div_R ms 7916483719987200 es (-41)) as (mh & eh & Eh & Hfh & HH);
    [exact Hfs|unfold full; lia|lia|lia|].
  assert (Heh : -84 <= eh <= -22).
  { assert (Hn : normal_pos es es (S754_finite false ms es))
      by (exists ms, es; repeat split; try apply Hfs; lia).
    destruct (div_normal es es _ _ (-41) Hn f3600_normal ltac:(lia) ltac:(lia))
      as (m' & e' & E' & _ & He').
    unfold B64.f3600 in E'. rewrite Eh in E'. injection E' as <- <-. lia. }
  rewrite f3600_value in HH.
  set (S := F2R (Zpos ms) es) in *. set (H := F2R (Zpos mh) eh) in *.
  apply Rabs_bounds in HS, HH.
  assert (HG : (4 <= IZR g <= 35184372088832)%R).
  { split; [apply (IZR_le 4)|apply (IZR_le g (2 ^ 45))]; lia. }
  assert (Hbig : (11 / 10000000000 <= H)%R) by lra.
  assert (Hnear : (Rabs (3600000000 * H - IZR g) <= 1 / 50)%R) by (apply Rabs_le; lra).
  rewrite Hts. unfold B64.f3600. rewrite Eh.
  assert (Hltb : B64.ltb (S754_finite false mh eh) B64.eps9 = false).
  { destruct (B64.ltb (S754_finite false mh eh) B64.eps9) eqn:E; [|reflexivity].
    exfalso. apply B64Facts.ltb_rank in E; [|reflexivity|reflexivity].
    unfold B64.eps9, B64Facts.rank, B64Facts.lex_lt in E.
    unfold full in Hfh.
    assert (Hm : (IZR (Zpos mh) < 9007199254740992)%R) by (apply (IZR_lt _ (2 ^ 53)); lia).
    assert (Hm0 : (0 < IZR (Zpos mh))%R) by (apply IZR_lt; lia).
    assert (Hcase : eh = -84 \/ eh = -83 \/ (eh = -82 /\ Zpos mh < 4835703278458517))
      by lia.
    destruct Hcase as [->|[->|[-> Hlt]]]; unfold H in Hbig.
    - rewrite (F2R_neg _ 84) in Hbig by lia.
      change (2 ^ 84) with 19342813113834066795298816 in Hbig. lra.
    - rewrite (F2R_neg _ 83) in Hbig by lia.
      change (2 ^ 83) with 9671406556917033397649408 in Hbig. lra.
    - rewrite (F2R_neg _ 82) in Hbig by lia.
      change (2 ^ 82) with 4835703278458516698824704 in Hbig.
      apply IZR_lt in Hlt. lra. }
  unfold py_max2. rewrite Hltb.
  destruct eh as [|p|kh]; try lia.
  exists mh, kh. repeat split; try apply Hfh; try lia. exact Hnear.
Qed.

(** [timedelta(hours=h)] is the whole number of microseconds nearest to
    [3.6e9 * h]: when that product is within a hundredth of the whole
    number [g], the duration is [g]. *)
Lemma timedelta_hours_near (mh kh : positive) (g : Z) :
  full (Zpos mh) -> 22 <= Zpos kh <= 84 -> 0 < g < 2 ^ 46 ->
  (Rabs (3600000000 * F2R (Zpos mh) (Zneg kh) - IZR g) <= 1 / 50)%R ->
  Datetime.timedelta_hours (S754_finite false mh (Zneg kh)) = Some g.
Proof.
  intros Hf Hk Hg Hnear. rewrite timedelta_hours_eq. unfold full in Hf.
  assert (Hpk : 0 < 2 ^ Zpos kh) by (apply Z.pow_pos_nonneg; lia).
  set (ip := Zpos mh / 2 ^ Zpos kh).
  set (fnum := Zpos mh mod 2 ^ Zpos kh).
  pose proof (Z.mod_pos_bound (Zpos mh) (2 ^ Zpos kh) Hpk) as Hfn. fold fnum in Hfn.
  pose proof (Z.div_mod (Zpos mh) (2 ^ Zpos kh) ltac:(lia)) as Hdm. fold ip fnum in Hdm.
  assert (Hip : 0 <= ip) by (apply Z.div_pos; lia).
  assert (Hden : (0 < IZR (2 ^ Zpos kh))%R) by (apply IZR_lt; lia).
  set (F := (IZR fnum / IZR (2 ^ Zpos kh))%R).
  assert (EH : F2R (Zpos mh) (Zneg kh) = (IZR ip + F)%R).
  { change (Zneg kh) with (- Zpos kh). rewrite F2R_neg by lia.
    rewrite Hdm at 1. rewrite plus_IZR, mult_IZR. unfold F. field. lra. }
  assert (HF : (0 <= F < 1)%R).
  { unfold F. split.
    - apply Rmult_le_reg_r with (IZR (2 ^ Zpos kh)); [exact Hden|].
      replace (IZR fnum / IZR (2 ^ Zpos kh) * IZR (2 ^ Zpos kh))%R with (IZR fnum)
        by (field; lra).
      rewrite Rmult_0_l. apply IZR_le. lia.
    - apply Rmult_lt_reg_r with (IZR (2 ^ Zpos kh)); [exact Hden|].
      replace (IZR fnum / IZR (2 ^ Zpos kh) * IZR (2 ^ Zpos kh))%R with (IZR fnum)
        by (field; lra).
      rewrite Rmult_1_l. apply IZR_lt. lia. }
  rewrite EH in Hnear. apply Rabs_bounds in Hnear.
  assert (HG : (0 < IZR g < 70368744177664)%R).
  { split; [apply (IZR_lt 0)|apply (IZR_lt g (2 ^ 46))]; lia. }
  cbv zeta. unfold Datetime.US_PER_HOUR.
  destruct (Z.eqb_spec fnum 0) as [E0|Hne].
  - assert (Eg : ip * 3600000000 = g).
    { apply IZR_near. rewrite mult_IZR. apply Rabs_def1.
      + assert (F = 0)%R by (unfold F; rewrite E0; field; lra). lra.
      + assert (F = 0)%R by (unfold F; rewrite E0; field; lra). lra. }
    rewrite Eg, delta_in_range_small by lia. reflexivity.
  - destruct fnum as [|f|f] eqn:Ef; try lia.
    assert (Hdf : 1 <= Zdigits2 (Zpos f) <= 53 /\ Zdigits2 (Zpos f) <= Zpos kh).
    { destruct (Zdigits2_bounds (Zpos f) ltac:(lia)) as [Hb0 _].
      pose proof (Zdigits2_le (Zpos f) 53 ltac:(lia) ltac:(lia) ltac:(lia)).
      pose proof (Zdigits2_le (Zpos f) (Zpos kh) ltac:(lia) ltac:(lia) ltac:(lia)). lia. }
    assert (Enorm : binary_normalize B64.prec B64.emax (Zpos f) (Zneg kh) false
                    = B64.dyadic (Zpos f) (Zneg kh)).
    { pose proof (Exact.binary_normalize_dy (Zpos f) 0 (Zneg kh)) as E.
      rewrite Z.mul_1_r, Z.sub_0_r in E. apply E; unfold Exact.fits; lia. }
    rewrite Enorm.
    destruct (Exact.dy_finite (Zpos f) (Zneg kh) ltac:(lia) ltac:(unfold Exact.fits; lia))
      as (Mf & EMf & EMv & HfM).
    rewrite EMf. unfold B64.us_per_hour_f.
    set (ef := Zneg kh - (53 - Zdigits2 (Zpos f))) in *.
    destruct (mul_R 7549747200000000 Mf (-21) ef) as (mp & ep & Ep & Hfp & HP);
      [unfold full; lia|exact HfM|unfold ef; lia|unfold ef; lia|].
    rewrite Ep.
    assert (EF : F2R (Zpos Mf) ef = F).
    { rewrite EMv. unfold ef. rewrite F2R_scale by lia.
      replace (Zneg kh - (53 - Zdigits2 (Zpos f)) + (53 - Zdigits2 (Zpos f)))
        with (- Zpos kh) by lia.
      rewrite F2R_neg by lia. reflexivity. }
    rewrite us_per_hour_value, EF in HP. apply Rabs_bounds in HP.
    set (P := F2R (Zpos mp) ep) in *.
    assert (Hep : ep < 0).
    { destruct (Z_lt_le_dec ep 0) as [Hlt|Hge]; [exact Hlt|exfalso].
      pose proof (F2R_full (Zpos mp) ep Hfp) as Hfull. fold P in Hfull.
      pose proof (pow2_ge_1 ep Hge). lra. }
    destruct ep as [|pp|kp]; try lia.
    assert (Hpkp : 0 < 2 ^ Zpos kp) by (apply Z.pow_pos_nonneg; lia).
    cbn [B64.trunc B64.frac cond_Zopp].
    set (ip2 := Zpos mp / 2 ^ Zpos kp).
    set (num := Zpos mp mod 2 ^ Zpos kp).
    pose proof (Z.mod_pos_bound (Zpos mp) (2 ^ Zpos kp) Hpkp) as Hnum. fold num in Hnum.
    pose proof (Z.div_mod (Zpos mp) (2 ^ Zpos kp) ltac:(lia)) as Hdm2. fold ip2 num in Hdm2.
    assert (Hden2 : (0 < IZR (2 ^ Zpos kp))%R) by (apply IZR_lt; lia).
    assert (EP : P = (IZR ip2 + IZR num / IZR (2 ^ Zpos kp))%R).
    { unfold P. change (Zneg kp) with (- Zpos kp). rewrite F2R_neg by lia.
      rewrite Hdm2 at 1. rewrite plus_IZR, mult_IZR. field. lra. }
    pose proof (nearest_microsecond (ip * 3600000000 + ip2) num (2 ^ Zpos kp) Hnum) as Hr.
    cbv zeta in Hr.
    set (r := if num =? 0 then ip * 3600000000 + ip2
              else match 2 * num ?= 2 ^ Zpos kp with
                   | Lt => ip * 3600000000 + ip2
                   | Gt => ip * 3600000000 + ip2 + 1
                   | Eq => if Z.odd (ip * 3600000000 + ip2)
                           then ip * 3600000000 + ip2 + 1
                           else ip * 3600000000 + ip2
                   end) in *.
    assert (Eg : r = g).
    { apply IZR_near. apply Rabs_bounds in Hr.
      rewrite plus_IZR, mult_IZR in Hr. apply Rabs_def1; lra. }
    rewrite Eg, delta_in_range_small by lia. reflexivity.
Qed.

(** A gap of 4 microseconds to [2^45] microseconds (more than a year)
    between the first two timestamps is the slot duration. *)
Lemma gap_kept (g : Z) :
  4 <= g <= 2 ^ 45 ->
  Datetime.timedelta_hours
    (py_max2 (B64.div (Datetime.total_seconds g) B64.f3600) B64.eps9) = Some g.
Proof.
  intros Hg. destruct (gap_hours g Hg) as (mh & kh & -> & Hf & Hk & Hnear).
  apply timedelta_hours_near; trivial. lia.
Qed.

End GapFacts.

(** The slot duration by cases on the first gap. *)
Lemma slot_duration_gap (payload : OptimizationSchedule) (g : Z) :
  first_gap (schedule payload) = Some g -> 0 < g ->
  slot_duration payload
  = Datetime.timedelta_hours
      (py_max2 (B64.div (Datetime.total_seconds g) B64.f3600) B64.eps9).
Proof.
  intros Hg Hpos. unfold slot_duration, _guess_slot_hours.
  destruct (schedule payload) as [|s0 [|s1 rest]]; try discriminate.
  simpl in Hg. injection Hg as <-. simpl map. cbv iota zeta.
  rewrite total_seconds_test.
  destruct (Z.ltb_spec 0 (Datetime.diff (timestamp s1) (timestamp s0))); [reflexivity|lia].
Qed.

Lemma slot_duration_default (payload : OptimizationSchedule) :
  first_gap (schedule payload) = None
  \/ (exists g, first_gap (schedule payload) = Some g /\ g <= 0) ->
  slot_duration payload = Some 900000000.
Proof.
  intros H. unfold slot_duration, _guess_slot_hours.
  destruct (schedule payload) as [|s0 [|s1 rest]]; try reflexivity.
  destruct H as [H|(g & Hg & Hle)]; [discriminate|].
  simpl in Hg. injection Hg as <-. simpl map. cbv iota zeta.
  rewrite total_seconds_test.
  destruct (Z.ltb_spec 0 (Datetime.diff (timestamp s1) (timestamp s0))); [lia|reflexivity].
Qed.

(** ** The window builder *)

Lemma last_In {A : Type} (l : list A) (d : A) : In (last l d) (d :: l).
Proof.
  revert d. induction l as [|x l IH]; intros d; [now left|].
  rewrite WindowFacts.last_cons. right. apply IH.
Qed.

(** The closing instant exists unless the schedule is empty or
    [last_timestamp + slot_duration] is past [datetime.max]. *)
Lemma window_end_cases (payload : OptimizationSchedule) :
  valid_schedule (schedule payload) ->
  forall t, last_timestamp payload = Some t ->
    exists d,
      slot_duration payload = Some d /\ 0 < d /\ 0 <= t
      /\ window_end payload
         = if t + d <=? Datetime.max_us then Some (t + d) else None.
Proof.
  intros Hv t Ht.
  destruct (slot_duration_positive payload Hv) as (d & Hd & Hpos).
  exists d. split; [exact Hd|]. split; [exact Hpos|].
  assert (Ht0 : 0 <= t).
  { unfold last_timestamp, final_timestamp in Ht.
    destruct (schedule payload) as [|s0 rest] eqn:Es; [discriminate|].
    injection Ht as <-.
    unfold valid_schedule in Hv. rewrite Forall_forall in Hv.
    apply Hv, last_In. }
  split; [exact Ht0|].
  unfold window_end, closing_instant. unfold last_timestamp in Ht. rewrite Ht.
  unfold slot_duration in Hd. rewrite Hd. unfold Datetime.add.
  replace (0 <=? t + d) with true by (symmetry; apply Z.leb_le; lia).
  reflexivity.
Qed.

(** C10. The mapping the window builder returns has a key for a load exactly
    when the load is present in at least one slot, and no key is bound to an
    empty list. The builder returns a mapping unless the schedule has a
    slot and the closing instant [last_timestamp + slot_duration] does not
    exist, which on a schedule of datetimes happens only when that instant
    is past [datetime.max]. *)
Theorem windows_keys (payload : OptimizationSchedule) :
  (load_windows_15m payload = None
   <-> schedule payload <> [] /\ window_end payload = None)
  /\ (valid_schedule (schedule payload) ->
      load_windows_15m payload = None ->
      exists t d, last_timestamp payload = Some t /\ slot_duration payload = Some d
                  /\ Datetime.max_us < t + d)
  /\ forall w, load_windows_15m payload = Some w ->
       forall n,
         (Dict.mem w n = true
          <-> exists slot, In slot (schedule payload) /\ present n slot = true)
         /\ Dict.get w n <> Some [].
Proof.
  assert (Hnone : load_windows_15m payload = None
                  <-> schedule payload <> [] /\ window_end payload = None).
  { destruct (schedule payload) as [|slot0 rest] eqn:Es.
    - unfold load_windows_15m. rewrite Es. simpl.
      split; [discriminate|intros [H _]; congruence].
    - assert (Hne : schedule payload <> []) by (rewrite Es; discriminate).
      pose proof (WindowFacts.load_windows_trace payload Hne) as H.
      destruct (window_end payload) as [e|].
      + destruct H as (w & Hw & _). rewrite Hw.
        split; [discriminate|intros [_ C]; discriminate].
      + split; [intros _; split; [discriminate|reflexivity]|intros _; exact H]. }
  split; [exact Hnone|]. split.
  - intros Hv HN. apply Hnone in HN. destruct HN as [Hne Hend].
    destruct (last_timestamp payload) as [t|] eqn:Et.
    + destruct (window_end_cases payload Hv t Et) as (d & Hd & _ & _ & Hw).
      exists t, d. repeat split; trivial.
      rewrite Hend in Hw. destruct (Z.leb_spec (t + d) Datetime.max_us); [discriminate|lia].
    + unfold last_timestamp, final_timestamp in Et.
      destruct (schedule payload); [congruence|discriminate].
  - intros w Hw n.
    destruct (schedule payload) as [|slot0 rest] eqn:Es.
    + assert (E : load_windows_15m payload = Some []).
      { unfold load_windows_15m. now rewrite Es. }
      rewrite E in Hw. injection Hw as <-. split; [|discriminate].
      split; [discriminate|]. intros [slot [[] _]].
    + assert (Hne : schedule payload <> []) by (rewrite Es; discriminate).
      pose proof (WindowFacts.load_windows_trace payload Hne) as H.
      rewrite <- Es.
      destruct (window_end payload) as [e|]; [|congruence].
      destruct H as (w' & Hw' & Hget). rewrite Hw' in Hw. injection Hw as <-.
      unfold Dict.mem. rewrite Hget. split; [|apply WindowFacts.extend_None_nonempty].
      pose proof (WindowFacts.trace_nonempty n e (schedule payload) None) as Hn.
      destruct (WindowFacts.trace n e (schedule payload) None) as [|x l] eqn:Et; simpl.
      * split; [discriminate|]. intros Hex. exfalso.
        assert (C : @nil window <> []) by (apply Hn; now right). congruence.
      * split; [|reflexivity]. intros _.
        destruct Hn as [Hn _]. destruct (Hn ltac:(discriminate)) as [C|Hex]; [congruence|exact Hex].
Qed.

Lemma add_Some t d e : Datetime.add t d = Some e -> e = t + d.
Proof.
  unfold Datetime.add.
  destruct ((0 <=? t + d) && (t + d <=? Datetime.max_us)); congruence.
Qed.

(** C4, as the code has it. On a schedule that ends with the slot [final]
    and whose closing instant [e = last_timestamp + slot_duration] exists,
    the builder returns a mapping; the slot duration [d] exists and [e] is
    [timestamp final + d]. The duration is the one inferred from the first
    two timestamps: 15 minutes with a single slot or a first gap that is
    not positive, the gap itself when it is between 4 microseconds and
    [2^45] microseconds (more than a year), 4 microseconds for a shorter
    gap, and positive on every schedule of datetimes. Every load present
    in the final slot (the loads whose window is still open) has, as its
    last window, the one that runs from the start of its last run of slots
    to [e], the windows before it ending at slots where the load is absent;
    a load present in the final slot only has the single window
    [(timestamp final, timestamp final + d)]; and a load absent from the
    final slot has no window closed at the end: each of its windows ends
    at a slot where it is absent. *)
Theorem final_slot_closes (payload : OptimizationSchedule)
    (pre : list ScheduleSlot) (final : ScheduleSlot) (e : Z) :
  schedule payload = (pre ++ [final])%list ->
  window_end payload = Some e ->
  exists w d,
    load_windows_15m payload = Some w
    /\ slot_duration payload = Some d
    /\ e = timestamp final + d
    /\ (valid_schedule (schedule payload) -> 0 < d)
    /\ (first_gap (schedule payload) = None
        \/ (exists g, first_gap (schedule payload) = Some g /\ g <= 0) ->
        d = 900000000)
    /\ (forall g, first_gap (schedule payload) = Some g ->
          (4 <= g <= 2 ^ 45 -> d = g) /\ (1 <= g <= 3 -> d = 4))
    /\ forall n,
         (present n final = true ->
          exists ws st,
            Dict.get w n = Some (ws ++ [(st, e)])%list
            /\ trailing_run n (schedule payload) st
            /\ forall x, In x ws ->
                 exists slot, In slot (schedule payload)
                              /\ snd x = timestamp slot /\ present n slot = false)
         /\ (present n final = true ->
             (forall slot, In slot pre -> present n slot = false) ->
             Dict.get w n = Some [(timestamp final, timestamp final + d)])
         /\ (present n final = false ->
             forall ws x, Dict.get w n = Some ws -> In x ws ->
               exists slot, In slot (schedule payload)
                            /\ snd x = timestamp slot /\ present n slot = false).
Proof.
  intros Hs Hend.
  assert (Hne : schedule payload <> []).
  { rewrite Hs. intros C. apply app_eq_nil in C. destruct C; discriminate. }
  pose proof (WindowFacts.load_windows_trace payload Hne) as H.
  rewrite Hend in H.
  destruct H as (w & Hw & Hget).
  assert (Hd : exists d, slot_duration payload = Some d
                         /\ Datetime.add (timestamp final) d = Some e).
  { unfold window_end, closing_instant in Hend.
    rewrite Hs, WindowFacts.final_timestamp_snoc in Hend. unfold slot_duration.
    destruct (Datetime.timedelta_hours (_guess_slot_hours payload)) as [d|];
      [|discriminate].
    exists d. split; [reflexivity|exact Hend]. }
  destruct Hd as (d & Hd & He). apply add_Some in He.
  exists w, d. split; [exact Hw|]. split; [exact Hd|]. split; [exact He|].
  split.
  { intros Hv. destruct (slot_duration_positive payload Hv) as (d' & Hd' & Hpos).
    rewrite Hd in Hd'. injection Hd' as <-. exact Hpos. }
  split.
  { intros Hdef. rewrite (slot_duration_default payload Hdef) in Hd. congruence. }
  split.
  { intros g Hg. split; intros Hrange.
    - rewrite (slot_duration_gap payload g Hg ltac:(lia)) in Hd.
      rewrite GapFacts.gap_kept in Hd by exact Hrange. congruence.
    - rewrite (slot_duration_gap payload g Hg ltac:(lia)) in Hd.
      assert (Hc : g = 1 \/ g = 2 \/ g = 3) by lia.
      destruct Hc as [-> | [-> | ->]]; vm_compute in Hd; congruence. }
  intros n. specialize (Hget n). rewrite WindowFacts.trace_split in Hget.
  assert (Hact : WindowFacts.active_after n (schedule payload) None
                 = WindowFacts.opened n final (WindowFacts.active_after n pre None)).
  { rewrite Hs, WindowFacts.active_after_app. reflexivity. }
  split; [|split].
  - intros Hp.
    destruct (WindowFacts.active_after n (schedule payload) None) as [st|] eqn:Ea.
    + exists (WindowFacts.closed_of n (schedule payload) None), st. split; [|split].
      * rewrite Hget.
        now destruct (WindowFacts.closed_of n (schedule payload) None).
      * now apply WindowFacts.active_after_run.
      * intros x Hx. eapply WindowFacts.closed_of_ends; eauto.
    + unfold WindowFacts.opened in Hact. rewrite Hp in Hact. discriminate.
  - intros Hp Habs.
    destruct (WindowFacts.absent_throughout n pre Habs) as [Hc Ha].
    rewrite Hget, Hact, Ha. unfold WindowFacts.opened. rewrite Hp.
    rewrite Hs, WindowFacts.closed_of_app, Hc, Ha. simpl. rewrite Hp.
    now rewrite He.
  - intros Hp ws x Hws Hx.
    rewrite Hact in Hget. unfold WindowFacts.opened in Hget. rewrite Hp in Hget.
    rewrite app_nil_r in Hget.
    assert (E : ws = WindowFacts.closed_of n (schedule payload) None).
    { rewrite Hget in Hws.
      destruct (WindowFacts.closed_of n (schedule payload) None); simpl in Hws; congruence. }
    subst ws. eapply WindowFacts.closed_of_ends; eauto.
Qed.

(** C2, as the code has it. On a schedule of datetimes that strictly
    increase, whose closing instant [e = last_timestamp + slot_duration]
    exists, the builder returns a mapping in which the windows of every load
    are non-empty half-open intervals, each starting strictly after the
    start of the one before and not before its end, and a slot's timestamp
    lies in one of the load's windows exactly if the load is present in the
    slot. *)
Theorem windows_cover_strict (payload : OptimizationSchedule) (e : Z) :
  strictly_sorted_schedule (schedule payload) ->
  valid_schedule (schedule payload) ->
  window_end payload = Some e ->
  exists w,
    load_windows_15m payload = Some w
    /\ forall n,
         let ws := Dict.get_default w n [] in
         windows_increasing ws
         /\ (forall x, In x ws -> fst x < snd x)
         /\ windows_cover (schedule payload) n ws.
Proof.
  intros Hsorted Hvalid Hend.
  assert (Hne : schedule payload <> []).
  { intros C. unfold window_end, closing_instant in Hend. rewrite C in Hend. discriminate. }
  destruct (last_timestamp payload) as [t|] eqn:Hlast.
  2: { unfold last_timestamp, final_timestamp in Hlast.
       destruct (schedule payload); [congruence|discriminate]. }
  assert (Hlt : t < e).
  { destruct (window_end_cases payload Hvalid t Hlast) as (d & _ & Hpos & _ & Hw).
    rewrite Hend in Hw. destruct (t + d <=? Datetime.max_us); [|discriminate].
    injection Hw as ->. lia. }
  pose proof (WindowFacts.load_windows_trace payload Hne) as H.
  rewrite Hend in H. destruct H as (w & Hw & Hget). exists w. split; [exact Hw|].
  intros n ws.
  assert (Ews : ws = WindowFacts.trace n e (schedule payload) None).
  { unfold ws, Dict.get_default. rewrite Hget. apply WindowFacts.extend_None_default. }
  rewrite Ews.
  assert (Ha : WindowFacts.ahead e (schedule payload) None).
  { apply strictly_sorted_strong in Hsorted. split.
    - exact Hsorted.
    - intros slot Hin.
      pose proof (WindowFacts.final_timestamp_max _ _ Hsorted Hlast slot Hin). lia.
    - discriminate. }
  split; [|split].
  - now apply WindowFacts.trace_increasing.
  - intros x Hx. now destruct (WindowFacts.trace_bounds n e _ _ Ha x Hx).
  - now apply WindowFacts.trace_cover.
Qed.

(** ** Energy per load *)

Module EnergyFacts.

(** The running energy of one load after the powers [vs] of its entries,
    starting from what the dictionary held for it, if anything. *)
Definition accum (h : float) (o : option float) (vs : list float) : option float :=
  fold_left
    (fun o v => Some (B64.add (match o with Some e => e | None => B64.zero end) (B64.mul v h)))
    vs o.

Definition named (n : string) (it : DataItem) : bool := String.eqb (name it) n.

Lemma accum_app h o l1 l2 : accum h o (l1 ++ l2) = accum h (accum h o l1) l2.
Proof. apply fold_left_app. Qed.

Lemma accum_Some h e vs :
  accum h (Some e) vs = Some (fold_left (fun e v => B64.add e (B64.mul v h)) vs e).
Proof.
  revert e. induction vs as [|v vs IH]; intros e; simpl; [reflexivity|apply IH].
Qed.

Lemma accum_None h vs :
  accum h None vs
  = match vs with
    | [] => None
    | _ => Some (fold_left (fun e v => B64.add e (B64.mul v h)) vs B64.zero)
    end.
Proof. destruct vs as [|v vs]; [reflexivity|]. simpl. apply accum_Some. Qed.

Lemma add_item_energy h p E it n :
  Dict.get (snd (add_item h (p, E) it)) n
  = accum h (Dict.get E n) (map value (filter (named n) [it])).
Proof.
  simpl. unfold named. destruct (String.eqb_spec (name it) n) as [<-|Hne]; simpl.
  - now rewrite DictFacts.get_set_eq.
  - rewrite DictFacts.get_set_ne by congruence. reflexivity.
Qed.

Lemma fold_add_item_energy h items p E n :
  Dict.get (snd (fold_left (add_item h) items (p, E))) n
  = accum h (Dict.get E n) (map value (filter (named n) items)).
Proof.
  revert p E. induction items as [|it items IH]; intros p E; [reflexivity|].
  cbn [fold_left]. rewrite (surjective_pairing (add_item h (p, E) it)), IH.
  rewrite add_item_energy.
  change (it :: items) with ([it] ++ items)%list.
  now rewrite filter_app, map_app, accum_app.
Qed.

Lemma add_slot_energy h P E slot :
  snd (add_slot h (P, E) slot) = snd (fold_left (add_item h) (data slot) (B64.zero, E)).
Proof.
  unfold add_slot. now destruct (fold_left (add_item h) (data slot) (B64.zero, E)).
Qed.

Lemma fold_add_slot_energy h slots P E n :
  Dict.get (snd (fold_left (add_slot h) slots (P, E))) n
  = accum h (Dict.get E n) (map value (filter (named n) (flat_map data slots))).
Proof.
  revert P E. induction slots as [|slot slots IH]; intros P E; [reflexivity|].
  cbn [fold_left flat_map].
  rewrite (surjective_pairing (add_slot h (P, E) slot)), IH.
  rewrite add_slot_energy, fold_add_item_energy.
  now rewrite filter_app, map_app, accum_app.
Qed.

Lemma compute_energy payload :
  energy_by_load (compute_from_schedule payload)
  = snd (fold_left (add_slot (_guess_slot_hours payload)) (schedule payload) ([], [])).
Proof.
  unfold compute_from_schedule.
  now destruct (fold_left (add_slot (_guess_slot_hours payload)) (schedule payload) ([], [])).
Qed.

Lemma fold_set_power_get slots P k :
  (forall s, In s slots -> slot_key s <> k) ->
  Dict.get (fold_left set_power slots P) k = Dict.get P k.
Proof.
  revert P. induction slots as [|slot slots IH]; intros P H; simpl; [reflexivity|].
  rewrite IH by (intros s Hs; apply H; now right).
  unfold set_power. apply DictFacts.get_set_ne.
  intros E. apply (H slot); [now left|now symmetry].
Qed.

End EnergyFacts.

(** C6, as the code has it. A slot is a list of entries and the aggregator
    adds up every one of them, so a load named twice in a slot counts twice:
    the energy of a load is the sum, in schedule order, of
    [power * slot_duration] over all the entries that bear its name, and
    the total stored under a slot's key is the sum of the powers of all the
    entries of the (last) slot with that key. Nothing is detected or
    rejected. *)
Theorem duplicates_accumulate (payload : OptimizationSchedule) (n : string) :
  let a := compute_from_schedule payload in
  let h := _guess_slot_hours payload in
  Dict.get (energy_by_load a) n
  = match load_entries n (schedule payload) with
    | [] => None
    | vs => Some (fold_left (fun e v => B64.add e (B64.mul v h)) vs B64.zero)
    end
  /\ forall before slot after,
       schedule payload = (before ++ slot :: after)%list ->
       (forall s, In s after -> slot_key s <> slot_key slot) ->
       Dict.get (power_by_ts a) (slot_key slot)
       = Some (fold_left B64.add (map value (data slot)) B64.zero).
Proof.
  intros a h. split.
  - unfold a. rewrite EnergyFacts.compute_energy, EnergyFacts.fold_add_slot_energy.
    simpl Dict.get. rewrite EnergyFacts.accum_None.
    unfold load_entries, h.
    change (fun it => String.eqb (name it) n) with (EnergyFacts.named n).
    now destruct (map value (filter (EnergyFacts.named n) (flat_map data (schedule payload)))).
  - intros before slot after Hs Hafter. unfold a.
    rewrite compute_power, Hs, fold_left_app. simpl fold_left.
    rewrite EnergyFacts.fold_set_power_get by assumption.
    unfold set_power at 1. apply DictFacts.get_set_eq.
Qed.

(** ** Histogram conservation *)

Module Conservation.

Import Exact.

Definition Zsum (l : list Z) : Z := fold_right Z.add 0 l.

Definition nonneg (l : list Z) : Prop := Forall (fun z => 0 <= z) l.

Lemma Zsum_app l1 l2 : Zsum (l1 ++ l2) = Zsum l1 + Zsum l2.
Proof. induction l1 as [|a l1 IH]; simpl; [reflexivity|]. rewrite IH. lia. Qed.

Lemma Zsum_nonneg l : nonneg l -> 0 <= Zsum l.
Proof. induction 1; simpl; lia. Qed.

Lemma fits_le a b : 0 <= a <= b -> fits b -> fits a.
Proof. unfold fits. lia. Qed.

(** Adding up doubles of one exponent adds their numerators. *)
Lemma fold_add_dyadic k zs acc :
  mild k -> 0 <= acc -> nonneg zs -> fits (acc + Zsum zs) ->
  fold_left B64.add (map (fun z => B64.dyadic z k) zs) (B64.dyadic acc k)
  = B64.dyadic (acc + Zsum zs) k.
Proof.
  intros Hk Hacc Hzs. revert acc Hacc.
  induction Hzs as [|z zs Hz Hzs IH]; intros acc Hacc Hfit; simpl.
  - f_equal. lia.
  - pose proof (Zsum_nonneg zs Hzs) as Hs. fold (Zsum zs) in Hfit |- *.
    rewrite add_dy; try assumption.
    + rewrite IH; [f_equal; lia|lia|].
      now replace (acc + z + Zsum zs) with (acc + (z + Zsum zs)) by lia.
    + apply (fits_le _ (acc + (z + Zsum zs))); [lia|assumption].
Qed.

Lemma py_sum_dyadic k zs :
  mild k -> nonneg zs -> fits (Zsum zs) ->
  py_sum (map (fun z => B64.dyadic z k) zs) = B64.dyadic (Zsum zs) k.
Proof.
  intros Hk Hzs Hfit. unfold py_sum.
  change B64.zero with (B64.dyadic 0 k).
  rewrite fold_add_dyadic; try assumption; [reflexivity|lia].
Qed.

(** ** The energy dictionary, as whole numbers of units *)

Definition lift (k : Z) (d : dict Z) : dict float :=
  map (fun kv => (fst kv, B64.dyadic (snd kv) k)) d.

Lemma get_lift k d n :
  Dict.get (lift k d) n = option_map (fun z => B64.dyadic z k) (Dict.get d n).
Proof.
  induction d as [|[k' z] d IH]; simpl; [reflexivity|].
  destruct (String.eqb n k'); [reflexivity|apply IH].
Qed.

Lemma set_lift k d n z :
  Dict.set (lift k d) n (B64.dyadic z k) = lift k (Dict.set d n z).
Proof.
  induction d as [|[k' z'] d IH]; simpl; [reflexivity|].
  destruct (String.eqb n k'); simpl; [reflexivity|]. now rewrite IH.
Qed.

Lemma values_lift k d :
  Dict.values (lift k d) = map (fun z => B64.dyadic z k) (Dict.values d).
Proof. unfold Dict.values, lift. rewrite !map_map. reflexivity. Qed.

Lemma get_default_lift k d n :
  Dict.get_default (lift k d) n B64.zero = B64.dyadic (Dict.get_default d n 0) k.
Proof.
  unfold Dict.get_default. rewrite get_lift.
  destruct (Dict.get d n); reflexivity.
Qed.

Lemma get_default_bounds (d : dict Z) n :
  nonneg (Dict.values d) -> 0 <= Dict.get_default d n 0 <= Zsum (Dict.values d).
Proof.
  unfold Dict.get_default, Dict.values, Zsum.
  induction d as [|[k' z] d IH]; cbn [Dict.get map fold_right snd]; intros Hd; [lia|].
  inversion Hd as [|? ? Hz Hd']; subst.
  pose proof (Zsum_nonneg _ Hd') as Hs. unfold Zsum in Hs.
  destruct (String.eqb n k'); [lia|]. specialize (IH Hd'). lia.
Qed.

(** The energy step on numerators. *)
Definition bump (u : DataItem -> Z) (d : dict Z) (it : DataItem) : dict Z :=
  Dict.set d (name it) (Dict.get_default d (name it) 0 + u it).

Lemma bump_sum u d it :
  Zsum (Dict.values (bump u d it)) = Zsum (Dict.values d) + u it.
Proof.
  unfold bump, Dict.get_default, Dict.values, Zsum.
  induction d as [|[k' z] d IH]; cbn [Dict.get Dict.set map fold_right snd]; [lia|].
  destruct (String.eqb (name it) k'); cbn [map fold_right snd]; [lia|].
  rewrite IH. lia.
Qed.

Lemma bump_nonneg u d it :
  nonneg (Dict.values d) -> 0 <= u it -> nonneg (Dict.values (bump u d it)).
Proof.
  intros Hd Hu. pose proof (get_default_bounds d (name it) Hd) as Hb.
  unfold bump. set (z := Dict.get_default d (name it) 0 + u it).
  assert (Hz : 0 <= z) by (unfold z; lia). clearbody z. clear Hb.
  unfold nonneg, Dict.values in *.
  induction d as [|[k' z'] d IH]; cbn [Dict.set map snd] in *.
  - constructor; [assumption|constructor].
  - inversion Hd as [|? ? Hz' Hd']; subst.
    destruct (String.eqb (name it) k'); cbn [map snd].
    + constructor; assumption.
    + constructor; [assumption|]. now apply IH.
Qed.

(** The powers are whole numbers of [2^-q] kW: an entry draws [u it] of
    these units, and the energies and the buckets are whole numbers of
    [2^-(q+2)] kWh and Wh. *)
Section Grid.

Variable q : Z.
Hypothesis Hq : 0 <= q <= 800.

Definition grid_units (u : DataItem -> Z) (it : DataItem) : Prop :=
  0 <= u it /\ value it = B64.dyadic (u it) (- q).

Lemma mild_power : mild (- q). Proof. unfold mild. lia. Qed.
Lemma mild_energy : mild (- q - 2). Proof. unfold mild. lia. Qed.

Lemma add_item_lift u p d it :
  grid_units u it -> nonneg (Dict.values d) -> fits (Zsum (Dict.values d) + u it) ->
  snd (add_item B64.quarter (p, lift (- q - 2) d) it) = lift (- q - 2) (bump u d it).
Proof.
  intros [Hu Hv] Hd Hfit. simpl. rewrite Hv, get_default_lift.
  pose proof (get_default_bounds d (name it) Hd) as Hb.
  rewrite (mul_quarter_dy (u it) (- q)); try assumption.
  - 
    rewrite add_dy; [apply set_lift|lia|assumption| |apply mild_energy].
    apply (fits_le _ (Zsum (Dict.values d) + u it)); [lia|assumption].
  - apply (fits_le _ (Zsum (Dict.values d) + u it)); [|assumption].
    pose proof (Zsum_nonneg _ Hd). lia.
  - apply mild_power.
  - unfold mild. lia.
Qed.

Lemma total_units_app u l1 l2 :
  total_units u (l1 ++ l2) = total_units u l1 + total_units u l2.
Proof. unfold total_units. rewrite map_app. apply Zsum_app. Qed.

Lemma total_units_nonneg u items :
  Forall (grid_units u) items -> 0 <= total_units u items.
Proof.
  intros H. apply Zsum_nonneg. unfold nonneg. rewrite Forall_map.
  eapply Forall_impl; [|exact H]. now intros it [Hu _].
Qed.

Lemma fold_bump_facts u items d :
  Forall (grid_units u) items -> nonneg (Dict.values d) ->
  nonneg (Dict.values (fold_left (bump u) items d))
  /\ Zsum (Dict.values (fold_left (bump u) items d))
     = Zsum (Dict.values d) + total_units u items.
Proof.
  intros Hit. revert d. induction Hit as [|it items Hi Hit IH]; intros d Hd; simpl.
  - split; [assumption|unfold total_units; simpl; lia].
  - destruct (IH (bump u d it)) as [IH1 IH2]; [apply bump_nonneg; [assumption|apply Hi]|].
    split; [assumption|]. rewrite IH2, bump_sum. unfold total_units. simpl. lia.
Qed.

Lemma fold_add_item_lift u items p d :
  Forall (grid_units u) items -> nonneg (Dict.values d) ->
  fits (Zsum (Dict.values d) + total_units u items) ->
  snd (fold_left (add_item B64.quarter) items (p, lift (- q - 2) d))
  = lift (- q - 2) (fold_left (bump u) items d).
Proof.
  intros Hit. revert p d.
  induction Hit as [|it items Hi Hit IH]; intros p d Hd Hfit; [reflexivity|].
  cbn [fold_left].
  pose proof (total_units_nonneg u items Hit) as Hpos.
  pose proof (Zsum_nonneg _ Hd) as Hs.
  assert (Hu : 0 <= u it) by apply Hi.
  change (total_units u (it :: items)) with (u it + total_units u items) in Hfit.
  rewrite (surjective_pairing (add_item B64.quarter (p, lift (- q - 2) d) it)).
  rewrite (add_item_lift u); try assumption.
  - apply IH.
    + now apply bump_nonneg.
    + rewrite bump_sum. now replace (Zsum (Dict.values d) + u it + total_units u items)
        with (Zsum (Dict.values d) + (u it + total_units u items)) by lia.
  - apply (fits_le _ (Zsum (Dict.values d) + (u it + total_units u items))); [lia|assumption].
Qed.

Lemma fold_add_slot_lift u slots P d :
  Forall (grid_units u) (flat_map data slots) -> nonneg (Dict.values d) ->
  fits (Zsum (Dict.values d) + total_units u (flat_map data slots)) ->
  snd (fold_left (add_slot B64.quarter) slots (P, lift (- q - 2) d))
  = lift (- q - 2) (fold_left (bump u) (flat_map data slots) d).
Proof.
  revert P d. induction slots as [|slot slots IH]; intros P d Hit Hd Hfit; [reflexivity|].
  cbn [fold_left flat_map] in *.
  apply Forall_app in Hit. destruct Hit as [Hit1 Hit2].
  rewrite total_units_app in Hfit.
  pose proof (total_units_nonneg u _ Hit1) as Hp1.
  pose proof (total_units_nonneg u _ Hit2) as Hp2.
  pose proof (Zsum_nonneg _ Hd) as Hs.
  destruct (fold_bump_facts u (data slot) d Hit1 Hd) as [Hn Hsum].
  rewrite (surjective_pairing (add_slot B64.quarter (P, lift (- q - 2) d) slot)).
  rewrite EnergyFacts.add_slot_energy, (fold_add_item_lift u); try assumption.
  - rewrite fold_left_app. apply IH; try assumption.
    rewrite Hsum. now replace (Zsum (Dict.values d) + total_units u (data slot)
                               + total_units u (flat_map data slots))
      with (Zsum (Dict.values d) + (total_units u (data slot)
                               + total_units u (flat_map data slots))) by lia.
  - eapply fits_le; [|exact Hfit]. lia.
Qed.

(** ** The hour read back from a key *)

Lemma py_int_d2 h : 0 <= h < 24 -> py_int (Datetime.d2 h) = Some h.
Proof.
  intros Hh. rewrite <- (Z2Nat.id h) by lia.
  assert (Hn : (Z.to_nat h < 24)%nat) by lia.
  generalize dependent (Z.to_nat h). clear h Hh. intros n Hn.
  do 24 (destruct n as [|n]; [reflexivity|]). lia.
Qed.

Lemma key_hour t :
  py_int (substring 11 2 (Datetime.strftime_key t)) = Some (Datetime.hour t).
Proof.
  unfold Datetime.strftime_key. destruct (Datetime.date t) as [[y m] d].
  unfold Datetime.d4.
  change (substring 11 2 _) with (Datetime.d2 (Datetime.hour t)).
  apply py_int_d2, hour_range.
Qed.

(** ** The buckets, as whole numbers of units *)

Lemma bucket_add_dyadic bs i z :
  (i < List.length bs)%nat -> nonneg bs -> 0 <= z -> fits (Zsum bs + z) ->
  exists bs',
    bucket_add (map (fun b => B64.dyadic b (- q - 2)) bs) i (B64.dyadic z (- q - 2))
    = Some (map (fun b => B64.dyadic b (- q - 2)) bs')
    /\ List.length bs' = List.length bs /\ nonneg bs' /\ Zsum bs' = Zsum bs + z.
Proof.
  revert i. induction bs as [|b bs IH]; intros i Hi Hbs Hz Hfit; simpl in Hi; [lia|].
  inversion Hbs as [|? ? Hb Hbs']; subst.
  pose proof (Zsum_nonneg _ Hbs') as Hs. cbn [Zsum fold_right] in Hfit. fold (Zsum bs) in Hfit.
  destruct i as [|i]; cbn [bucket_add map].
  - exists (b + z :: bs). rewrite add_dy; try assumption.
    + repeat split; [constructor; [lia|assumption]|simpl; lia].
    + eapply fits_le; [|exact Hfit]. lia.
    + apply mild_energy.
  - destruct (IH i) as (bs' & E & Hl & Hn & Hsum); try assumption; [lia| |].
    + eapply fits_le; [|exact Hfit]. lia.
    + exists (b :: bs'). rewrite E. repeat split.
      * simpl. now rewrite Hl.
      * now constructor.
      * cbn [Zsum fold_right]. fold (Zsum bs') (Zsum bs). lia.
Qed.

Lemma slot_power_dyadic u slot :
  Forall (grid_units u) (data slot) -> fits (total_units u (data slot)) ->
  slot_power slot = B64.dyadic (total_units u (data slot)) (- q).
Proof.
  intros Hit Hfit. unfold slot_power.
  rewrite (map_ext_in value (fun it => B64.dyadic (u it) (- q))).
  - rewrite <- (map_map u (fun z => B64.dyadic z (- q))).
    apply (py_sum_dyadic (- q)); [apply mild_power| |exact Hfit].
    unfold nonneg. rewrite Forall_map. eapply Forall_impl; [|exact Hit]. now intros it [H _].
  - intros it Hin. rewrite Forall_forall in Hit. apply (Hit it Hin).
Qed.

Lemma add_bucket_dyadic u bs slot :
  List.length bs = 24%nat -> nonneg bs ->
  Forall (grid_units u) (data slot) ->
  fits (Zsum bs + total_units u (data slot) * 1000) ->
  exists bs',
    add_bucket (Some (map (fun b => B64.dyadic b (- q - 2)) bs)) (power_entry slot)
    = Some (map (fun b => B64.dyadic b (- q - 2)) bs')
    /\ List.length bs' = 24%nat /\ nonneg bs'
    /\ Zsum bs' = Zsum bs + total_units u (data slot) * 1000.
Proof.
  intros Hl Hbs Hit Hfit.
  pose proof (total_units_nonneg u _ Hit) as Hp.
  pose proof (Zsum_nonneg _ Hbs) as Hs.
  unfold add_bucket, power_entry, slot_key. rewrite key_hour.
  pose proof (hour_range (timestamp slot)) as Hh.
  destruct (Z.ltb_spec (Datetime.hour (timestamp slot)) 0) as [Hneg|_]; [lia|].
  assert (Hfit1 : fits (total_units u (data slot) * 1000))
    by (eapply fits_le; [|exact Hfit]; lia).
  assert (Hfit0 : fits (total_units u (data slot)))
    by (eapply fits_le; [|exact Hfit1]; lia).
  rewrite (slot_power_dyadic u) by assumption.
  rewrite (mul_quarter_dy _ (- q)) by (try assumption; unfold mild; lia).
  
  rewrite mul_thousand_dy by (try assumption; unfold mild; lia).
  destruct (bucket_add_dyadic bs (Z.to_nat (Datetime.hour (timestamp slot)))
              (total_units u (data slot) * 1000)) as (bs' & E & Hl' & Hn & Hsum);
    try assumption; [lia|lia|].
  exists bs'. rewrite E. repeat split; try assumption. congruence.
Qed.

Lemma per_hour_dyadic u slots bs :
  List.length bs = 24%nat -> nonneg bs ->
  Forall (grid_units u) (flat_map data slots) ->
  fits (Zsum bs + total_units u (flat_map data slots) * 1000) ->
  exists bs',
    fold_left add_bucket (map power_entry slots)
      (Some (map (fun b => B64.dyadic b (- q - 2)) bs))
    = Some (map (fun b => B64.dyadic b (- q - 2)) bs')
    /\ List.length bs' = 24%nat /\ nonneg bs'
    /\ Zsum bs' = Zsum bs + total_units u (flat_map data slots) * 1000.
Proof.
  revert bs. induction slots as [|slot slots IH]; intros bs Hl Hbs Hit Hfit.
  - exists bs. repeat split; try assumption. unfold total_units. simpl. lia.
  - cbn [flat_map map fold_left] in *.
    apply Forall_app in Hit. destruct Hit as [Hit1 Hit2].
    rewrite total_units_app in Hfit |- *.
    pose proof (total_units_nonneg u _ Hit1) as Hp1.
    pose proof (total_units_nonneg u _ Hit2) as Hp2.
    pose proof (Zsum_nonneg _ Hbs) as Hs.
    destruct (add_bucket_dyadic u bs slot) as (bs1 & E1 & Hl1 & Hn1 & Hs1); try assumption.
    { eapply fits_le; [|exact Hfit]. lia. }
    rewrite E1.
    destruct (IH bs1) as (bs2 & E2 & Hl2 & Hn2 & Hs2); try assumption.
    { rewrite Hs1. eapply fits_le; [|exact Hfit]. lia. }
    exists bs2. repeat split; try assumption. lia.
Qed.

End Grid.

End Conservation.

(** Scaling the numerator by a power of two moves the exponent. *)
Lemma dyadic_scale (j c k : Z) :
  0 <= j -> 0 <= c -> Exact.fits (j * 2 ^ c) ->
  B64.dyadic (j * 2 ^ c) k = B64.dyadic j (k + c).
Proof.
  intros Hj Hc Hf. destruct (Z.eq_dec j 0) as [->|Hnz]; [reflexivity|].
  assert (Hp : 0 < 2 ^ c) by (apply Z.pow_pos_nonneg; lia).
  assert (HS : 0 < j * 2 ^ c) by nia.
  pose proof (Rounding.Zdigits2_mul_pow2 j c ltac:(lia) Hc) as Hd.
  destruct (Exact.fits_digits (j * 2 ^ c) HS Hf) as [_ Hd53].
  destruct (Rounding.Zdigits2_bounds j ltac:(lia)) as [Hd0 _].
  unfold B64.dyadic.
  destruct (j * 2 ^ c) as [|S|S] eqn:ES; try lia.
  destruct j as [|p|p]; try lia.
  rewrite Hd, <- ES. f_equal.
  - f_equal. rewrite <- Z.mul_assoc, <- Z.pow_add_r by lia. do 2 f_equal. lia.
  - lia.
Qed.

(** C5, as the code has it. When the inferred slot duration is 0.25 h,
    the timestamps have years of four digits and pairwise distinct keys,
    and every power is a natural number [u] of units of [2^-q] kW, at most
    2^40 units in all, so that no sum and no product is rounded: the
    histogram is built and has 24 buckets; their sum divided by 1000 is
    exactly the energy of the schedule, [units * 2^-(q+2)] kWh; the total
    energy is that energy rounded to three decimals, so the sum divided by
    1000 and then rounded to three decimals is the total energy; and the
    two are equal without any rounding when the powers add up to a whole
    number [j] of half kilowatts, the energy being [j / 8] kWh. *)
Theorem histogram_conserves_binary_fractions
  (payload : OptimizationSchedule) (q : Z) (u : DataItem -> Z) :
  _guess_slot_hours payload = B64.quarter ->
  four_digit_years (schedule payload) ->
  NoDup (map slot_key (schedule payload)) ->
  0 <= q <= 800 ->
  (forall it, In it (flat_map data (schedule payload)) ->
     0 <= u it /\ value it = B64.dyadic (u it) (- q)) ->
  total_units u (flat_map data (schedule payload)) <= 2 ^ 40 ->
  let a := compute_from_schedule payload in
  let units := total_units u (flat_map data (schedule payload)) in
  exists buckets,
    per_hour_Wh (power_by_ts a) = Some buckets
    /\ List.length buckets = 24%nat
    /\ B64.div (py_sum buckets) B64.thousand = B64.dyadic units (- q - 2)
    /\ total_kwh a = round3 (B64.dyadic units (- q - 2))
    /\ round3 (B64.div (py_sum buckets) B64.thousand) = total_kwh a
    /\ forall j, 2 * units = j * 2 ^ q ->
         B64.div (py_sum buckets) B64.thousand = total_kwh a
         /\ total_kwh a = B64.dyadic j (-3).
Proof.
  intros Hslot _ Hnd Hq Hu Hmax a units.
  assert (Hit : Forall (Conservation.grid_units q u) (flat_map data (schedule payload)))
    by (apply Forall_forall; exact Hu).
  pose proof (Conservation.total_units_nonneg q u _ Hit) as HT. fold units in HT.
  assert (Hfit : Exact.fits (units * 1000)).
  { unfold Exact.fits. change (2 ^ 53) with (2 ^ 40 * 8192). unfold units. lia. }
  assert (Hfit' : Exact.fits units).
  { eapply Conservation.fits_le; [|exact Hfit]. lia. }
  assert (Htotal : total_kwh a = round3 (B64.dyadic units (- q - 2))).
  { unfold a, compute_from_schedule. rewrite Hslot.
    pose proof (Conservation.fold_add_slot_lift q Hq u (schedule payload) [] [] Hit) as E.
    change (Conservation.lift (- q - 2) []) with (@nil (string * float)) in E.
    destruct (Conservation.fold_bump_facts q u _ [] Hit) as [Hn Hs]; [constructor|].
    change (Conservation.Zsum (Dict.values []) + ?x) with x in E, Hs.
    destruct (fold_left (add_slot B64.quarter) (schedule payload) ([], [])) as [P En].
    cbn [total_kwh]. cbn [snd] in E. rewrite E by (first [exact Hfit'|apply Forall_nil]).
    rewrite Conservation.values_lift, Conservation.py_sum_dyadic, Hs;
      [reflexivity|apply Conservation.mild_energy; exact Hq|assumption|rewrite Hs; exact Hfit']. }
  destruct (Conservation.per_hour_dyadic q Hq u (schedule payload) (repeat 0 24))
    as (bs & E & Hl & Hn & Hs0); [reflexivity| |exact Hit|exact Hfit|].
  { apply Forall_forall. intros z Hz. apply repeat_spec in Hz. lia. }
  assert (Hs : Conservation.Zsum bs = units * 1000) by exact Hs0.
  assert (Hdiv : B64.div (py_sum (map (fun b => B64.dyadic b (- q - 2)) bs)) B64.thousand
                 = B64.dyadic units (- q - 2)).
  { rewrite Conservation.py_sum_dyadic, Hs;
      [|apply Conservation.mild_energy; exact Hq|exact Hn|rewrite Hs; exact Hfit].
    apply Exact.div_thousand_dy;
      [exact HT|exact Hfit|apply Conservation.mild_energy; exact Hq]. }
  exists (map (fun b => B64.dyadic b (- q - 2)) bs).
  split; [|split; [|split; [|split; [|split]]]].
  - unfold a. rewrite compute_power, fold_set_power_distinct by exact Hnd. exact E.
  - rewrite length_map. exact Hl.
  - exact Hdiv.
  - exact Htotal.
  - rewrite Hdiv. symmetry. exact Htotal.
  - intros j Hj.
    assert (Hpq : 0 < 2 ^ q) by (apply Z.pow_pos_nonneg; lia).
    assert (Hj0 : 0 <= j) by nia.
    assert (Hjfit : Exact.fits j).
    { unfold Exact.fits in *. split; [lia|]. nia. }
    assert (Escale : B64.dyadic units (- q - 2) = B64.dyadic j (-3)).
    { destruct (Z.eq_dec q 0) as [->|Hq0].
      - assert (Ej : j = units * 2 ^ 1) by (change (2 ^ 0) with 1 in Hj; lia).
        rewrite Ej, dyadic_scale; [reflexivity|lia|lia|].
        unfold Exact.fits in *. change (2 ^ 1) with 2. lia.
      - assert (Eu : units = j * 2 ^ (q - 1)).
        { replace q with (q - 1 + 1) in Hj at 1 by lia.
          rewrite Z.pow_add_r in Hj by lia. change (2 ^ 1) with 2 in Hj. lia. }
        rewrite Eu, dyadic_scale; [f_equal; lia|lia|lia|rewrite <- Eu; exact Hfit']. }
    rewrite Hdiv, Htotal, Escale. rewrite Exact.round3_dy by assumption. split; reflexivity.
Qed.

(** ** The validator and the aggregates *)

Module ValidatorMore.

Definition at_time (t : Z) (s : ScheduleSlot) : bool := timestamp s =? t.

Lemma insert_slot_filter t s l :
  filter (at_time t) (insert_slot s l) = filter (at_time t) (s :: l).
Proof.
  induction l as [|x l IH]; [reflexivity|].
  cbn [insert_slot]. destruct (Z.leb_spec (timestamp s) (timestamp x)) as [Hle|Hgt]; [reflexivity|].
  cbn [filter] in *. rewrite IH. unfold at_time.
  destruct (Z.eqb_spec (timestamp x) t), (Z.eqb_spec (timestamp s) t); try reflexivity. lia.
Qed.

Lemma _ensure_sorted_filter t v :
  filter (at_time t) (_ensure_sorted v) = filter (at_time t) v.
Proof.
  induction v as [|s v IH]; [reflexivity|].
  cbn [_ensure_sorted fold_right]. fold (_ensure_sorted v).
  rewrite insert_slot_filter. cbn [filter]. now rewrite IH.
Qed.

End ValidatorMore.

(** X1. The validator returns the slots it is given, rearranged so that the
    timestamps never decrease. *)
Theorem validator_sorts (v : list ScheduleSlot) :
  Permutation v (_ensure_sorted v) /\ sorted_schedule (_ensure_sorted v).
Proof.
  split; [apply ValidatorFacts._ensure_sorted_perm|apply ValidatorFacts._ensure_sorted_sorted].
Qed.

(** X2. The validator's sort is stable and idempotent: the slots that bear
    one timestamp keep the order they were given in, and sorting a second
    time changes nothing. *)
Theorem validator_stable (v : list ScheduleSlot) :
  (forall t, filter (fun s => timestamp s =? t) (_ensure_sorted v)
             = filter (fun s => timestamp s =? t) v)
  /\ _ensure_sorted (_ensure_sorted v) = _ensure_sorted v.
Proof.
  split.
  - intros t. apply (ValidatorMore._ensure_sorted_filter t v).
  - apply ValidatorFacts._ensure_sorted_fixed, ValidatorFacts._ensure_sorted_sorted.
Qed.

Module KeyFacts.

Definition see (ks : list string) (n : string) : list string :=
  if mem_name n ks then ks else (ks ++ [n])%list.

Lemma mem_keys {V : Type} (d : dict V) k : Dict.mem d k = mem_name k (Dict.keys d).
Proof.
  unfold Dict.mem, mem_name, Dict.keys.
  induction d as [|[k0 v0] d IH]; simpl; [reflexivity|].
  destruct (String.eqb k k0); [reflexivity|apply IH].
Qed.

Lemma keys_set_see {V : Type} (d : dict V) k v :
  Dict.keys (Dict.set d k v) = see (Dict.keys d) k.
Proof. rewrite DictFacts.keys_set, mem_keys. reflexivity. Qed.

Lemma power_keys slots P :
  Dict.keys (fold_left set_power slots P) = fold_left see (map slot_key slots) (Dict.keys P).
Proof.
  revert P. induction slots as [|slot slots IH]; intros P; [reflexivity|].
  cbn [fold_left map]. rewrite IH. unfold set_power. now rewrite keys_set_see.
Qed.

Lemma item_keys h items p E :
  Dict.keys (snd (fold_left (add_item h) items (p, E)))
  = fold_left see (map name items) (Dict.keys E).
Proof.
  revert p E. induction items as [|it items IH]; intros p E; [reflexivity|].
  cbn [fold_left map]. rewrite (surjective_pairing (add_item h (p, E) it)), IH.
  cbn [add_item snd]. now rewrite keys_set_see.
Qed.

Lemma energy_keys h slots P E :
  Dict.keys (snd (fold_left (add_slot h) slots (P, E)))
  = fold_left see (map name (flat_map data slots)) (Dict.keys E).
Proof.
  revert P E. induction slots as [|slot slots IH]; intros P E; [reflexivity|].
  cbn [fold_left flat_map].
  rewrite (surjective_pairing (add_slot h (P, E) slot)), IH.
  rewrite EnergyFacts.add_slot_energy, item_keys, map_app, fold_left_app. reflexivity.
Qed.

Lemma see_NoDup ks n : NoDup ks -> NoDup (see ks n).
Proof.
  intros H. unfold see. destruct (mem_name n ks) eqn:E; [assumption|].
  apply NoDup_app; [assumption|repeat constructor; tauto|].
  intros x Hx [<-|[]].
  assert (C : mem_name n ks = true) by now apply WindowFacts.mem_name_In.
  congruence.
Qed.

Lemma fold_see_NoDup l ks : NoDup ks -> NoDup (fold_left see l ks).
Proof.
  revert ks. induction l as [|n l IH]; intros ks H; [assumption|].
  simpl. now apply IH, see_NoDup.
Qed.

Lemma see_In ks n x : In x (see ks n) <-> In x ks \/ x = n.
Proof.
  unfold see. destruct (mem_name n ks) eqn:E.
  - apply WindowFacts.mem_name_In in E. split; [tauto|]. intros [H| ->]; assumption.
  - rewrite in_app_iff. simpl. intuition congruence.
Qed.

Lemma fold_see_In l ks x : In x (fold_left see l ks) <-> In x ks \/ In x l.
Proof.
  revert ks. induction l as [|n l IH]; intros ks; simpl; [tauto|].
  rewrite IH, see_In. intuition congruence.
Qed.

End KeyFacts.

(** X3. The aggregator's dictionaries have one key per distinct timestamp
    key and per distinct load name, in the order in which the schedule
    first shows them: no key is repeated, and a string is a key exactly if
    it is the key of a slot, or the name of an entry. *)
Theorem aggregate_keys (payload : OptimizationSchedule) :
  let a := compute_from_schedule payload in
  let stamps := map slot_key (schedule payload) in
  let loads := map name (flat_map data (schedule payload)) in
  Dict.keys (power_by_ts a) = first_seen stamps
  /\ Dict.keys (energy_by_load a) = first_seen loads
  /\ NoDup (first_seen stamps) /\ NoDup (first_seen loads)
  /\ (forall k, In k (first_seen stamps) <-> In k stamps)
  /\ (forall n, In n (first_seen loads) <-> In n loads).
Proof.
  intros a stamps loads. unfold first_seen. fold KeyFacts.see.
  split; [|split; [|split; [|split; [|split]]]].
  - unfold a. rewrite compute_power. apply KeyFacts.power_keys.
  - unfold a. rewrite EnergyFacts.compute_energy. apply KeyFacts.energy_keys.
  - apply KeyFacts.fold_see_NoDup. constructor.
  - apply KeyFacts.fold_see_NoDup. constructor.
  - intros k. rewrite KeyFacts.fold_see_In. simpl. tauto.
  - intros n. rewrite KeyFacts.fold_see_In. simpl. tauto.
Qed.

Module PeakFacts.

Lemma sub_diag_finite (p : float) :
  is_finite p = true -> B64.abs (B64.sub p p) = B64.zero.
Proof.
  destruct p as [s|s| |s m e]; try discriminate; intros _.
  - now destruct s.
  - unfold B64.sub, SFsub. rewrite Z.sub_diag. reflexivity.
Qed.

Lemma is_peak_refl (p : float) : is_finite p = true -> is_peak p p = true.
Proof. intros H. unfold is_peak. now rewrite sub_diag_finite. Qed.

Lemma is_peak_finite (m p : float) : is_peak m p = true -> is_finite m = true.
Proof.
  unfold is_peak.
  destruct m as [sm|sm| |sm mm em]; try reflexivity;
    destruct p as [sp|sp| |sp mp ep]; try (destruct sm; discriminate);
    try (destruct sm, sp; discriminate); discriminate.
Qed.

End PeakFacts.

(** X4. On a schedule with at least one slot the list of peak timestamps is
    non-empty exactly when the peak is a finite number: a peak that is
    infinite or NaN is within 1e-9 of no total, not even of itself. *)
Theorem peak_ts_nonempty_iff_finite (payload : OptimizationSchedule) :
  schedule payload <> [] ->
  let a := compute_from_schedule payload in
  let peak_val := match py_max (Dict.values (power_by_ts a)) with
                  | Some m => m
                  | None => B64.zero
                  end in
  peak_ts a <> [] <-> is_finite peak_val = true.
Proof.
  intros Hne a peak_val.
  destruct (compute_peak payload) as [_ Hts]. fold a in Hts. fold peak_val in Hts.
  rewrite Hts. split.
  - intros H.
    destruct (filter (fun kv => is_peak peak_val (snd kv)) (power_by_ts a)) as [|kv l] eqn:E;
      [now elim H|].
    assert (Hin : In kv (kv :: l)) by now left.
    rewrite <- E in Hin. apply filter_In in Hin.
    apply (PeakFacts.is_peak_finite _ _ (proj2 Hin)).
  - intros Hfin.
    assert (Hp : power_by_ts a <> []).
    { unfold a. rewrite compute_power. apply fold_set_power_nonempty. now right. }
    destruct (py_max (Dict.values (power_by_ts a))) as [m|] eqn:Em.
    + destruct (py_max_spec _ _ Em) as [Hin _].
      unfold Dict.values in Hin. apply in_map_iff in Hin. destruct Hin as [kv [Ekv Hin]].
      intros C.
      assert (Hf : In kv (filter (fun kv => is_peak peak_val (snd kv)) (power_by_ts a))).
      { apply filter_In. split; [assumption|]. rewrite Ekv. now apply PeakFacts.is_peak_refl. }
      apply map_eq_nil in C. rewrite C in Hf. exact Hf.
    + destruct (power_by_ts a); [congruence|discriminate].
Qed.

Module SignFacts.

Import Rounding.

Definition nn (x : float) : Prop := (exists s, x = S754_zero s) \/ signed_nonzero false x.

Lemma nonneg_nn x : nonnegative x = true <-> nn x.
Proof.
  unfold nonnegative, nn, signed_nonzero. split.
  - destruct x as [s|[|]| |[|] m e]; try discriminate; intros _.
    + left. now exists s.
    + right. now left.
    + right. right. now exists m, e.
  - intros [[s ->]|[->|(m & e & ->)]]; reflexivity.
Qed.

Lemma signed_nn x : signed false x -> nn x.
Proof. unfold nn, signed_nonzero. intros [->|[->|(m & e & ->)]]; eauto. Qed.

Lemma binary_normalize_nn m e : 0 <= m -> nn (binary_normalize B64.prec B64.emax m e false).
Proof.
  intros Hm. destruct m as [|p|p]; [left; now exists false| |lia].
  cbn [binary_normalize]. unfold binary_round.
  destruct (shl_align p e _) as [mz ez].
  apply signed_nn, binary_round_aux_signed. lia.
Qed.

Lemma add_nn x y : nn x -> nn y -> nn (B64.add x y).
Proof.
  intros [[sx ->]|[->|(mx & ex & ->)]] [[sy ->]|[->|(my & ey & ->)]];
    try (right; left; reflexivity).
  - left. destruct sx, sy; eexists; reflexivity.
  - right. right. now exists my, ey.
  - right. right. now exists mx, ex.
  - unfold B64.add, SFadd. apply binary_normalize_nn. cbn [cond_Zopp]. lia.
Qed.

Lemma mul_nn x m e : nn x -> nn (B64.mul x (S754_finite false m e)).
Proof.
  intros [[sx ->]|[->|(mx & ex & ->)]].
  - left. eexists. reflexivity.
  - right. left. reflexivity.
  - unfold B64.mul, SFmul. cbn [xorb]. apply signed_nn, binary_round_aux_signed. lia.
Qed.

Lemma div_half_even_nonneg a b : 0 <= a -> 0 < b -> 0 <= B64.div_half_even a b.
Proof.
  intros Ha Hb. unfold B64.div_half_even.
  assert (0 <= a / b) by (apply Z.div_pos; lia).
  destruct (2 * (a mod b) ?= b); [destruct (Z.even (a / b))| |]; lia.
Qed.

Lemma round3_nn x : nn x -> nn (round3 x).
Proof.
  intros [[sx ->]|[->|(mx & ex & ->)]].
  - left. eexists. reflexivity.
  - right. left. reflexivity.
  - unfold round3. apply signed_nn, of_quot_signed; [|lia].
    destruct ex as [|p|p].
    + lia.
    + assert (0 < 2 ^ Zpos p) by (apply Z.pow_pos_nonneg; lia). nia.
    + apply div_half_even_nonneg; [lia|]. apply Z.pow_pos_nonneg; lia.
Qed.

Lemma fold_add_nn l x : nn x -> Forall nn l -> nn (fold_left B64.add l x).
Proof.
  revert x. induction l as [|y l IH]; intros x Hx Hl; [exact Hx|].
  inversion Hl; subst. simpl. apply IH; [now apply add_nn|assumption].
Qed.

Lemma zero_nn : nn B64.zero.
Proof. left. now exists false. Qed.

Lemma values_set {V : Type} (P : V -> Prop) (d : dict V) k v :
  Forall P (Dict.values d) -> P v -> Forall P (Dict.values (Dict.set d k v)).
Proof.
  unfold Dict.values. induction d as [|[k0 v0] d IH]; simpl; intros Hd Hv.
  - now constructor.
  - inversion Hd; subst. destruct (String.eqb k k0); simpl; constructor; auto.
Qed.

Lemma get_default_P {V : Type} (P : V -> Prop) (d : dict V) k dflt :
  Forall P (Dict.values d) -> P dflt -> P (Dict.get_default d k dflt).
Proof.
  unfold Dict.get_default, Dict.values. induction d as [|[k0 v0] d IH]; simpl; intros Hd Hv.
  - exact Hv.
  - inversion Hd; subst. destruct (String.eqb k k0); auto.
Qed.

Lemma guess_finite payload :
  valid_schedule (schedule payload) ->
  exists m e, _guess_slot_hours payload = S754_finite false m e.
Proof.
  intros Hv. unfold _guess_slot_hours.
  destruct (schedule payload) as [|s0 [|s1 rest]]; simpl map; cbv iota.
  1, 2: eexists _, _; reflexivity.
  unfold Datetime.diff. rewrite total_seconds_test.
  destruct (Z.ltb_spec 0 (timestamp s1 - timestamp s0)) as [Hgap|Hgap];
    [|eexists _, _; reflexivity].
  inversion Hv as [|? ? Hv0 Hv']; subst. inversion Hv' as [|? ? Hv1 _]; subst.
  pose proof (valid_gap _ _ Hv0 Hv1) as Hlt.
  pose proof (total_seconds_normal _ (conj Hgap Hlt)) as Hs.
  pose proof (Normal.div_normal _ _ _ _ _ Hs Normal.f3600_normal ltac:(lia) ltac:(lia)) as Hq.
  destruct Hq as (m & e & Eq & _). rewrite Eq.
  unfold py_max2. destruct (B64.ltb _ B64.eps9); eexists _, _; reflexivity.
Qed.

Lemma add_item_nn m e p E it :
  nn p -> Forall nn (Dict.values E) -> nn (value it) ->
  nn (fst (add_item (S754_finite false m e) (p, E) it))
  /\ Forall nn (Dict.values (snd (add_item (S754_finite false m e) (p, E) it))).
Proof.
  intros Hp HE Hv. cbn [add_item fst snd]. split; [now apply add_nn|].
  apply values_set; [assumption|]. apply add_nn; [|now apply mul_nn].
  apply get_default_P; [assumption|apply zero_nn].
Qed.

Lemma fold_add_item_nn m e items p E :
  nn p -> Forall nn (Dict.values E) -> Forall (fun it => nn (value it)) items ->
  nn (fst (fold_left (add_item (S754_finite false m e)) items (p, E)))
  /\ Forall nn (Dict.values (snd (fold_left (add_item (S754_finite false m e)) items (p, E)))).
Proof.
  revert p E. induction items as [|it items IH]; intros p E Hp HE Hit; [now split|].
  inversion Hit as [|? ? Hv Hits]; subst. cbn [fold_left].
  destruct (add_item_nn m e p E it Hp HE Hv) as [Ha Hb].
  rewrite (surjective_pairing (add_item (S754_finite false m e) (p, E) it)).
  now apply IH.
Qed.

Lemma fold_add_slot_nn m e slots P E :
  Forall nn (Dict.values P) -> Forall nn (Dict.values E) ->
  Forall (fun it => nn (value it)) (flat_map data slots) ->
  Forall nn (Dict.values (fst (fold_left (add_slot (S754_finite false m e)) slots (P, E))))
  /\ Forall nn (Dict.values (snd (fold_left (add_slot (S754_finite false m e)) slots (P, E)))).
Proof.
  revert P E. induction slots as [|slot slots IH]; intros P E HP HE Hit; [now split|].
  cbn [flat_map] in Hit. apply Forall_app in Hit. destruct Hit as [Hit1 Hit2].
  cbn [fold_left].
  destruct (fold_add_item_nn m e (data slot) B64.zero E zero_nn HE Hit1) as [H1 H2].
  rewrite (surjective_pairing (add_slot (S754_finite false m e) (P, E) slot)).
  apply IH; [| |assumption].
  - rewrite add_slot_power. apply values_set; [assumption|].
    unfold slot_power. rewrite <- (fold_add_item_fst (S754_finite false m e) _ _ E). exact H1.
  - rewrite EnergyFacts.add_slot_energy. exact H2.
Qed.

End SignFacts.

(** X5. On a schedule of datetimes whose powers are all non-negative
    ([0.0 <= value]), nothing the aggregator returns is negative or NaN:
    every per-timestamp total, every energy, the total energy and the peak
    satisfy [0.0 <= x]. *)
Theorem aggregates_nonneg (payload : OptimizationSchedule) :
  valid_schedule (schedule payload) ->
  (forall it, In it (flat_map data (schedule payload)) -> nonnegative (value it) = true) ->
  let a := compute_from_schedule payload in
  (forall k p, Dict.get (power_by_ts a) k = Some p -> nonnegative p = true)
  /\ (forall n e, Dict.get (energy_by_load a) n = Some e -> nonnegative e = true)
  /\ nonnegative (total_kwh a) = true
  /\ nonnegative (peak_kw a) = true.
Proof.
  intros Hv Hit a.
  destruct (SignFacts.guess_finite payload Hv) as (m & e & Eh).
  assert (Hnn : Forall (fun it => SignFacts.nn (value it)) (flat_map data (schedule payload))).
  { apply Forall_forall. intros it Hin. apply SignFacts.nonneg_nn. now apply Hit. }
  destruct (SignFacts.fold_add_slot_nn m e (schedule payload) [] []) as [HP HE];
    [constructor|constructor|exact Hnn|].
  rewrite <- Eh in HP, HE.
  assert (EP : power_by_ts a
               = fst (fold_left (add_slot (_guess_slot_hours payload)) (schedule payload) ([], [])))
    by (unfold a; now rewrite compute_power, fold_add_slot_power).
  assert (EE : energy_by_load a
               = snd (fold_left (add_slot (_guess_slot_hours payload)) (schedule payload) ([], [])))
    by apply EnergyFacts.compute_energy.
  rewrite <- EP in HP. rewrite <- EE in HE.
  assert (Hget : forall (d : dict float) k v,
             Forall SignFacts.nn (Dict.values d) -> Dict.get d k = Some v -> nonnegative v = true).
  { intros d k v Hd Hg. apply SignFacts.nonneg_nn.
    apply DictFacts.get_Some_In in Hg. rewrite Forall_forall in Hd. apply Hd.
    unfold Dict.values. apply in_map_iff. now exists (k, v). }
  split; [intros k p; now apply Hget|]. split; [intros n x; now apply Hget|]. split.
  - apply SignFacts.nonneg_nn.
    assert (Et : total_kwh a = round3 (py_sum (Dict.values (energy_by_load a)))).
    { unfold a, compute_from_schedule.
      now destruct (fold_left (add_slot (_guess_slot_hours payload)) (schedule payload) ([], [])). }
    rewrite Et. apply SignFacts.round3_nn, SignFacts.fold_add_nn; [apply SignFacts.zero_nn|exact HE].
  - apply SignFacts.nonneg_nn.
    destruct (compute_peak payload) as [Hkw _]. cbv zeta in Hkw. fold a in Hkw. rewrite Hkw.
    apply SignFacts.round3_nn.
    destruct (py_max (Dict.values (power_by_ts a))) as [mx|] eqn:Em; [|apply SignFacts.zero_nn].
    destruct (py_max_spec _ _ Em) as [Hin _].
    rewrite Forall_forall in HP. now apply HP.
Qed.

(** ** The histogram *)

Module HistogramFacts.

Lemma bucket_add_None l i x : (List.length l <= i)%nat -> bucket_add l i x = None.
Proof.
  revert i. induction l as [|b l IH]; intros i Hi; [reflexivity|].
  simpl in Hi. destruct i as [|i]; [lia|]. simpl. rewrite IH by lia. reflexivity.
Qed.

Lemma bucket_add_Some l i x :
  (i < List.length l)%nat ->
  exists l', bucket_add l i x = Some l'
             /\ List.length l' = List.length l
             /\ forall h, nth h l' B64.zero
                          = if Nat.eqb h i then B64.add (nth h l B64.zero) x
                            else nth h l B64.zero.
Proof.
  revert i. induction l as [|b l IH]; intros i Hi; simpl in Hi; [lia|].
  destruct i as [|i]; simpl.
  - eexists. split; [reflexivity|]. split; [reflexivity|]. now intros [|h].
  - destruct (IH i) as (l' & E & Hl & Hn); [lia|]. rewrite E. simpl.
    eexists. split; [reflexivity|]. split; [simpl; now rewrite Hl|].
    intros [|h]; [reflexivity|]. simpl. apply Hn.
Qed.

Lemma add_bucket_step l kv :
  List.length l = 24%nat ->
  match bucket_of (fst kv) with
  | None => add_bucket (Some l) kv = None
  | Some i =>
      exists l', add_bucket (Some l) kv = Some l'
                 /\ List.length l' = 24%nat
                 /\ forall h, nth h l' B64.zero
                              = if Nat.eqb h i
                                then B64.add (nth h l B64.zero) (watt_hours (snd kv))
                                else nth h l B64.zero
  end.
Proof.
  intros Hl. destruct kv as [ts p]. unfold bucket_of, add_bucket. cbn [fst snd].
  destruct (py_int (substring 11 2 ts)) as [hour|]; [|reflexivity].
  destruct (Z.leb_spec 0 hour) as [H0|H0]; cbn [andb].
  - destruct (Z.ltb_spec hour 0) as [C|_]; [lia|].
    destruct (Z.ltb_spec hour 24) as [H24|H24].
    + destruct (bucket_add_Some l (Z.to_nat hour) (watt_hours p)) as (l' & E & Hl' & Hn); [lia|].
      exists l'. repeat split; [exact E|congruence|exact Hn].
    + apply bucket_add_None. lia.
  - destruct (Z.ltb_spec hour 0) as [_|C]; [reflexivity|lia].
Qed.

Lemma fold_add_bucket_None power : fold_left add_bucket power None = None.
Proof. induction power as [|kv power IH]; [reflexivity|exact IH]. Qed.

Lemma fold_add_bucket power l :
  List.length l = 24%nat ->
  match fold_left add_bucket power (Some l) with
  | None => exists kv, In kv power /\ bucket_of (fst kv) = None
  | Some l' =>
      List.length l' = 24%nat
      /\ (forall kv, In kv power -> bucket_of (fst kv) <> None)
      /\ forall h, nth h l' B64.zero
                   = fold_left B64.add (map (fun kv => watt_hours (snd kv))
                                          (filter (in_bucket h) power))
                       (nth h l B64.zero)
  end.
Proof.
  revert l. induction power as [|kv power IH]; intros l Hl.
  - simpl. repeat split; [assumption|intros ? []].
  - cbn [fold_left]. pose proof (add_bucket_step l kv Hl) as Hs.
    destruct (bucket_of (fst kv)) as [i|] eqn:Eb.
    + destruct Hs as (l1 & E1 & Hl1 & Hn1). rewrite E1.
      specialize (IH l1 Hl1).
      destruct (fold_left add_bucket power (Some l1)) as [l'|].
      * destruct IH as (Hl' & Hok & Hn). repeat split; [assumption| |].
        -- intros kv' [<-|Hin]; [congruence|now apply Hok].
        -- intros h. rewrite Hn, Hn1. cbn [filter]. unfold in_bucket at 2. rewrite Eb.
           rewrite (Nat.eqb_sym i h). now destruct (Nat.eqb h i).
      * destruct IH as (kv' & Hin & E). exists kv'. split; [now right|assumption].
    + rewrite Hs, fold_add_bucket_None. exists kv. split; [now left|assumption].
Qed.

Lemma zeros_length : List.length (repeat B64.zero 24) = 24%nat.
Proof. reflexivity. Qed.

Lemma nth_zeros h : nth h (repeat B64.zero 24) B64.zero = B64.zero.
Proof. do 24 (destruct h as [|h]; [reflexivity|]). now destruct h. Qed.

Lemma bucket_of_slot_key t :
  bucket_of (Datetime.strftime_key t) = Some (Z.to_nat (Datetime.hour t)).
Proof.
  unfold bucket_of. rewrite Conservation.key_hour.
  pose proof (hour_range t) as H.
  destruct (Z.leb_spec 0 (Datetime.hour t)); [|lia].
  destruct (Z.ltb_spec (Datetime.hour t) 24); [reflexivity|lia].
Qed.

End HistogramFacts.

(** X7. Whatever the ASCII keys, when the histogram is built it has its 24
    buckets, and the bucket of hour [h] holds the sum, in the order of the
    keys and starting from 0.0, of [p * 0.25 * 1000] over the keys whose
    hour field reads [h], the day they belong to playing no part. *)
Theorem histogram_buckets (power : dict float) (buckets : list float) :
  ascii_keys power ->
  per_hour_Wh power = Some buckets ->
  List.length buckets = 24%nat
  /\ forall h,
       nth h buckets B64.zero
       = py_sum (map (fun kv => watt_hours (snd kv)) (filter (in_bucket h) power)).
Proof.
  intros _ E. unfold per_hour_Wh in E.
  pose proof (HistogramFacts.fold_add_bucket power _ HistogramFacts.zeros_length) as H.
  rewrite E in H. destruct H as (Hl & _ & Hn). split; [exact Hl|].
  intros h. rewrite Hn, HistogramFacts.nth_zeros. reflexivity.
Qed.

(** X8. On ASCII keys the histogram raises exactly when some key has,
    where the hour should stand, something that does not read as one of
    the hours [0 .. 23]. *)
Theorem histogram_raises_iff (power : dict float) :
  ascii_keys power ->
  (build_24h_csv power = None
   <-> exists kv, In kv power /\ bucket_of (fst kv) = None).
Proof.
  intros _. unfold build_24h_csv, per_hour_Wh.
  pose proof (HistogramFacts.fold_add_bucket power _ HistogramFacts.zeros_length) as H.
  destruct (fold_left add_bucket power (Some (repeat B64.zero 24))) as [l'|].
  - destruct H as (_ & Hok & _). split; [discriminate|].
    intros (kv & Hin & E). elim (Hok kv Hin E).
  - split; [intros _; exact H|reflexivity].
Qed.

(** X6. The histogram never raises on what the aggregator returns for
    timestamps with a year of four digits: every key of [power_by_ts] is
    the key of a slot and falls into the bucket of the hour of the slot's
    timestamp. *)
Theorem histogram_of_aggregates (payload : OptimizationSchedule) :
  four_digit_years (schedule payload) ->
  let a := compute_from_schedule payload in
  (exists csv, build_24h_csv (power_by_ts a) = Some csv)
  /\ forall k, In k (Dict.keys (power_by_ts a)) ->
       exists slot, In slot (schedule payload) /\ k = slot_key slot
                    /\ bucket_of k = Some (Z.to_nat (Datetime.hour (timestamp slot))).
Proof.
  intros _ a.
  assert (Hkeys : forall k, In k (Dict.keys (power_by_ts a)) ->
            exists slot, In slot (schedule payload) /\ k = slot_key slot
                         /\ bucket_of k = Some (Z.to_nat (Datetime.hour (timestamp slot)))).
  { intros k Hin. unfold a in Hin. rewrite compute_power, KeyFacts.power_keys in Hin.
    apply KeyFacts.fold_see_In in Hin. destruct Hin as [[]|Hin].
    apply in_map_iff in Hin. destruct Hin as (slot & <- & Hin).
    exists slot. repeat split; [assumption|apply HistogramFacts.bucket_of_slot_key]. }
  split; [|exact Hkeys].
  unfold build_24h_csv, per_hour_Wh.
  pose proof (HistogramFacts.fold_add_bucket (power_by_ts a) _ HistogramFacts.zeros_length) as H.
  destruct (fold_left add_bucket (power_by_ts a) (Some (repeat B64.zero 24))) as [l'|].
  - eexists. reflexivity.
  - destruct H as ([k p] & Hin & E). exfalso.
    destruct (Hkeys k) as (slot & _ & _ & Hb).
    + unfold Dict.keys. apply in_map_iff. exists (k, p). now split.
    + simpl in E. congruence.
Qed.

(** ** The windows *)

Module WindowMore.

Lemma open_new_names ts items items' A :
  map name items = map name items' -> open_new ts items A = open_new ts items' A.
Proof.
  unfold open_new. revert items' A.
  induction items as [|it items IH]; intros [|it' items'] A E; try discriminate; [reflexivity|].
  simpl in E. injection E as E1 E2. cbn [fold_left]. rewrite E1. now apply IH.
Qed.

Lemma windows_loop_names h slots slots' W A :
  Forall2 same_loads slots slots' ->
  windows_loop h slots W A = windows_loop h slots' W A.
Proof.
  intros H. revert W A. induction H as [|s s' rest rest' [Ht Hn] Hrest IH]; intros W A;
    [reflexivity|].
  cbn [windows_loop]. rewrite <- Ht, <- Hn.
  destruct (close_absent (timestamp s) (map name (data s)) W A) as [W1 A1].
  rewrite (open_new_names (timestamp s) (data s) (data s')) by exact Hn.
  destruct Hrest as [|r r' rest rest' Hr Hrest]; [reflexivity|].
  apply IH.
Qed.

Lemma same_loads_timestamps slots slots' :
  Forall2 same_loads slots slots' -> map timestamp slots = map timestamp slots'.
Proof.
  induction 1 as [|s s' rest rest' [Ht _] _ IH]; [reflexivity|].
  simpl. now rewrite Ht, IH.
Qed.

Lemma windows_mem payload w n :
  load_windows_15m payload = Some w ->
  (Dict.mem w n = true <-> exists slot, In slot (schedule payload) /\ present n slot = true).
Proof.
  intros Hw.
  destruct (schedule payload) as [|slot0 rest] eqn:Es.
  - assert (E : load_windows_15m payload = Some []).
    { unfold load_windows_15m. now rewrite Es. }
    rewrite E in Hw. injection Hw as <-.
    split; [discriminate|]. intros [slot [[] _]].
  - assert (Hne : schedule payload <> []) by (rewrite Es; discriminate).
    pose proof (WindowFacts.load_windows_trace payload Hne) as H.
    rewrite <- Es.
    destruct (window_end payload) as [e|]; [|congruence].
    destruct H as (w' & Hw' & Hget). rewrite Hw' in Hw. injection Hw as <-.
    unfold Dict.mem. rewrite Hget.
    pose proof (WindowFacts.trace_nonempty n e (schedule payload) None) as Hn.
    destruct (WindowFacts.trace n e (schedule payload) None) as [|x l] eqn:Et; simpl.
    + split; [discriminate|]. intros Hex. exfalso.
      assert (C : @nil window <> []) by (apply Hn; now right). congruence.
    + split; [|reflexivity]. intros _.
      destruct Hn as [Hn _]. destruct (Hn ltac:(discriminate)) as [C|Hex]; [congruence|exact Hex].
Qed.

Lemma present_In n slot : present n slot = true <-> In n (map name (data slot)).
Proof. unfold present. apply WindowFacts.mem_name_In. Qed.

Lemma In_keys_mem {V : Type} (d : dict V) k : In k (Dict.keys d) <-> Dict.mem d k = true.
Proof. rewrite KeyFacts.mem_keys. symmetry. apply WindowFacts.mem_name_In. Qed.

End WindowMore.

(** X9. The window builder never looks at a power: two schedules whose
    slots bear the same timestamps and name the same loads in the same
    order get the same windows, or raise alike. *)
Theorem windows_ignore_power (payload payload' : OptimizationSchedule) :
  Forall2 same_loads (schedule payload) (schedule payload') ->
  load_windows_15m payload = load_windows_15m payload'.
Proof.
  intros H. unfold load_windows_15m.
  assert (Hh : _guess_slot_hours payload = _guess_slot_hours payload').
  { unfold _guess_slot_hours. now rewrite (WindowMore.same_loads_timestamps _ _ H). }
  rewrite Hh. now apply WindowMore.windows_loop_names.
Qed.

(** X10. The loads that get windows are the loads that get an energy: the
    keys of the window builder's mapping and of [energy_by_load] are the
    same, so the report finds an energy for every load it lists. *)
Theorem windows_and_energy_keys (payload : OptimizationSchedule) (w : dict (list window)) :
  load_windows_15m payload = Some w ->
  forall n,
    (In n (Dict.keys w) <-> In n (Dict.keys (energy_by_load (compute_from_schedule payload))))
    /\ (In n (Dict.keys w) ->
        exists e, Dict.get (energy_by_load (compute_from_schedule payload)) n = Some e).
Proof.
  intros Hw n.
  assert (Hiff : In n (Dict.keys w)
                 <-> In n (Dict.keys (energy_by_load (compute_from_schedule payload)))).
  { rewrite WindowMore.In_keys_mem, (WindowMore.windows_mem payload w n Hw).
    rewrite EnergyFacts.compute_energy, KeyFacts.energy_keys, KeyFacts.fold_see_In.
    rewrite in_map_iff. split.
    - intros (slot & Hin & Hp). right. apply WindowMore.present_In in Hp.
      apply in_map_iff in Hp. destruct Hp as (it & E & Hit).
      exists it. split; [assumption|]. apply in_flat_map. now exists slot.
    - intros [[]|(it & E & Hit)]. apply in_flat_map in Hit. destruct Hit as (slot & Hin & Hit).
      exists slot. split; [assumption|]. apply WindowMore.present_In.
      apply in_map_iff. now exists it. }
  split; [exact Hiff|].
  intros Hin. apply Hiff in Hin.
  destruct (Dict.get (energy_by_load (compute_from_schedule payload)) n) as [e|] eqn:E;
    [now exists e|].
  apply DictFacts.get_None_keys in E. contradiction.
Qed.

Module RenderFacts.

Lemma hour_shift t k : Datetime.hour (t + k * Datetime.US_PER_DAY) = Datetime.hour t.
Proof.
  unfold Datetime.hour, Datetime.US_PER_DAY, Datetime.US_PER_HOUR.
  replace (t + k * 86400000000) with (t + (k * 24) * 3600000000) by lia.
  rewrite Z.div_add by lia. rewrite Z.add_mod, Z.mod_mul by lia.
  rewrite Z.add_0_r. apply Z.mod_mod. lia.
Qed.

Lemma minute_shift t k : Datetime.minute (t + k * Datetime.US_PER_DAY) = Datetime.minute t.
Proof.
  unfold Datetime.minute, Datetime.US_PER_DAY, Datetime.US_PER_MINUTE.
  replace (t + k * 86400000000) with (t + (k * 1440) * 60000000) by lia.
  rewrite Z.div_add by lia. replace (k * 1440) with (k * 24 * 60) by lia.
  rewrite Z.add_mod, Z.mod_mul by lia.
  rewrite Z.add_0_r. apply Z.mod_mod. lia.
Qed.

End RenderFacts.

(** X13. A rendered window shows times of day only: moving its start or its
    end by whole days changes nothing, so a window that crosses midnight
    reads like one that ends before it starts, and windows on different
    days can read the same. *)
Theorem fmt_range_pt_drops_date (start_dt end_dt j k : Z) :
  fmt_range_pt (start_dt + j * Datetime.US_PER_DAY) (end_dt + k * Datetime.US_PER_DAY)
  = fmt_range_pt start_dt end_dt.
Proof.
  unfold fmt_range_pt, Datetime.strftime_HhM.
  now rewrite !RenderFacts.hour_shift, !RenderFacts.minute_shift.
Qed.

Module WindowOrder.

Import WindowFacts.

(** The slots still to come are in timestamp order, none after the closing
    instant, and none before the start of the open window. *)
Record ahead_le (e : datetime) (slots : list ScheduleSlot) (a : option datetime) : Prop := {
  ahead_le_sorted : StronglySorted ts_le slots;
  ahead_le_end : forall slot, In slot slots -> timestamp slot <= e;
  ahead_le_open : forall s, a = Some s -> s <= e /\ forall slot, In slot slots -> s <= timestamp slot
}.

Lemma ahead_le_present e slot rest a :
  ahead_le e (slot :: rest) a ->
  ahead_le e rest (Some (match a with Some s => s | None => timestamp slot end)).
Proof.
  intros [Hs He Ho]. inversion Hs as [|? ? Hs' Hall]; subst.
  rewrite Forall_forall in Hall. split.
  - exact Hs'.
  - intros x Hx. apply He. now right.
  - intros s [= <-]. destruct a as [s|].
    + destruct (Ho s eq_refl) as [H1 H2]. split; [exact H1|].
      intros x Hx. apply H2. now right.
    + split; [apply He; now left|]. intros x Hx. now apply Hall.
Qed.

Lemma ahead_le_absent e slot rest a :
  ahead_le e (slot :: rest) a -> ahead_le e rest None.
Proof.
  intros [Hs He Ho]. inversion Hs as [|? ? Hs' Hall]; subst. split.
  - exact Hs'.
  - intros x Hx. apply He. now right.
  - discriminate.
Qed.

Lemma ahead_le_head e slot rest a x :
  ahead_le e (slot :: rest) a -> In x rest -> timestamp slot <= timestamp x.
Proof.
  intros [Hs _ _] Hx. inversion Hs as [|? ? _ Hall]; subst.
  rewrite Forall_forall in Hall. now apply Hall.
Qed.

Lemma trace_bounds_le n e slots a :
  ahead_le e slots a ->
  forall w, In w (trace n e slots a) ->
    fst w <= snd w
    /\ (a = Some (fst w)
        \/ exists slot, In slot slots /\ present n slot = true /\ fst w = timestamp slot)
    /\ (snd w = e \/ exists slot, In slot slots /\ snd w = timestamp slot).
Proof.
  revert a. induction slots as [|slot rest IH]; intros a Ha w Hw; simpl in Hw.
  - destruct a as [s|]; [|contradiction]. destruct Hw as [<-|[]]. simpl.
    destruct (ahead_le_open _ _ _ Ha s eq_refl) as [H _]. auto.
  - destruct (present n slot) eqn:Ep.
    + destruct (IH _ (ahead_le_present _ _ _ _ Ha) w Hw) as (Hb & Hst & Hen).
      split; [exact Hb|]. split.
      * destruct Hst as [E|(x & Hx & Hp & Ex)].
        -- destruct a as [s|]; [left; exact E|].
           right. exists slot. split; [now left|]. split; [exact Ep|congruence].
        -- right. exists x. split; [now right|]. now split.
      * destruct Hen as [E|[x [Hx Ex]]]; [now left|].
        right. exists x. split; [now right|exact Ex].
    + apply in_app_or in Hw. destruct Hw as [Hw|Hw].
      * destruct a as [s|]; [|contradiction]. destruct Hw as [<-|[]]. simpl.
        destruct (ahead_le_open _ _ _ Ha s eq_refl) as [_ H].
        specialize (H slot (or_introl eq_refl)).
        split; [exact H|]. split; [now left|].
        right. exists slot. split; [now left|reflexivity].
      * destruct (IH _ (ahead_le_absent _ _ _ _ Ha) w Hw) as (Hb & Hst & Hen).
        split; [exact Hb|]. split.
        -- destruct Hst as [E|(x & Hx & Hp & Ex)]; [discriminate|].
           right. exists x. split; [now right|]. now split.
        -- destruct Hen as [E|[x [Hx Ex]]]; [now left|].
           right. exists x. split; [now right|exact Ex].
Qed.

Lemma trace_ordered n e slots a :
  ahead_le e slots a -> windows_ordered (trace n e slots a).
Proof.
  unfold windows_ordered.
  revert a. induction slots as [|slot rest IH]; intros a Ha; simpl.
  - destruct a; repeat constructor.
  - destruct (present n slot).
    + apply IH. eapply ahead_le_present; eauto.
    + pose proof (ahead_le_absent _ _ _ _ Ha) as Ha'.
      destruct a as [s|]; simpl; [|now apply IH].
      constructor; [now apply IH|].
      apply Forall_forall. intros w Hw.
      destruct (trace_bounds_le n e rest None Ha' w Hw) as (_ & Hst & _).
      destruct Hst as [E|(x & Hx & _ & Ex)]; [discriminate|].
      pose proof (ahead_le_head _ _ _ _ x Ha Hx). simpl. lia.
Qed.

Lemma trace_reaches n e slots a :
  ahead_le e slots a ->
  forall slot, In slot slots -> present n slot = true ->
    exists w, In w (trace n e slots a) /\ fst w <= timestamp slot <= snd w.
Proof.
  revert a. induction slots as [|slot rest IH]; intros a Ha x Hx Hp; [contradiction|].
  simpl. destruct (present n slot) eqn:Ep.
  - pose proof (ahead_le_present _ _ _ _ Ha) as Ha'.
    destruct Hx as [<-|Hx]; [|now apply IH].
    set (s' := match a with Some s => s | None => timestamp slot end) in *.
    destruct (trace_head n e rest s') as (y & tl & E).
    exists (s', y). rewrite E. split; [now left|]. simpl.
    assert (Hin : In (s', y) (trace n e rest (Some s'))) by (rewrite E; now left).
    destruct (trace_bounds_le n e rest _ Ha' _ Hin) as (_ & _ & Hen). simpl in Hen.
    split.
    + unfold s'. destruct a as [s|]; [|lia].
      destruct (ahead_le_open _ _ _ Ha s eq_refl) as [_ H].
      apply H. now left.
    + destruct Hen as [->|[z [Hz ->]]].
      * apply (ahead_le_end _ _ _ Ha). now left.
      * eapply ahead_le_head; eauto.
  - pose proof (ahead_le_absent _ _ _ _ Ha) as Ha'.
    destruct Hx as [<-|Hx]; [congruence|].
    destruct (IH None Ha' x Hx Hp) as (w & Hw & Hcov).
    exists w. split; [apply in_or_app; now right|exact Hcov].
Qed.

Lemma final_timestamp_max_le slots t :
  StronglySorted ts_le slots -> final_timestamp slots = Some t ->
  forall slot, In slot slots -> timestamp slot <= t.
Proof.
  induction slots as [|x l _] using rev_ind; [discriminate|].
  rewrite final_timestamp_snoc. intros Hs [= <-] slot Hin.
  apply in_app_or in Hin. destruct Hin as [Hin|[<-|[]]]; [|lia].
  induction l as [|y l IH]; [contradiction|].
  simpl in Hs. inversion Hs as [|? ? Hs' Hall]; subst.
  destruct Hin as [<-|Hin]; [|now apply IH].
  rewrite Forall_forall in Hall. apply (Hall x), in_or_app. right. now left.
Qed.

End WindowOrder.

(** X12. What holds of the windows on every schedule the validator
    returns, repeated timestamps included, when the closing instant
    exists: no window ends before it starts, every window starts at a slot
    in which the load is present, no window starts before the end of the
    one before, and every slot in which the load is present lies in one of
    the load's windows, taken with its end. *)
Theorem windows_on_sorted (payload : OptimizationSchedule) (e : Z) :
  sorted_schedule (schedule payload) ->
  valid_schedule (schedule payload) ->
  window_end payload = Some e ->
  exists w,
    load_windows_15m payload = Some w
    /\ forall n,
         let ws := Dict.get_default w n [] in
         (forall x, In x ws ->
            fst x <= snd x
            /\ exists slot, In slot (schedule payload)
                            /\ present n slot = true /\ fst x = timestamp slot)
         /\ windows_ordered ws
         /\ (forall slot, In slot (schedule payload) -> present n slot = true ->
               exists x, In x ws /\ fst x <= timestamp slot <= snd x).
Proof.
  intros Hsorted Hvalid Hend.
  assert (Hne : schedule payload <> []).
  { intros C. unfold window_end, closing_instant in Hend. rewrite C in Hend. discriminate. }
  destruct (last_timestamp payload) as [t|] eqn:Hlast.
  2: { unfold last_timestamp, final_timestamp in Hlast.
       destruct (schedule payload); [congruence|discriminate]. }
  assert (Hlt : t < e).
  { destruct (window_end_cases payload Hvalid t Hlast) as (d & _ & Hpos & _ & Hw).
    rewrite Hend in Hw. destruct (t + d <=? Datetime.max_us); [|discriminate].
    injection Hw as ->. lia. }
  pose proof (WindowFacts.load_windows_trace payload Hne) as H.
  rewrite Hend in H. destruct H as (w & Hw & Hget). exists w. split; [exact Hw|].
  intros n ws.
  assert (Ews : ws = WindowFacts.trace n e (schedule payload) None).
  { unfold ws, Dict.get_default. rewrite Hget. apply WindowFacts.extend_None_default. }
  rewrite Ews.
  assert (Ha : WindowOrder.ahead_le e (schedule payload) None).
  { apply sorted_strong in Hsorted. split.
    - exact Hsorted.
    - intros slot Hin.
      pose proof (WindowOrder.final_timestamp_max_le _ _ Hsorted Hlast slot Hin). lia.
    - discriminate. }
  split; [|split].
  - intros x Hx. destruct (WindowOrder.trace_bounds_le n e _ _ Ha x Hx) as (Hb & Hst & _).
    split; [exact Hb|]. destruct Hst as [C|Hst]; [discriminate|exact Hst].
  - now apply WindowOrder.trace_ordered.
  - now apply WindowOrder.trace_reaches.
Qed.

Module RunFacts.

Definition is_open (a : option datetime) : bool :=
  match a with Some _ => true | None => false end.

Lemma trace_length n e slots a :
  List.length (WindowFacts.trace n e slots a)
  = ((if is_open a then 1 else 0) + runs n slots (is_open a))%nat.
Proof.
  revert a. induction slots as [|slot rest IH]; intros a.
  - destruct a; reflexivity.
  - cbn [WindowFacts.trace runs]. destruct (present n slot).
    + rewrite IH. destruct a; reflexivity.
    + rewrite length_app, IH. destruct a; reflexivity.
Qed.

End RunFacts.

(** X11. A load gets one window for each run of consecutive slots in which
    it is present, whatever the timestamps. *)
Theorem windows_count_runs (payload : OptimizationSchedule) (w : dict (list window)) :
  load_windows_15m payload = Some w ->
  forall n, List.length (Dict.get_default w n []) = runs n (schedule payload) false.
Proof.
  intros Hw n.
  destruct (schedule payload) as [|slot0 rest] eqn:Es.
  - assert (E : load_windows_15m payload = Some []).
    { unfold load_windows_15m. now rewrite Es. }
    rewrite E in Hw. injection Hw as <-. reflexivity.
  - assert (Hne : schedule payload <> []) by (rewrite Es; discriminate).
    pose proof (WindowFacts.load_windows_trace payload Hne) as H.
    rewrite <- Es.
    destruct (window_end payload) as [e|]; [|congruence].
    destruct H as (w' & Hw' & Hget). rewrite Hw' in Hw. injection Hw as <-.
    unfold Dict.get_default. rewrite Hget, WindowFacts.extend_None_default.
    apply (RunFacts.trace_length n e (schedule payload) None).
Qed.

(** ** The report *)

Module StrFacts.

Lemma startswith_iff s p : Str.startswith s p = true <-> exists post, s = (p ++ post)%list.
Proof.
  revert s. induction p as [|a p IH]; intros s; simpl.
  - split; [intros _; now exists s|reflexivity].
  - destruct s as [|b s].
    + split; [discriminate|]. intros [post E]. discriminate.
    + rewrite andb_true_iff, Z.eqb_eq, IH. split.
      * intros [-> [post ->]]. now exists post.
      * intros [post E]. injection E as -> ->. split; [reflexivity|now exists post].
Qed.

Lemma contains_iff n h :
  Str.contains n h = true <-> exists pre post, h = (pre ++ n ++ post)%list.
Proof.
  induction h as [|c h IH]; simpl.
  - rewrite orb_false_r, startswith_iff. split.
    + intros [post E]. now exists [], post.
    + intros (pre & post & E). destruct pre as [|x pre]; [|discriminate].
      now exists post.
  - rewrite orb_true_iff, startswith_iff, IH. split.
    + intros [[post E]|(pre & post & E)].
      * now exists [], post.
      * exists (c :: pre), post. now rewrite E.
    + intros (pre & post & E). destruct pre as [|x pre].
      * left. now exists post.
      * right. injection E as -> E. now exists pre, post.
Qed.

Lemma contains_app_l n a b : Str.contains n a = true -> Str.contains n (a ++ b) = true.
Proof.
  rewrite !contains_iff. intros (pre & post & ->).
  exists pre, (post ++ b)%list. now rewrite <- !app_assoc.
Qed.

Lemma contains_app_r n a b : Str.contains n b = true -> Str.contains n (a ++ b) = true.
Proof.
  rewrite !contains_iff. intros (pre & post & ->).
  exists (a ++ pre)%list, post. now rewrite <- !app_assoc.
Qed.

Lemma contains_firstn n k h :
  Str.contains n (firstn k h) = true -> Str.contains n h = true.
Proof.
  intros H. rewrite <- (firstn_skipn k h). now apply contains_app_l.
Qed.

Lemma lstrip_app x c y :
  Str.isspace c = false -> Str.lstrip (x ++ c :: y) = (Str.lstrip x ++ c :: y)%list.
Proof.
  intros Hc. induction x as [|a x IH]; simpl.
  - now rewrite Hc.
  - destruct (Str.isspace a); [exact IH|reflexivity].
Qed.

Lemma rstrip_app a c b :
  Str.isspace c = false -> Str.rstrip (a ++ c :: b) = (a ++ c :: Str.rstrip b)%list.
Proof.
  intros Hc. unfold Str.rstrip. rewrite rev_app_distr. simpl rev.
  rewrite <- app_assoc. simpl. rewrite lstrip_app by assumption.
  rewrite rev_app_distr. simpl. now rewrite rev_involutive, <- app_assoc.
Qed.

(** What [rstrip] keeps of a text that holds [x ++ [c]], for a [c] that is
    no white space. *)
Lemma rstrip_keeps pre x c post :
  Str.isspace c = false ->
  Str.rstrip (pre ++ (x ++ [c]) ++ post) = (pre ++ (x ++ [c]) ++ Str.rstrip post)%list.
Proof.
  intros Hc.
  replace (pre ++ (x ++ [c]) ++ post)%list with ((pre ++ x) ++ c :: post)%list
    by (now rewrite <- !app_assoc).
  rewrite rstrip_app by assumption. now rewrite <- !app_assoc.
Qed.

Lemma header_line_ends who :
  header_line who = ((Str.lit "Ol" ++ [225] ++ Str.lit "! Sou " ++ who) ++ [44])%list.
Proof. unfold header_line. now rewrite <- !app_assoc. Qed.

Lemma contains_rstrip_header who t :
  Str.contains (header_line who) t = true ->
  Str.contains (header_line who) (Str.rstrip t) = true.
Proof.
  rewrite !contains_iff. intros (pre & post & ->).
  rewrite header_line_ends, rstrip_keeps by reflexivity. eauto.
Qed.

Lemma contains_costs_section cost_lines :
  Str.contains costs_title (costs_section cost_lines) = true.
Proof.
  apply contains_iff.
  exists ([10; 10] ++ Str.lit "## ")%list,
         ([10] ++ Str.join [10] (map (fun x => Str.lit "- " ++ x)%list cost_lines) ++ [10])%list.
  reflexivity.
Qed.

End StrFacts.

Lemma opening_ends who :
  (header_line who ++ opening_rest)%list
  = ((header_line who ++ removelast opening_rest) ++ [46])%list.
Proof. rewrite <- app_assoc. reflexivity. Qed.

(** X16. Whatever the language model writes, the text of the report holds
    the greeting of the persona: a text that has it among its first 160
    characters keeps it, and any other text gets the opening sentence as
    its beginning. *)
Theorem greeting_guaranteed (who : list Z) (cost_lines : list (list Z)) (text : list Z) :
  let out := postprocess who cost_lines text in
  Str.contains (header_line who) out = true
  /\ (Str.contains (header_line who) (firstn 160 text) = false ->
      Str.startswith out (header_line who ++ opening_rest) = true).
Proof.
  intros out. unfold out, postprocess, with_costs, with_header.
  destruct (Str.contains (header_line who) (firstn 160 text)) eqn:E; cbn [negb].
  - split; [|discriminate].
    apply StrFacts.contains_firstn in E.
    destruct cost_lines as [|x l]; [exact E|].
    destruct (Str.contains costs_title text); cbn [negb]; [exact E|].
    now apply StrFacts.contains_app_l, StrFacts.contains_rstrip_header.
  - set (text1 := (header_line who ++ opening_rest ++ [10; 10] ++ text)%list).
    assert (H1 : Str.contains (header_line who) text1 = true).
    { apply StrFacts.contains_iff. now exists [], (opening_rest ++ [10; 10] ++ text)%list. }
    assert (H2 : Str.startswith text1 (header_line who ++ opening_rest) = true).
    { apply StrFacts.startswith_iff. exists ([10; 10] ++ text)%list.
      unfold text1. now rewrite <- app_assoc. }
    destruct cost_lines as [|x l]; [split; [exact H1|intros _; exact H2]|].
    destruct (Str.contains costs_title text1); cbn [negb]; [split; [exact H1|intros _; exact H2]|].
    split; [now apply StrFacts.contains_app_l, StrFacts.contains_rstrip_header|].
    intros _. apply StrFacts.startswith_iff.
    exists (Str.rstrip ([10; 10] ++ text) ++ costs_section (x :: l))%list.
    unfold text1.
    replace (header_line who ++ opening_rest ++ [10; 10] ++ text)%list
      with ([] ++ ((header_line who ++ removelast opening_rest) ++ [46]) ++ [10; 10] ++ text)%list
      by (rewrite <- opening_ends, <- app_assoc; reflexivity).
    rewrite StrFacts.rstrip_keeps by reflexivity.
    rewrite <- opening_ends. cbn [app]. now rewrite <- !app_assoc.
Qed.

Module ReportFacts.

Lemma join_In sep x l :
  In x l -> exists pre post, Str.join sep l = (pre ++ x ++ post)%list.
Proof.
  induction l as [|y l IH]; [intros []|].
  intros [->|Hin].
  - destruct l as [|z l]; [exists [], []; simpl; now rewrite app_nil_r|].
    exists [], (sep ++ Str.join sep (z :: l))%list. reflexivity.
  - destruct (IH Hin) as (pre & post & E).
    destruct l as [|z l]; [destruct Hin|].
    exists (y ++ sep ++ pre)%list, post.
    change (Str.join sep (y :: z :: l)) with (y ++ sep ++ Str.join sep (z :: l))%list.
    rewrite E. now rewrite <- !app_assoc.
Qed.

Lemma costs_section_line cost_lines x :
  In x cost_lines ->
  Str.contains (Str.lit "- " ++ x) (costs_section cost_lines) = true.
Proof.
  intros Hin. apply StrFacts.contains_iff.
  destruct (join_In [10] (Str.lit "- " ++ x)%list
              (map (fun x => Str.lit "- " ++ x)%list cost_lines)) as (pre & post & E).
  { apply in_map_iff. now exists x. }
  unfold costs_section. rewrite E.
  exists ([10; 10] ++ Str.lit "## Custos do dia" ++ [10] ++ pre)%list, (post ++ [10])%list.
  now rewrite <- !app_assoc.
Qed.

Lemma lstrip_spaces_or_keeps x :
  Str.lstrip x = [] \/ exists a c b, x = (a ++ c :: b)%list /\ Str.isspace c = false
                                     /\ Str.lstrip x = c :: b.
Proof.
  induction x as [|c x IH]; [now left|]. simpl.
  destruct (Str.isspace c) eqn:Ec.
  - destruct IH as [E|(a & c' & b & -> & Hc & E)]; [now left|].
    right. exists (c :: a), c', b. auto.
  - right. exists [], c, x. auto.
Qed.

(** [rstrip] on a text put after another. *)
Lemma rstrip_after a b :
  Str.rstrip (a ++ b)
  = match Str.rstrip b with
    | [] => Str.rstrip a
    | _ => (a ++ Str.rstrip b)%list
    end.
Proof.
  unfold Str.rstrip. rewrite rev_app_distr.
  destruct (lstrip_spaces_or_keeps (rev b)) as [E|(x & c & y & E & Hc & El)].
  - rewrite E. simpl.
    assert (H : forall u v, Str.lstrip u = [] -> Str.lstrip (u ++ v) = Str.lstrip v).
    { induction u as [|c u IH]; intros v Hu; [reflexivity|]. simpl in *.
      destruct (Str.isspace c); [now apply IH|discriminate]. }
    now rewrite H.
  - rewrite El. rewrite E in El |- *.
    rewrite StrFacts.lstrip_app in El by assumption.
    assert (Hx : Str.lstrip x = []).
    { apply (app_inv_tail (c :: y)). exact El. }
    rewrite <- app_assoc. cbn [app]. rewrite StrFacts.lstrip_app, Hx by assumption.
    cbn [app].
    destruct (rev (c :: y)) as [|z l] eqn:Er.
    + apply (f_equal (@List.length Z)) in Er. rewrite length_rev in Er. discriminate.
    + rewrite <- Er. replace (c :: y ++ rev a)%list with ((c :: y) ++ rev a)%list by reflexivity.
      now rewrite rev_app_distr, rev_involutive.
Qed.

Lemma contains_refl x : Str.contains x x = true.
Proof. apply StrFacts.contains_iff. exists [], []. now rewrite app_nil_r. Qed.

Lemma contains_nil h : Str.contains [] h = true.
Proof. apply StrFacts.contains_iff. now exists [], h. Qed.

Lemma contains_rstrip_after a b s :
  Str.contains (Str.rstrip b) (Str.rstrip (a ++ b) ++ s) = true.
Proof.
  rewrite rstrip_after. destruct (Str.rstrip b) as [|c l] eqn:E; [apply contains_nil|].
  apply StrFacts.contains_app_l, StrFacts.contains_app_r, contains_refl.
Qed.

Lemma firstn_contains n k h :
  Str.contains n (firstn k h) = true
  <-> exists pre post, h = (pre ++ n ++ post)%list
                       /\ (List.length pre + List.length n <= k)%nat.
Proof.
  rewrite StrFacts.contains_iff. split.
  - intros (pre & post & E). exists pre, (post ++ skipn k h)%list. split.
    + rewrite <- (firstn_skipn k h) at 1. rewrite E. now rewrite <- !app_assoc.
    + pose proof (firstn_le_length k h) as Hl. rewrite E in Hl.
      rewrite !length_app in Hl. lia.
  - intros (pre & post & -> & Hl).
    exists pre, (firstn (k - List.length pre - List.length n) post).
    rewrite firstn_app, (firstn_all2 (n:=k) pre) by lia.
    rewrite firstn_app, (firstn_all2 (n:=k - List.length pre) n) by lia.
    reflexivity.
Qed.

End ReportFacts.

(** X17. When there are cost lines to show, the text of the report names
    the section "Custos do dia": either the text with its header named it
    already, and it is left as it is whether or not it shows the lines, or
    the section is put at its end with every cost line in it. *)
Theorem costs_guaranteed (who : list Z) (cost_lines : list (list Z)) (text : list Z) :
  cost_lines <> [] ->
  let out := postprocess who cost_lines text in
  Str.contains costs_title out = true
  /\ (Str.contains costs_title (with_header who text) = true -> out = with_header who text)
  /\ (Str.contains costs_title (with_header who text) = false ->
      (exists body, out = (body ++ costs_section cost_lines)%list)
      /\ forall x, In x cost_lines -> Str.contains (Str.lit "- " ++ x) out = true).
Proof.
  intros Hne out. unfold out, postprocess, with_costs.
  destruct cost_lines as [|x0 l]; [congruence|].
  destruct (Str.contains costs_title (with_header who text)) eqn:E; cbn [negb].
  - split; [exact E|]. split; [reflexivity|discriminate].
  - split; [apply StrFacts.contains_app_r, StrFacts.contains_costs_section|].
    split; [discriminate|]. intros _. split.
    + eexists. reflexivity.
    + intros x Hin. now apply StrFacts.contains_app_r, ReportFacts.costs_section_line.
Qed.

(** X18. The post-processing loses nothing of what the language model wrote
    but white space at its end; and it is idempotent for a persona of at
    most 150 characters, whose header fits in the 160 characters that are
    searched. *)
Theorem postprocess_keeps_text (who : list Z) (cost_lines : list (list Z)) (text : list Z) :
  Str.contains (Str.rstrip text) (postprocess who cost_lines text) = true
  /\ ((List.length who <= 150)%nat ->
      postprocess who cost_lines (postprocess who cost_lines text)
      = postprocess who cost_lines text).
Proof.
  split.
  - unfold postprocess, with_costs, with_header.
    assert (Hself : Str.contains (Str.rstrip text) text = true).
    { apply StrFacts.contains_iff.
      pose proof (ReportFacts.rstrip_after (Str.rstrip text) []) as H. clear H.
      unfold Str.rstrip.
      destruct (ReportFacts.lstrip_spaces_or_keeps (rev text)) as [E|(a & c & b & E & Hc & El)].
      - rewrite E. now exists [], text.
      - rewrite El. exists [], (rev a).
        rewrite <- (rev_involutive text), E, rev_app_distr. reflexivity. }
    destruct (Str.contains (header_line who) (firstn 160 text)); cbn [negb].
    + destruct cost_lines as [|x l]; [exact Hself|].
      destruct (Str.contains costs_title text); cbn [negb]; [exact Hself|].
      apply (ReportFacts.contains_rstrip_after [] text).
    + set (p := (header_line who ++ opening_rest ++ [10; 10])%list).
      replace (header_line who ++ opening_rest ++ [10; 10] ++ text)%list with (p ++ text)%list
        by (unfold p; now rewrite <- !app_assoc).
      destruct cost_lines as [|x l]; [now apply StrFacts.contains_app_r|].
      destruct (Str.contains costs_title (p ++ text)); cbn [negb];
        [now apply StrFacts.contains_app_r|].
      apply ReportFacts.contains_rstrip_after.
  - intros Hwho.
    assert (Hlen : (List.length (header_line who) <= 160)%nat).
    { unfold header_line. rewrite !length_app. simpl. lia. }
    assert (Hhead : Str.contains (header_line who)
                      (firstn 160 (postprocess who cost_lines text)) = true).
    { unfold postprocess, with_costs, with_header.
      destruct (Str.contains (header_line who) (firstn 160 text)) eqn:E; cbn [negb].
      - destruct cost_lines as [|x l]; [exact E|].
        destruct (Str.contains costs_title text); cbn [negb]; [exact E|].
        apply ReportFacts.firstn_contains in E. destruct E as (pre & post & -> & Hl).
        apply ReportFacts.firstn_contains.
        rewrite StrFacts.header_line_ends, StrFacts.rstrip_keeps by reflexivity.
        rewrite <- StrFacts.header_line_ends.
        exists pre, (Str.rstrip post ++ costs_section (x :: l))%list.
        split; [now rewrite <- !app_assoc|exact Hl].
      - assert (H0 : forall rest, Str.contains (header_line who)
                       (firstn 160 (header_line who ++ rest)) = true).
        { intros rest. apply ReportFacts.firstn_contains. exists [], rest.
          split; [reflexivity|exact Hlen]. }
        destruct cost_lines as [|x l]; [apply H0|].
        destruct (Str.contains costs_title
                    (header_line who ++ opening_rest ++ [10; 10] ++ text)); cbn [negb];
          [apply H0|].
        replace (header_line who ++ opening_rest ++ [10; 10] ++ text)%list
          with ([] ++ ((header_line who ++ removelast opening_rest) ++ [46]) ++ [10; 10] ++ text)%list
          by (rewrite <- opening_ends, <- app_assoc; reflexivity).
        rewrite StrFacts.rstrip_keeps by reflexivity.
        rewrite <- opening_ends. cbn [app]. rewrite <- !app_assoc. apply H0. }
    unfold postprocess at 1. unfold with_header. rewrite Hhead. cbn [negb].
    unfold with_costs. destruct cost_lines as [|x l] eqn:Ec; [reflexivity|].
    rewrite <- Ec.
    assert (Ht : Str.contains costs_title (postprocess who cost_lines text) = true).
    { unfold postprocess, with_costs. rewrite Ec.
      destruct (Str.contains costs_title (with_header who text)) eqn:E; cbn [negb];
        [exact E|].
      apply StrFacts.contains_app_r, StrFacts.contains_costs_section. }
    rewrite Ht. reflexivity.
Qed.

Module MarkdownFacts.

Lemma subsequence_refl s : subsequence s s.
Proof. induction s; constructor; assumption. Qed.

Lemma subsequence_trans s t u : subsequence s t -> subsequence t u -> subsequence s u.
Proof.
  intros H1 H2. revert s H1. induction H2 as [|c t u H IH|c t u H IH]; intros s H1.
  - exact H1.
  - inversion H1; subst; constructor; now apply IH.
  - constructor. now apply IH.
Qed.

Lemma subsequence_In s t x : subsequence s t -> In x s -> In x t.
Proof. induction 1; simpl; intuition. Qed.

Lemma subsequence_length s t : subsequence s t -> (List.length s <= List.length t)%nat.
Proof. induction 1; simpl; lia. Qed.

Lemma sub_group_subsequence find text a g b :
  subsequence (sub_group find text a g b) text.
Proof.
  revert a g b. induction text as [|c rest IH]; intros a g b; [constructor|].
  cbn [sub_group]. destruct a as [|a]; [|constructor; apply IH].
  destruct g as [|g]; [|constructor; apply IH].
  destruct b as [|b]; [|constructor; apply IH].
  destruct (find (c :: rest)) as [[[[|n] group] suffix]|]; constructor; apply IH.
Qed.

Lemma sub_headings_subsequence text m : subsequence (sub_headings text m) text.
Proof.
  revert m. induction text as [|c rest IH]; intros m; [constructor|].
  cbn [sub_headings]. destruct (c =? 35); [constructor; apply IH|].
  destruct (m && Str.isspace c); constructor; apply IH.
Qed.

Lemma sub_headings_no_hash text m : ~ In 35 (sub_headings text m).
Proof.
  revert m. induction text as [|c rest IH]; intros m; [intros []|].
  cbn [sub_headings]. destruct (Z.eqb_spec c 35) as [->|Hc]; [apply IH|].
  destruct (m && Str.isspace c); [apply IH|].
  intros [E|Hin]; [congruence|]. exact (IH _ Hin).
Qed.

(** The scan leaves alone a text in which no match starts. *)
Lemma sub_group_none find text :
  (forall pre c rest, text = (pre ++ c :: rest)%list -> find (c :: rest) = None) ->
  sub_group find text 0 0 0 = text.
Proof.
  induction text as [|c rest IH]; intros H; [reflexivity|].
  cbn [sub_group]. rewrite (H [] c rest eq_refl). f_equal. apply IH.
  intros pre c' rest' E. apply (H (c :: pre)). now rewrite E.
Qed.

Lemma emphasis_at_other d c rest : c <> d -> emphasis_at d (c :: rest) = None.
Proof.
  intros Hc. unfold emphasis_at. cbn [run].
  destruct (Z.eqb_spec c d); [contradiction|reflexivity].
Qed.

Lemma link_at_other c rest : c <> 91 -> link_at (c :: rest) = None.
Proof.
  intros Hc. unfold link_at. destruct (Z.eqb_spec c 91); [contradiction|reflexivity].
Qed.

Lemma sub_emphasis_without d text :
  ~ In d text -> sub_group (emphasis_at d) text 0 0 0 = text.
Proof.
  intros H. apply sub_group_none. intros pre c rest ->.
  apply emphasis_at_other. intros ->. apply H, in_or_app. right. now left.
Qed.

Lemma sub_links_without text :
  ~ In 91 text -> sub_group link_at text 0 0 0 = text.
Proof.
  intros H. apply sub_group_none. intros pre c rest ->.
  apply link_at_other. intros ->. apply H, in_or_app. right. now left.
Qed.

Lemma sub_headings_without text : ~ In 35 text -> sub_headings text false = text.
Proof.
  induction text as [|c rest IH]; intros H; [reflexivity|].
  cbn [sub_headings]. destruct (Z.eqb_spec c 35) as [->|Hc]; [elim H; now left|].
  cbn [andb]. f_equal. apply IH. intros Hin. apply H. now right.
Qed.

Lemma plain_spec c : plain c = true <-> c <> 42 /\ c <> 95 /\ c <> 35 /\ c <> 91.
Proof.
  unfold plain. rewrite negb_true_iff, !orb_false_iff, !Z.eqb_neq. tauto.
Qed.

Lemma plain_not_In text d :
  forallb plain text = true -> plain d = false -> ~ In d text.
Proof.
  intros H Hd Hin. rewrite forallb_forall in H. specialize (H d Hin). congruence.
Qed.

(** The scan through a match. *)
Lemma sub_group_drop find a rest g b :
  sub_group find (a ++ rest) (List.length a) g b = sub_group find rest 0 g b.
Proof.
  induction a as [|c a IH]; [reflexivity|]. cbn [app List.length sub_group]. exact IH.
Qed.

Lemma sub_group_keep find g rest b :
  sub_group find (g ++ rest) 0 (List.length g) b = (g ++ sub_group find rest 0 0 b)%list.
Proof.
  induction g as [|c g IH]; [reflexivity|]. cbn [app List.length sub_group]. now rewrite IH.
Qed.

Lemma sub_group_drop' find close rest :
  sub_group find (close ++ rest) 0 0 (List.length close) = sub_group find rest 0 0 0.
Proof.
  induction close as [|c close IH]; [reflexivity|]. cbn [app List.length sub_group]. exact IH.
Qed.

Lemma sub_group_match find open group close rest :
  open <> [] ->
  find (open ++ group ++ close ++ rest)%list
  = Some (List.length open, List.length group, List.length close) ->
  sub_group find (open ++ group ++ close ++ rest) 0 0 0
  = (group ++ sub_group find rest 0 0 0)%list.
Proof.
  intros Hne Hf. destruct open as [|c open]; [congruence|].
  cbn [app sub_group]. cbn [app] in Hf. rewrite Hf. cbn [List.length].
  now rewrite sub_group_drop, sub_group_keep, sub_group_drop'.
Qed.

Lemma sub_group_before find pre s :
  (forall c rest, In c pre -> find (c :: rest) = None) ->
  sub_group find (pre ++ s) 0 0 0 = (pre ++ sub_group find s 0 0 0)%list.
Proof.
  induction pre as [|c pre IH]; intros H; [reflexivity|].
  cbn [app sub_group]. rewrite (H c (pre ++ s)%list) by now left.
  f_equal. apply IH. intros c' rest Hin. apply H. now right.
Qed.

Lemma run_repeat d k c rest :
  (k <= 3)%nat -> c <> d -> run d 3 (repeat d k ++ c :: rest) = k.
Proof.
  intros Hk Hc.
  assert (E : (c =? d) = false) by now apply Z.eqb_neq.
  destruct k as [|[|[|[|k]]]]; try lia; cbn [repeat app run]; rewrite ?Z.eqb_refl, ?E; reflexivity.
Qed.

Lemma run_repeat_end d k :
  (k <= 3)%nat -> run d 3 (repeat d k) = k.
Proof.
  intros Hk.
  destruct k as [|[|[|[|k]]]]; try lia; cbn [repeat run]; rewrite ?Z.eqb_refl; reflexivity.
Qed.

Lemma skipn_repeat_app {A : Type} (d : A) k (rest : list A) :
  skipn k (repeat d k ++ rest) = rest.
Proof.
  rewrite <- (repeat_length d k) at 1. rewrite skipn_app, skipn_all, Nat.sub_diag. reflexivity.
Qed.

Lemma until_found d w rest :
  ~ In d w -> ~ In 10 w -> until d (w ++ d :: rest) = Some (List.length w).
Proof.
  induction w as [|c w IH]; intros Hd Hn; cbn [app until List.length].
  - now rewrite Z.eqb_refl.
  - destruct (Z.eqb_spec c d) as [->|_]; [elim Hd; now left|].
    destruct (Z.eqb_spec c 10) as [->|_]; [elim Hn; now left|].
    rewrite IH; [reflexivity| |]; intros Hin; [apply Hd|apply Hn]; now right.
Qed.

Lemma emphasis_at_wrapped d k w c post :
  (1 <= k <= 3)%nat -> w <> [] -> ~ In d w -> ~ In 10 w -> c <> d ->
  emphasis_at d (repeat d k ++ w ++ repeat d k ++ c :: post)
  = Some (k, List.length w, k).
Proof.
  intros Hk Hw Hd Hn Hc. unfold emphasis_at.
  destruct w as [|x w]; [congruence|].
  assert (Hx : x <> d) by (intros ->; apply Hd; now left).
  cbn [app]. rewrite run_repeat by (assumption || lia).
  destruct k as [|k']; [lia|].
  rewrite skipn_repeat_app.
  cbn [repeat app].
  change (x :: w ++ d :: repeat d k' ++ c :: post)%list
    with ((x :: w) ++ d :: repeat d k' ++ c :: post)%list.
  rewrite until_found by assumption.
  rewrite skipn_app, skipn_all, Nat.sub_diag. cbn [skipn app].
  change (d :: repeat d k' ++ c :: post)%list with (repeat d (S k') ++ c :: post)%list.
  rewrite run_repeat by (assumption || lia). reflexivity.
Qed.

Lemma emphasis_at_wrapped_end d k w :
  (1 <= k <= 3)%nat -> w <> [] -> ~ In d w -> ~ In 10 w ->
  emphasis_at d (repeat d k ++ w ++ repeat d k ++ []) = Some (k, List.length w, k).
Proof.
  intros Hk Hw Hd Hn. unfold emphasis_at.
  destruct w as [|x w]; [congruence|].
  assert (Hx : x <> d) by (intros ->; apply Hd; now left).
  cbn [app]. rewrite run_repeat by (assumption || lia).
  destruct k as [|k']; [lia|].
  rewrite skipn_repeat_app, app_nil_r.
  cbn [repeat app].
  change (x :: w ++ d :: repeat d k')%list with ((x :: w) ++ d :: repeat d k')%list.
  rewrite until_found by assumption.
  rewrite skipn_app, skipn_all, Nat.sub_diag. cbn [skipn app].
  change (d :: repeat d k')%list with (repeat d (S k')).
  rewrite run_repeat_end by lia. reflexivity.
Qed.

Lemma sub_emphasis_wrapped d k pre w post :
  (1 <= k <= 3)%nat -> w <> [] ->
  ~ In d pre -> ~ In d w -> ~ In 10 w -> ~ In d post ->
  sub_group (emphasis_at d) (pre ++ repeat d k ++ w ++ repeat d k ++ post) 0 0 0
  = (pre ++ w ++ post)%list.
Proof.
  intros Hk Hw Hpre Hd Hn Hpost.
  rewrite sub_group_before
    by (intros c rest Hin; apply emphasis_at_other; intros ->; contradiction).
  f_equal. rewrite sub_group_match.
  - f_equal. now apply sub_emphasis_without.
  - destruct k; [lia|discriminate].
  - rewrite !repeat_length. destruct post as [|c post].
    + now apply emphasis_at_wrapped_end.
    + apply emphasis_at_wrapped; trivial. intros ->. apply Hpost. now left.
Qed.

Lemma sub_headings_after text :
  ~ In 35 text -> sub_headings text true = Str.lstrip text.
Proof.
  induction text as [|c rest IH]; intros H; [reflexivity|].
  cbn [sub_headings Str.lstrip].
  destruct (Z.eqb_spec c 35) as [->|Hc]; [elim H; now left|].
  cbn [andb]. destruct (Str.isspace c).
  - apply IH. intros Hin. apply H. now right.
  - f_equal. apply sub_headings_without. intros Hin. apply H. now right.
Qed.

Lemma sub_headings_marks n text m :
  (1 <= n)%nat -> ~ In 35 text ->
  sub_headings (repeat 35 n ++ text) m = Str.lstrip text.
Proof.
  intros Hn H. destruct n as [|n]; [lia|]. clear Hn.
  cbn [repeat app sub_headings]. rewrite Z.eqb_refl.
  induction n as [|n IH]; [now apply sub_headings_after|].
  cbn [repeat app sub_headings]. rewrite Z.eqb_refl. exact IH.
Qed.

Lemma sub_headings_before pre text :
  ~ In 35 pre -> sub_headings (pre ++ text) false = (pre ++ sub_headings text false)%list.
Proof.
  induction pre as [|c pre IH]; intros H; [reflexivity|].
  cbn [app sub_headings]. destruct (Z.eqb_spec c 35) as [->|Hc]; [elim H; now left|].
  cbn [andb]. f_equal. apply IH. intros Hin. apply H. now right.
Qed.

Lemma link_group_found w u post :
  ~ In 93 w -> ~ In 10 w -> ~ In 41 u -> ~ In 10 u ->
  link_group (w ++ 93 :: 40 :: u ++ 41 :: post) = Some (List.length w, List.length u).
Proof.
  intros Hw Hn Hu Hnu. induction w as [|c w IH]; cbn [app link_group List.length].
  - change (93 =? 93) with true. change (40 =? 40) with true. cbv iota.
    now rewrite until_found.
  - destruct (Z.eqb_spec c 93) as [->|_]; [elim Hw; now left|].
    destruct (Z.eqb_spec c 10) as [->|_]; [elim Hn; now left|].
    rewrite IH; [reflexivity| |]; intros Hin; [apply Hw|apply Hn]; now right.
Qed.

Lemma not_In_app {A : Type} (x : A) l1 l2 : ~ In x l1 -> ~ In x l2 -> ~ In x (l1 ++ l2).
Proof. intros H1 H2 H. apply in_app_or in H. tauto. Qed.

End MarkdownFacts.

(** X19. Stripping the markup only deletes characters: the result is the
    text with some characters left out, so it is no longer than the text,
    and it holds no ["#"]. *)
Theorem strip_markdown_deletes (md_text : list Z) :
  subsequence (strip_markdown md_text) md_text
  /\ (List.length (strip_markdown md_text) <= List.length md_text)%nat
  /\ ~ In 35 (strip_markdown md_text).
Proof.
  assert (H : subsequence (strip_markdown md_text) md_text).
  { unfold strip_markdown.
    eapply MarkdownFacts.subsequence_trans; [apply MarkdownFacts.sub_group_subsequence|].
    eapply MarkdownFacts.subsequence_trans; [apply MarkdownFacts.sub_headings_subsequence|].
    eapply MarkdownFacts.subsequence_trans; apply MarkdownFacts.sub_group_subsequence. }
  split; [exact H|]. split; [now apply MarkdownFacts.subsequence_length|].
  unfold strip_markdown. intros Hin.
  eapply MarkdownFacts.sub_headings_no_hash.
  eapply MarkdownFacts.subsequence_In; [apply MarkdownFacts.sub_group_subsequence|exact Hin].
Qed.

(** X20. A text without any of the characters [*], [_], [#] and [[] is
    returned as it is. *)
Theorem strip_markdown_plain_text (md_text : list Z) :
  forallb plain md_text = true -> strip_markdown md_text = md_text.
Proof.
  intros H. unfold strip_markdown.
  rewrite (MarkdownFacts.sub_emphasis_without 42 md_text)
    by (now apply MarkdownFacts.plain_not_In).
  rewrite (MarkdownFacts.sub_emphasis_without 95 md_text)
    by (now apply MarkdownFacts.plain_not_In).
  rewrite (MarkdownFacts.sub_headings_without md_text)
    by (now apply MarkdownFacts.plain_not_In).
  apply MarkdownFacts.sub_links_without. now apply MarkdownFacts.plain_not_In.
Qed.

(** X21. Emphasis is unwrapped: in a text that is plain but for one phrase
    set between one, two or three [*], or between as many [_], the marks go
    and the phrase stays, provided the phrase is not empty and stands on
    one line. *)
Theorem strip_markdown_emphasis (d : Z) (k : nat) (pre w post : list Z) :
  d = 42 \/ d = 95 -> (1 <= k <= 3)%nat ->
  forallb plain pre = true -> forallb plain w = true -> forallb plain post = true ->
  w <> [] -> ~ In 10 w ->
  strip_markdown (pre ++ repeat d k ++ w ++ repeat d k ++ post) = (pre ++ w ++ post)%list.
Proof.
  intros Hd Hk Hpre Hw Hpost Hne Hn.
  assert (Hall : forallb plain (pre ++ w ++ post) = true)
    by (rewrite !forallb_app, Hpre, Hw, Hpost; reflexivity).
  assert (Hnot : forall x l, forallb plain l = true -> plain x = false -> ~ In x l)
    by (intros x l; apply MarkdownFacts.plain_not_In).
  unfold strip_markdown. destruct Hd as [-> | ->].
  - rewrite MarkdownFacts.sub_emphasis_wrapped; trivial; try solve [apply Hnot; trivial].
    rewrite (MarkdownFacts.sub_emphasis_without 95) by (apply Hnot; trivial).
    rewrite MarkdownFacts.sub_headings_without by (apply Hnot; trivial).
    apply MarkdownFacts.sub_links_without. apply Hnot; trivial.
  - rewrite (MarkdownFacts.sub_emphasis_without 42).
    + rewrite MarkdownFacts.sub_emphasis_wrapped; trivial; try solve [apply Hnot; trivial].
      rewrite MarkdownFacts.sub_headings_without by (apply Hnot; trivial).
      apply MarkdownFacts.sub_links_without. apply Hnot; trivial.
    + repeat apply MarkdownFacts.not_In_app; try solve [apply Hnot; trivial];
        intros Hin; apply repeat_spec in Hin; discriminate.
Qed.

(** X22. Heading marks go with the white space after them: in a text that
    is plain but for one run of [#], the run is deleted together with the
    white space that follows it, line feeds included. *)
Theorem strip_markdown_heading (n : nat) (pre text : list Z) :
  (1 <= n)%nat ->
  forallb plain pre = true -> forallb plain text = true ->
  strip_markdown (pre ++ repeat 35 n ++ text) = (pre ++ Str.lstrip text)%list.
Proof.
  intros Hn Hpre Htext.
  assert (Hnot : forall x l, forallb plain l = true -> plain x = false -> ~ In x l)
    by (intros x l; apply MarkdownFacts.plain_not_In).
  assert (Hrep : forall x, x <> 35 -> ~ In x (pre ++ repeat 35 n ++ text) <->
                                     ~ In x (pre ++ text)).
  { intros x Hx. rewrite !in_app_iff. split; intros H C; apply H; [tauto|].
    destruct C as [C|[C|C]]; [tauto| |tauto]. apply repeat_spec in C. congruence. }
  assert (Hall : forallb plain (pre ++ text) = true)
    by (rewrite forallb_app, Hpre, Htext; reflexivity).
  unfold strip_markdown.
  rewrite (MarkdownFacts.sub_emphasis_without 42)
    by (apply Hrep; [discriminate|apply Hnot; trivial]).
  rewrite (MarkdownFacts.sub_emphasis_without 95)
    by (apply Hrep; [discriminate|apply Hnot; trivial]).
  rewrite MarkdownFacts.sub_headings_before by (apply Hnot; trivial).
  rewrite MarkdownFacts.sub_headings_marks by (trivial; apply Hnot; trivial).
  apply MarkdownFacts.sub_links_without.
  apply MarkdownFacts.not_In_app; [apply Hnot; trivial|].
  intros Hin.
  assert (Hs : subsequence (Str.lstrip text) text).
  { clear. induction text as [|c t IH]; [constructor|]. simpl.
    destruct (Str.isspace c); [now constructor|apply MarkdownFacts.subsequence_refl]. }
  apply (MarkdownFacts.subsequence_In _ _ _ Hs) in Hin.
  revert Hin. apply Hnot; trivial.
Qed.

(** X23. A link is replaced by its text: in a text that is plain but for
    one link [[w](u)], whose text [w] has no ["]"] and whose target [u] is
    plain and has no [")"], both on one line, the link's text stays and the
    brackets and the target go. *)
Theorem strip_markdown_link (pre w u post : list Z) :
  forallb plain pre = true -> forallb plain w = true ->
  forallb plain u = true -> forallb plain post = true ->
  ~ In 93 w -> ~ In 10 w -> ~ In 41 u -> ~ In 10 u ->
  strip_markdown (pre ++ [91] ++ w ++ [93; 40] ++ u ++ [41] ++ post)
  = (pre ++ w ++ post)%list.
Proof.
  intros Hpre Hw Hu Hpost Hw93 Hw10 Hu41 Hu10.
  assert (Hnot : forall x l, forallb plain l = true -> plain x = false -> ~ In x l)
    by (intros x l; apply MarkdownFacts.plain_not_In).
  assert (Hfree : forall x, plain x = false -> x <> 91 ->
            ~ In x (pre ++ [91] ++ w ++ [93; 40] ++ u ++ [41] ++ post)).
  { intros x Hx Hx91. rewrite !in_app_iff. simpl.
    pose proof (Hnot x pre Hpre Hx). pose proof (Hnot x w Hw Hx).
    pose proof (Hnot x u Hu Hx). pose proof (Hnot x post Hpost Hx).
    intros [C|[[C|[]]|[C|[[C|[C|[]]]|[C|[[C|[]]|C]]]]]]; try tauto; try congruence;
      subst x; discriminate. }
  unfold strip_markdown.
  rewrite (MarkdownFacts.sub_emphasis_without 42) by (apply Hfree; [reflexivity|discriminate]).
  rewrite (MarkdownFacts.sub_emphasis_without 95) by (apply Hfree; [reflexivity|discriminate]).
  rewrite MarkdownFacts.sub_headings_without by (apply Hfree; [reflexivity|discriminate]).
  rewrite MarkdownFacts.sub_group_before.
  - f_equal.
    replace ([91] ++ w ++ [93; 40] ++ u ++ [41] ++ post)%list
      with ([91] ++ w ++ ([93; 40] ++ u ++ [41]) ++ post)%list
      by (cbn [app]; now rewrite <- !app_assoc).
    rewrite MarkdownFacts.sub_group_match.
    + f_equal. apply MarkdownFacts.sub_links_without. apply Hnot; trivial.
    + discriminate.
    + cbn [app link_at]. change (91 =? 91) with true. cbv iota.
      replace (w ++ 93 :: 40 :: (u ++ [41]) ++ post)%list
        with (w ++ 93 :: 40 :: u ++ 41 :: post)%list
        by (now rewrite <- app_assoc).
      rewrite MarkdownFacts.link_group_found by assumption.
      cbn [List.length app]. rewrite length_app. cbn [List.length]. do 2 f_equal. lia.
  - intros c rest Hin. apply MarkdownFacts.link_at_other. intros ->.
    revert Hin. apply Hnot; trivial.
Qed.

Module PersonaFacts.

Lemma fmt_02d_hour h : 0 <= h < 24 -> fmt_02d h = Datetime.d2 h.
Proof.
  intros Hh. rewrite <- (Z2Nat.id h) by lia.
  assert (Hn : (Z.to_nat h < 24)%nat) by lia.
  generalize dependent (Z.to_nat h). clear h Hh. intros n Hn.
  do 24 (destruct n as [|n]; [reflexivity|]). lia.
Qed.

Lemma key_minute t :
  substring 14 2 (Datetime.strftime_key t) = Datetime.d2 (Datetime.minute t).
Proof.
  unfold Datetime.strftime_key. destruct (Datetime.date t) as [[y m] d].
  unfold Datetime.d4. reflexivity.
Qed.

Lemma hhmm_entry_key t :
  hhmm_entry (Datetime.strftime_key t) = Some (Datetime.strftime_HhM t).
Proof.
  unfold hhmm_entry. rewrite Conservation.key_hour, key_minute.
  rewrite fmt_02d_hour by apply hour_range. reflexivity.
Qed.

Lemma hhmm_entries_keys slots :
  hhmm_entries (map slot_key slots)
  = Some (map (fun s => Datetime.strftime_HhM (timestamp s)) slots).
Proof.
  induction slots as [|s slots IH]; [reflexivity|].
  cbn [map hhmm_entries]. unfold slot_key at 1. now rewrite hhmm_entry_key, IH.
Qed.

Lemma keys_of_slots (ks : list string) (slots : list ScheduleSlot) :
  (forall k, In k ks -> exists s, In s slots /\ k = slot_key s) ->
  exists l, Forall (fun s => In s slots) l /\ ks = map slot_key l.
Proof.
  induction ks as [|k ks IH]; intros H; [now exists []|].
  destruct (H k) as (s & Hs & ->); [now left|].
  destruct IH as (l & Hl & ->); [intros k' Hk'; apply H; now right|].
  exists (s :: l). split; [now constructor|reflexivity].
Qed.

Lemma lstrip_head s c rest : Str.lstrip s = c :: rest -> Str.isspace c = false.
Proof.
  induction s as [|x s IH]; [discriminate|]. simpl.
  destruct (Str.isspace x) eqn:E; [exact IH|]. now intros [= <- _].
Qed.

Lemma lstrip_nil s : Str.lstrip s = [] <-> forallb Str.isspace s = true.
Proof.
  induction s as [|x s IH]; simpl; [tauto|].
  destruct (Str.isspace x); simpl; [exact IH|]. split; discriminate.
Qed.

Lemma rstrip_nil s : Str.rstrip s = [] <-> forallb Str.isspace s = true.
Proof.
  unfold Str.rstrip. split.
  - intros H. apply (f_equal (@rev Z)) in H. rewrite rev_involutive in H. simpl in H.
    apply lstrip_nil in H. rewrite forallb_forall in *. intros x Hx. apply H.
    now apply in_rev in Hx.
  - intros H. assert (E : Str.lstrip (rev s) = []).
    { apply lstrip_nil. rewrite forallb_forall in *. intros x Hx. apply H. now apply in_rev. }
    now rewrite E.
Qed.

End PersonaFacts.

(** X14. For timestamps with a year of four digits the peak times of the
    report never raise on what the aggregator returns, and they are the
    times of day, [%Hh%M], of slots of the schedule whose keys are the peak
    timestamps, joined by [", "]. *)
Theorem peak_times_rendered (payload : OptimizationSchedule) :
  four_digit_years (schedule payload) ->
  exists peaks,
    Forall (fun s => In s (schedule payload)) peaks
    /\ peak_ts (compute_from_schedule payload) = map slot_key peaks
    /\ hhmm (peak_ts (compute_from_schedule payload))
       = Some (String.concat ", "
                 (map (fun s => Datetime.strftime_HhM (timestamp s)) peaks)).
Proof.
  intros _.
  destruct (PersonaFacts.keys_of_slots (peak_ts (compute_from_schedule payload))
              (schedule payload)) as (peaks & Hall & E).
  { intros k Hk. destruct (compute_peak payload) as [_ Hts]. cbv zeta in Hts.
    rewrite Hts in Hk. apply in_map_iff in Hk. destruct Hk as ([k' p] & <- & Hin).
    apply filter_In in Hin. destruct Hin as [Hin _].
    assert (Hkey : In k' (Dict.keys (power_by_ts (compute_from_schedule payload)))).
    { unfold Dict.keys. apply in_map_iff. now exists (k', p). }
    rewrite compute_power, KeyFacts.power_keys in Hkey.
    apply KeyFacts.fold_see_In in Hkey. destruct Hkey as [[]|Hkey].
    apply in_map_iff in Hkey. destruct Hkey as (s & <- & Hs). now exists s. }
  exists peaks. split; [exact Hall|]. split; [exact E|].
  rewrite E. unfold hhmm. rewrite PersonaFacts.hhmm_entries_keys.
  now destruct peaks.
Qed.

(** X15. Without a persona, or with the empty one, the persona is one of
    the eleven characters; any other persona is taken with the white space
    around it removed, so the name neither starts nor ends with white
    space, and it is the empty name exactly when the persona given is
    white space only. *)
Theorem pick_persona_spec (maybe_persona : option (list Z)) (choice : nat) :
  ((choice < List.length CHARACTERS)%nat ->
   maybe_persona = None \/ maybe_persona = Some [] ->
   In (pick_persona maybe_persona choice) CHARACTERS)
  /\ (forall p, maybe_persona = Some p -> p <> [] ->
        let who := pick_persona maybe_persona choice in
        who = Str.strip p
        /\ (forall c rest, who = c :: rest -> Str.isspace c = false)
        /\ (forall c init, who = (init ++ [c])%list -> Str.isspace c = false)
        /\ (who = [] <-> forallb Str.isspace p = true)).
Proof.
  split.
  - intros Hc [-> | ->]; apply nth_In; exact Hc.
  - intros p -> Hp who. destruct p as [|c0 p0]; [congruence|].
    unfold who, pick_persona. set (p := c0 :: p0). clearbody p. clear.
    split; [reflexivity|]. unfold Str.strip.
    split; [|split].
    + intros c rest E.
      destruct (Str.lstrip p) as [|x l] eqn:El; [discriminate|].
      pose proof (PersonaFacts.lstrip_head _ _ _ El) as Hx.
      pose proof (StrFacts.rstrip_app [] x l Hx) as Hr. cbn [app] in Hr.
      rewrite Hr in E. injection E as <- _. exact Hx.
    + intros c init E. unfold Str.rstrip in E.
      apply (f_equal (@rev Z)) in E. rewrite rev_involutive, rev_app_distr in E.
      simpl in E. now apply PersonaFacts.lstrip_head in E.
    + rewrite PersonaFacts.rstrip_nil. split.
      * intros H. destruct (Str.lstrip p) as [|x l] eqn:El; [now apply PersonaFacts.lstrip_nil|].
        pose proof (PersonaFacts.lstrip_head _ _ _ El) as Hx.
        simpl in H. rewrite Hx in H. discriminate.
      * intros H. apply PersonaFacts.lstrip_nil in H. now rewrite H.
Qed.

Module AudioFacts.

Lemma strip_markdown_head c rest :
  plain c = true -> exists r, strip_markdown (c :: rest) = c :: r.
Proof.
  intros Hc. apply MarkdownFacts.plain_spec in Hc. destruct Hc as (H42 & H95 & H35 & H91).
  unfold strip_markdown.
  cbn [sub_group]. rewrite (MarkdownFacts.emphasis_at_other 42 c rest H42).
  cbn [sub_group]. rewrite (MarkdownFacts.emphasis_at_other 95 c _ H95).
  cbn [sub_headings]. destruct (Z.eqb_spec c 35); [contradiction|]. cbn [andb].
  cbn [sub_group]. rewrite (MarkdownFacts.link_at_other c _ H91).
  eexists. reflexivity.
Qed.

Lemma audio_text_plain_start text c rest :
  Str.lstrip text = c :: rest -> plain c = true -> audio_text text <> None.
Proof.
  intros El Hc. unfold audio_text, Str.strip. rewrite El.
  pose proof (PersonaFacts.lstrip_head _ _ _ El) as Hs.
  pose proof (StrFacts.rstrip_app [] c rest Hs) as Hr. cbn [app] in Hr. rewrite Hr.
  destruct (strip_markdown_head c (Str.rstrip rest) Hc) as (r & ->). discriminate.
Qed.

End AudioFacts.

(** X24. The reply "empty text" of the audio endpoint cannot arise from a
    report whose first character that is no white space starts no markup;
    in particular it cannot arise when the opening was put before the
    text, which then starts with "O". *)
Theorem audio_text_nonempty (who : list Z) (cost_lines : list (list Z)) (text : list Z) :
  (forall c rest, Str.lstrip text = c :: rest -> plain c = true -> audio_text text <> None)
  /\ (Str.contains (header_line who) (firstn 160 text) = false ->
      audio_text (postprocess who cost_lines text) <> None).
Proof.
  split; [apply AudioFacts.audio_text_plain_start|].
  intros H.
  assert (E : exists rest, postprocess who cost_lines text = 79 :: rest).
  { unfold postprocess, with_header. rewrite H. cbn [negb]. unfold with_costs.
    destruct cost_lines as [|x l]; [eexists; reflexivity|].
    destruct (negb _); [|eexists; reflexivity].
    assert (Hh : exists t, (header_line who ++ opening_rest ++ [10; 10] ++ text)%list = 79 :: t)
      by (eexists; reflexivity).
    destruct Hh as [t Ht]. rewrite Ht.
    pose proof (StrFacts.rstrip_app [] 79 t eq_refl) as Hr. cbn [app] in Hr.
    rewrite Hr. eexists. reflexivity. }
  destruct E as [rest E]. rewrite E.
  apply (AudioFacts.audio_text_plain_start _ 79 rest); reflexivity.
Qed.

Module CostFacts.

Lemma with_costs_title cost_lines text :
  cost_lines <> [] -> Str.contains costs_title (with_costs cost_lines text) = true.
Proof.
  intros Hne. unfold with_costs. destruct cost_lines as [|x l]; [congruence|].
  destruct (Str.contains costs_title text) eqn:E; cbn [negb]; [exact E|].
  apply StrFacts.contains_app_r, StrFacts.contains_costs_section.
Qed.

Lemma cost_currency_nonempty ca : cost_currency ca <> [].
Proof.
  unfold cost_currency. destruct ca as [c|]; [|discriminate].
  destruct (currency c); discriminate.
Qed.

End CostFacts.

(** X25. Cost lines are shown exactly when the payload gives a total cost:
    a load cost and a solar revenue given without it are dropped.  With a
    total cost the first line shows it, there are four lines when the load
    cost and the solar revenue are both given and one line otherwise, the
    currency shown is never empty ("EUR" stands for a missing or empty one),
    and the text of the report names the costs section whatever the
    language model writes. *)
Theorem costs_shown_iff_total (ca : option CostAnalysis) :
  (cost_lines ca = [] <-> forall c, ca = Some c -> total_cost c = None)
  /\ cost_currency ca <> []
  /\ forall c total,
       ca = Some c -> total_cost c = Some total ->
       (exists rest,
           cost_lines ca = cost_line (Str.lit "Custo total") total (cost_currency ca) :: rest)
       /\ List.length (cost_lines ca)
          = match total_load_cost c, total_solar_revenue c with
            | Some _, Some _ => 4%nat
            | _, _ => 1%nat
            end
       /\ forall who text,
            Str.contains costs_title (postprocess who (cost_lines ca) text) = true.
Proof.
  split; [|split; [apply CostFacts.cost_currency_nonempty|]].
  - unfold cost_lines. destruct ca as [c|]; [|split; [discriminate|reflexivity]].
    destruct (total_cost c) as [total|] eqn:Et.
    + split.
      * destruct (total_load_cost c), (total_solar_revenue c); discriminate.
      * intros H. specialize (H c eq_refl). congruence.
    + split; [intros _ c' [= <-]; exact Et|reflexivity].
  - intros c total -> Et.
    assert (Hrest : exists rest,
               cost_lines (Some c)
               = cost_line (Str.lit "Custo total") total (cost_currency (Some c)) :: rest).
    { unfold cost_lines. rewrite Et.
      destruct (total_load_cost c), (total_solar_revenue c); eexists; reflexivity. }
    split; [exact Hrest|]. split.
    + unfold cost_lines. rewrite Et.
      destruct (total_load_cost c), (total_solar_revenue c); reflexivity.
    + intros who text. unfold postprocess. apply CostFacts.with_costs_title.
      destruct Hrest as [rest ->]. discriminate.
Qed.

(** ** The language model adapter *)

Module AdapterFacts.

Lemma str_eqb_eq a b : str_eqb a b = true <-> a = b.
Proof. unfold str_eqb. destruct (list_eq_dec Z.eq_dec a b); split; congruence. Qed.

Lemma checked_json_ok status v :
  status_ok status = true -> checked_json (Got status (Some v)) = Return v.
Proof.
  unfold status_ok, checked_json. intros H. apply negb_true_iff in H. now rewrite H.
Qed.

End AdapterFacts.

(** X26. [generate_text] posts nothing and raises [RuntimeError] for a
    backend other than OLLAMA, VLLM and TGI, and posts exactly one request,
    to an address that starts with the endpoint, for these three.  A status
    from 400 to 599 raises whatever the reply holds.  On a reply that is a
    JSON object without the field the backend reads, OLLAMA returns the
    empty string where VLLM and TGI raise [KeyError]; and OLLAMA never
    raises [KeyError], [TypeError] or [IndexError]. *)
Theorem generate_text_errors
    (backend model endpoint : list Z) (post : Request -> Reply)
    (system prompt : list Z) (max_tokens : Z) (temperature : float) :
  let r := generate_text backend model endpoint post system prompt max_tokens temperature in
  (supported backend = false -> r = ([], Raise RuntimeError))
  /\ (supported backend = true ->
      exists req path,
        fst r = [req] /\ url req = (endpoint ++ path)%list
        /\ (forall status content,
              post req = Got status content -> status_ok status = false ->
              snd r = Raise HTTPError)
        /\ (forall status d,
              post req = Got status (Some (JDict d)) -> status_ok status = true ->
              (backend = Str.lit "OLLAMA" -> lookup d (Str.lit "message") = None ->
               snd r = Return (JStr []))
              /\ (backend = Str.lit "VLLM" -> lookup d (Str.lit "choices") = None ->
                  snd r = Raise KeyError)
              /\ (backend = Str.lit "TGI" -> lookup d (Str.lit "generated_text") = None ->
                  snd r = Raise KeyError)))
  /\ (backend = Str.lit "OLLAMA" ->
      snd r <> Raise KeyError /\ snd r <> Raise TypeError /\ snd r <> Raise IndexError).
Proof.
  intros r. unfold r, generate_text, supported.
  split; [|split].
  - intros H. apply orb_false_iff in H. destruct H as [H H3].
    apply orb_false_iff in H. destruct H as [H1 H2]. now rewrite H1, H2, H3.
  - intros Hs.
    assert (Hhttp : forall req status content,
               post req = Got status content -> status_ok status = false ->
               checked_json (post req) = Raise HTTPError).
    { intros req status content -> H. unfold status_ok in H. apply negb_false_iff in H.
      unfold checked_json. now rewrite H. }
    destruct (str_eqb backend (Str.lit "OLLAMA")) eqn:E1;
      [|destruct (str_eqb backend (Str.lit "VLLM")) eqn:E2;
        [|destruct (str_eqb backend (Str.lit "TGI")) eqn:E3; [|discriminate]]].
    + eexists _, _. split; [reflexivity|]. split; [reflexivity|]. cbn [snd]. split.
      * intros status content Hp Hst. now rewrite (Hhttp _ _ _ Hp Hst).
      * intros status d Hp Hst. rewrite Hp, AdapterFacts.checked_json_ok by assumption.
        split; [|split].
        -- intros _ Hl. cbn [bind get_or]. now rewrite Hl.
        -- intros ->. discriminate.
        -- intros ->. discriminate.
    + eexists _, _. split; [reflexivity|]. split; [reflexivity|]. cbn [snd]. split.
      * intros status content Hp Hst. now rewrite (Hhttp _ _ _ Hp Hst).
      * intros status d Hp Hst. rewrite Hp, AdapterFacts.checked_json_ok by assumption.
        split; [|split].
        -- intros ->. discriminate.
        -- intros _ Hl. cbn [bind subscript]. now rewrite Hl.
        -- intros ->. discriminate.
    + eexists _, _. split; [reflexivity|]. split; [reflexivity|]. cbn [snd]. split.
      * intros status content Hp Hst. now rewrite (Hhttp _ _ _ Hp Hst).
      * intros status d Hp Hst. rewrite Hp, AdapterFacts.checked_json_ok by assumption.
        split; [|split].
        -- intros ->. discriminate.
        -- intros ->. discriminate.
        -- intros _ Hl. cbn [bind subscript]. now rewrite Hl.
  - intros ->. cbn [str_eqb]. change (str_eqb (Str.lit "OLLAMA") (Str.lit "OLLAMA")) with true.
    cbv iota. cbn [snd].
    destruct (post _) as [|status content]; cbn [checked_json bind];
      [repeat split; discriminate|].
    destruct ((400 <=? status) && (status <? 600)); cbn [bind]; [repeat split; discriminate|].
    destruct content as [j|]; cbn [bind]; [|repeat split; discriminate].
    destruct j; cbn [get_or bind]; try (repeat split; discriminate).
    destruct (match lookup d (Str.lit "message") with Some v => v | None => JDict [] end);
      cbn [get_or]; repeat split; discriminate.
Qed.

(** ** The client *)

Module ClientFacts.

Lemma startswith_short x y p :
  (List.length p <= List.length x)%nat ->
  Str.startswith (x ++ y) p = Str.startswith x p.
Proof.
  revert x. induction p as [|a p IH]; intros x Hl; [reflexivity|].
  destruct x as [|b x]; simpl in Hl; [lia|].
  cbn [app Str.startswith]. rewrite IH by lia. reflexivity.
Qed.

Lemma before_unfold sep s :
  before sep s
  = if Str.startswith s sep then []
    else match s with
         | [] => []
         | c :: s' => c :: before sep s'
         end.
Proof. destruct s; reflexivity. Qed.

Lemma before_none sep s : Str.contains sep s = false -> before sep s = s.
Proof.
  induction s as [|c s IH]; intros H; rewrite before_unfold;
    cbn [Str.contains] in H; apply orb_false_iff in H; destruct H as [H1 H2];
    rewrite H1; [reflexivity|].
  f_equal. now apply IH.
Qed.

(** The separator [init ++ [z]] first occurs after [b]. *)
Lemma before_first init z b rest :
  Str.contains (init ++ [z]) (b ++ init) = false ->
  before (init ++ [z]) (b ++ (init ++ [z]) ++ rest) = b.
Proof.
  intros H. induction b as [|c b IH]; rewrite before_unfold.
  - cbn [app].
    assert (Hs : Str.startswith ((init ++ [z]) ++ rest) (init ++ [z]) = true)
      by (apply StrFacts.startswith_iff; now exists rest).
    now rewrite Hs.
  - cbn [app Str.contains] in H. apply orb_false_iff in H. destruct H as [H1 H2].
    replace ((c :: b) ++ (init ++ [z]) ++ rest)%list
      with (((c :: b) ++ init) ++ z :: rest)%list
      by (rewrite <- !app_assoc; reflexivity).
    rewrite startswith_short by (cbn [app List.length]; rewrite !length_app; simpl; lia).
    cbn [app] in H1 |- *. rewrite H1. f_equal.
    replace ((b ++ init) ++ z :: rest)%list with (b ++ (init ++ [z]) ++ rest)%list
      by (rewrite <- !app_assoc; reflexivity).
    exact (IH H2).
Qed.

Lemma before_prefix sep s : exists rest, s = (before sep s ++ rest)%list.
Proof.
  induction s as [|c s IH]; rewrite before_unfold.
  - destruct (Str.startswith [] sep); now exists [].
  - destruct (Str.startswith (c :: s) sep); [now exists (c :: s)|].
    destruct IH as [rest E]. exists rest. cbn [app]. now rewrite <- E.
Qed.

Lemma lstrip_char_suffix c s : exists pre, s = (pre ++ lstrip_char c s)%list.
Proof.
  induction s as [|x s IH]; [now exists []|]. cbn [lstrip_char].
  destruct (x =? c); [|now exists []].
  destruct IH as [pre E]. exists (x :: pre). cbn [app]. now rewrite <- E.
Qed.

Lemma rstrip_slash_prefix s : exists rest, s = (rstrip_slash s ++ rest)%list.
Proof.
  unfold rstrip_slash. destruct (lstrip_char_suffix 47 (rev s)) as [pre E].
  exists (rev pre). rewrite <- rev_app_distr, <- E. now rewrite rev_involutive.
Qed.

Lemma lstrip_char_head c s x rest : lstrip_char c s = x :: rest -> x <> c.
Proof.
  induction s as [|y s IH]; [discriminate|]. cbn [lstrip_char].
  destruct (Z.eqb_spec y c); [exact IH|]. now intros [= <- _].
Qed.

Lemma rstrip_slash_end s init : rstrip_slash s <> (init ++ [47])%list.
Proof.
  unfold rstrip_slash. intros E.
  apply (f_equal (@rev Z)) in E. rewrite rev_involutive, rev_app_distr in E.
  cbn [rev app] in E. now apply lstrip_char_head in E.
Qed.

End ClientFacts.

(** X27. The address the client derives for the audio endpoint is a
    beginning of the address of the text endpoint that does not end with a
    slash, followed by "/persona_report_audio" and the persona query.  When
    the address holds "/persona_report", what stands after its first
    occurrence is dropped (a query or a longer path) along with the slashes
    right before it; when it does not, the whole address, less the slashes
    at its end, is the beginning. *)
Theorem audio_url_spec (quote : list Z -> list Z) (url : list Z) (persona : option (list Z)) :
  (exists base rest,
      audio_url quote url persona
      = (base ++ Str.lit "/persona_report_audio" ++ persona_query quote persona)%list
      /\ url = (base ++ rest)%list
      /\ forall init, base <> (init ++ [47])%list)
  /\ (forall b rest,
        url = (b ++ Str.lit "/persona_report" ++ rest)%list ->
        Str.contains (Str.lit "/persona_report") (b ++ Str.lit "/persona_repor") = false ->
        audio_url quote url persona
        = (rstrip_slash b ++ Str.lit "/persona_report_audio"
           ++ persona_query quote persona)%list)
  /\ (Str.contains (Str.lit "/persona_report") url = false ->
      audio_url quote url persona
      = (rstrip_slash url ++ Str.lit "/persona_report_audio"
         ++ persona_query quote persona)%list).
Proof.
  split; [|split].
  - destruct (ClientFacts.before_prefix (Str.lit "/persona_report") url) as [r1 E1].
    destruct (ClientFacts.rstrip_slash_prefix (before (Str.lit "/persona_report") url))
      as [r2 E2].
    exists (rstrip_slash (before (Str.lit "/persona_report") url)), (r2 ++ r1)%list.
    split; [reflexivity|]. split.
    + rewrite app_assoc, <- E2. exact E1.
    + apply ClientFacts.rstrip_slash_end.
  - intros b rest -> H. unfold audio_url.
    change (Str.lit "/persona_report") with (Str.lit "/persona_repor" ++ [116])%list.
    change (Str.lit "/persona_report") with (Str.lit "/persona_repor" ++ [116])%list in H.
    now rewrite ClientFacts.before_first.
  - intros H. unfold audio_url. now rewrite ClientFacts.before_none.
Qed.

(** ** Examples *)

Ltac by_evaluation := vm_compute; first [reflexivity | discriminate | congruence].

Ltac sorted_by_evaluation :=
  repeat (constructor; try (unfold ts_le, ts_lt; by_evaluation)).

Ltac distinct_by_evaluation :=
  vm_compute;
  repeat (constructor; [simpl; intuition discriminate|]);
  constructor.

Lemma on_off_on_sorted : strictly_sorted_schedule (schedule Examples.on_off_on).
Proof. unfold strictly_sorted_schedule. simpl. sorted_by_evaluation. Defined.

Lemma on_off_on_valid : valid_schedule (schedule Examples.on_off_on).
Proof. repeat constructor; by_evaluation. Defined.

Lemma on_off_on_distinct : NoDup (map slot_key (schedule Examples.on_off_on)).
Proof. distinct_by_evaluation. Defined.

(** The 0.1 kW and 0.2 kW of [kettle_and_lamp] add up to
    0.30000000000000004 kW, the only total and so the maximum; the peak is
    0.3 kW, the double nearest to 300 / 1000, and the slot is the peak
    timestamp. *)
Lemma peak_correct_witness :
  schedule Examples.kettle_and_lamp <> []
  /\ power_by_ts (compute_from_schedule Examples.kettle_and_lamp)
     = [("2024-01-01 00:00:00", S754_finite false 5404319552844596 (-54))]
  /\ peak_kw (compute_from_schedule Examples.kettle_and_lamp)
     = S754_finite false 5404319552844595 (-54)
  /\ (exists n,
        nearest_even (5404319552844596 * 1000) (2 ^ 54) n
        /\ peak_kw (compute_from_schedule Examples.kettle_and_lamp)
           = B64.of_quot false n 1000)
  /\ B64.of_quot false 300 1000 = S754_finite false 5404319552844595 (-54)
  /\ (forall k,
        In k (peak_ts (compute_from_schedule Examples.kettle_and_lamp))
        <-> exists p,
              Dict.get (power_by_ts (compute_from_schedule Examples.kettle_and_lamp)) k
              = Some p
              /\ B64.ltb (B64.abs (B64.sub p (S754_finite false 5404319552844596 (-54))))
                   B64.eps9 = true)
  /\ peak_ts (compute_from_schedule Examples.kettle_and_lamp) = ["2024-01-01 00:00:00"]
  /\ py_max (Dict.values (power_by_ts (compute_from_schedule Examples.kettle_and_lamp)))
     = Some (S754_finite false 5404319552844596 (-54)).
Proof.
  pose proof (peak_correct Examples.kettle_and_lamp) as H. cbv zeta in H.
  destruct H as (_ & Hround & _ & Hmax & Hts).
  assert (Hne : schedule Examples.kettle_and_lamp <> []) by discriminate.
  split; [exact Hne|]. split; [vm_compute; reflexivity|].
  split; [vm_compute; reflexivity|].
  split; [|split; [vm_compute; reflexivity|split; [|split]]].
  - destruct Hround as (n & _ & Hn & Hkw). exists n. split; [exact Hn|exact Hkw].
  - exact Hts.
  - vm_compute. reflexivity.
  - exact (proj1 (Hmax Hne)).
Defined.

Lemma peak_ts_chronological_witness :
  sorted_schedule (schedule Examples.on_off_on)
  /\ NoDup (map slot_key (schedule Examples.on_off_on))
  /\ peak_ts (compute_from_schedule Examples.on_off_on)
     = ["2024-01-01 00:15:00"; "2024-01-01 00:30:00"]
  /\ StronglySorted ts_lt
       (filter (fun slot => is_peak Examples.f_two (slot_power slot))
          (schedule Examples.on_off_on)).
Proof.
  assert (Hs : sorted_schedule (schedule Examples.on_off_on))
    by (unfold sorted_schedule; simpl; sorted_by_evaluation).
  split; [exact Hs|]. split; [exact on_off_on_distinct|].
  destruct (peak_ts_chronological Examples.on_off_on Hs on_off_on_distinct) as (_ & _ & H).
  split; [reflexivity|exact H].
Defined.

(** C2 as stated fails on a schedule that is sorted but repeats a
    timestamp, which the validator returns as it is: the load gets an empty
    window and a second window with the same start, so the starts do not
    strictly increase, and the slot in which the load is absent lies inside
    the second window. *)
Lemma repeated_timestamp_breaks_windows :
  sorted_schedule (schedule Examples.repeated_timestamp)
  /\ _ensure_sorted (schedule Examples.repeated_timestamp)
     = schedule Examples.repeated_timestamp
  /\ exists w,
       load_windows_15m Examples.repeated_timestamp = Some w
       /\ ~ windows_increasing (Dict.get_default w "pump" [])
       /\ ~ windows_cover (schedule Examples.repeated_timestamp) "pump"
              (Dict.get_default w "pump" []).
Proof.
  split; [unfold sorted_schedule; simpl; sorted_by_evaluation|].
  split; [reflexivity|].
  eexists. split; [vm_compute; reflexivity|]. split.
  - intros H. inversion H as [|? ? _ Hall]; subst.
    inversion Hall as [|? ? [Hlt _] _]; subst. simpl in Hlt. lia.
  - intros H.
    specialize (H (Examples.slot Examples.t_0000 []) (or_intror (or_introl eq_refl))).
    destruct H as [_ H].
    assert (C : present "pump" (Examples.slot Examples.t_0000 []) = true).
    { apply H. exists (Examples.t_0000, Examples.t_0000 + 900000000).
      split; [right; left; reflexivity|]. simpl. unfold Examples.t_0000. vm_compute.
      split; [discriminate|reflexivity]. }
    discriminate C.
Qed.

Lemma windows_cover_strict_witness :
  strictly_sorted_schedule (schedule Examples.on_off_on)
  /\ exists w,
       load_windows_15m Examples.on_off_on = Some w
       /\ forall n,
            windows_increasing (Dict.get_default w n [])
            /\ (forall x, In x (Dict.get_default w n []) -> fst x < snd x)
            /\ windows_cover (schedule Examples.on_off_on) n (Dict.get_default w n []).
Proof.
  split; [exact on_off_on_sorted|].
  apply (windows_cover_strict Examples.on_off_on (Examples.t_0030 + 900000000)).
  - exact on_off_on_sorted.
  - exact on_off_on_valid.
  - vm_compute. reflexivity.
Defined.

Lemma twenty_minutes_end :
  window_end Examples.twenty_minutes = Some (Datetime.make 2024 1 1 1 0 0).
Proof. vm_compute. reflexivity. Qed.

(** With slots at 00:00, 00:20 and 00:40 the slot duration is the twenty
    minutes of the first gap, and the oven, present in the final slot only,
    has the single window from 00:40 to 01:00. *)
Lemma final_slot_closes_witness :
  exists w d,
    load_windows_15m Examples.twenty_minutes = Some w
    /\ slot_duration Examples.twenty_minutes = Some d
    /\ d = 1200000000
    /\ Dict.get w "oven"
       = Some [(Datetime.make 2024 1 1 0 40 0, Datetime.make 2024 1 1 1 0 0)]
    /\ w = [("pump", [(Datetime.make 2024 1 1 0 0 0, Datetime.make 2024 1 1 0 20 0)]);
            ("oven", [(Datetime.make 2024 1 1 0 40 0, Datetime.make 2024 1 1 1 0 0)])].
Proof.
  destruct (final_slot_closes Examples.twenty_minutes
              [Examples.slot (Datetime.make 2024 1 1 0 0 0)
                 [Examples.item "pump" Examples.f_one];
               Examples.slot (Datetime.make 2024 1 1 0 20 0) []]
              (Examples.slot (Datetime.make 2024 1 1 0 40 0)
                 [Examples.item "oven" Examples.f_two])
              (Datetime.make 2024 1 1 1 0 0)
              eq_refl twenty_minutes_end)
    as (w & d & Hw & Hd & _ & _ & _ & Hgap & Hn).
  exists w, d. split; [exact Hw|]. split; [exact Hd|].
  assert (Ed : d = 1200000000).
  { apply (proj1 (Hgap 1200000000 ltac:(vm_compute; reflexivity))). lia. }
  split; [exact Ed|]. split.
  - destruct (Hn "oven") as (_ & Honly & _).
    rewrite Honly; [rewrite Ed; vm_compute; reflexivity|reflexivity|].
    intros slot [<-|[<-|[]]]; reflexivity.
  - vm_compute in Hw. injection Hw as <-. reflexivity.
Defined.

(** C4 as stated fails on a schedule whose only slot is ten minutes before
    the end of the year 9999: the slot duration is the default quarter of
    an hour, the closing instant would be past [datetime.max], the sum
    raises [OverflowError], and the builder returns no mapping, so the pump,
    present in the final slot, gets no window. *)
Lemma final_slot_overflows :
  schedule Examples.last_minutes <> []
  /\ sorted_schedule (schedule Examples.last_minutes)
  /\ valid_schedule (schedule Examples.last_minutes)
  /\ present "pump" (Examples.slot (Datetime.make 9999 12 31 23 50 0)
                       [Examples.item "pump" Examples.f_one]) = true
  /\ slot_duration Examples.last_minutes = Some 900000000
  /\ Datetime.add (Datetime.make 9999 12 31 23 50 0) 900000000 = None
  /\ load_windows_15m Examples.last_minutes = None
  /\ ~ exists w, load_windows_15m Examples.last_minutes = Some w.
Proof.
  split; [discriminate|]. split; [repeat constructor|].
  split; [repeat constructor; by_evaluation|].
  split; [reflexivity|]. split; [reflexivity|]. split; [reflexivity|].
  split; [vm_compute; reflexivity|].
  intros [w Hw]. vm_compute in Hw. discriminate.
Qed.

Lemma on_off_on_windows :
  load_windows_15m Examples.on_off_on
  = Some [("pump", [(Examples.t_0000, Examples.t_0015);
                    (Examples.t_0030, Examples.t_0030 + 900000000)]);
          ("oven", [(Examples.t_0015, Examples.t_0030 + 900000000)])].
Proof. vm_compute. reflexivity. Qed.

Lemma windows_keys_witness :
  exists w,
    load_windows_15m Examples.on_off_on = Some w
    /\ Dict.mem w "pump" = true /\ Dict.mem w "oven" = true /\ Dict.mem w "lamp" = false
    /\ Dict.get w "pump" <> Some [].
Proof.
  eexists. split; [exact on_off_on_windows|].
  repeat split.
  exact (proj2 (proj2 (proj2 (windows_keys Examples.on_off_on)) _ on_off_on_windows "pump")).
Defined.


(** C6 as stated fails on a slot that names a load twice: both entries
    count, the total under the slot's key is 1 + 2 = 3 kW and not the 2 kW
    of the last entry, and the load's energy is 0.75 kWh and not 0.5 kWh. *)
Lemma duplicate_entry_counts_twice :
  let a := compute_from_schedule Examples.duplicate_entry in
  let items := [Examples.item "oven" Examples.f_one; Examples.item "oven" Examples.f_two] in
  as_mapping items = [("oven", Examples.f_two)]
  /\ Dict.get (power_by_ts a) (slot_key (Examples.slot Examples.t_0000 items))
     = Some Examples.f_three
  /\ Dict.get (power_by_ts a) (slot_key (Examples.slot Examples.t_0000 items))
     <> Some (py_sum (Dict.values (as_mapping items)))
  /\ Dict.get (energy_by_load a) "oven"
     = Some (B64.mul Examples.f_three B64.quarter)
  /\ Dict.get (energy_by_load a) "oven"
     <> option_map (fun v => B64.mul v B64.quarter) (Dict.get (as_mapping items) "oven").
Proof.
  intros a items. repeat split; by_evaluation.
Qed.

Lemma duplicates_accumulate_witness :
  Dict.get (energy_by_load (compute_from_schedule Examples.duplicate_entry)) "oven"
  = Some (B64.add (B64.add B64.zero (B64.mul Examples.f_one B64.quarter))
            (B64.mul Examples.f_two B64.quarter)).
Proof.
  exact (proj1 (duplicates_accumulate Examples.duplicate_entry "oven")).
Defined.


(** The fridge and the lamp draw five eighths of a kilowatt in all: the
    bucket of the hour 0 holds 156.25 Wh, the sum of the buckets divided by
    1000 is 0.15625, the energy in kWh, and the total energy is 0.156 kWh,
    which is 0.15625 rounded to three decimals. *)
Lemma histogram_conserves_witness :
  exists buckets,
    per_hour_Wh (power_by_ts (compute_from_schedule Examples.fridge_and_lamp)) = Some buckets
    /\ buckets = S754_finite false 5497558138880000 (-45) :: repeat B64.zero 23
    /\ B64.div (py_sum buckets) B64.thousand = S754_finite false 5629499534213120 (-55)
    /\ total_kwh (compute_from_schedule Examples.fridge_and_lamp)
       = S754_finite false 5620492334958379 (-55)
    /\ round3 (B64.div (py_sum buckets) B64.thousand)
       = total_kwh (compute_from_schedule Examples.fridge_and_lamp).
Proof.
  destruct (histogram_conserves_binary_fractions Examples.fridge_and_lamp 3 (Examples.units_of 3))
    as (buckets & Hb & _ & Hdiv & Htotal & Hround & _).
  - reflexivity.
  - repeat constructor; by_evaluation.
  - distinct_by_evaluation.
  - lia.
  - simpl. intros it [<-|[<-|[<-|[]]]]; split; first [reflexivity|vm_compute; discriminate].
  - vm_compute. discriminate.
  - exists buckets. split; [exact Hb|]. split; [|split; [|split]].
    + vm_compute in Hb. injection Hb as <-. reflexivity.
    + rewrite Hdiv. vm_compute. reflexivity.
    + rewrite Htotal. vm_compute. reflexivity.
    + exact Hround.
Defined.

(** C5 as stated fails on one slot with one load drawing a watt at the
    default slot duration of 0.25 h: the hourly buckets add up to 0.25 Wh,
    that is 0.00025 kWh, and the total energy is rounded to 0.0 kWh. *)
Lemma one_watt_not_conserved :
  let a := compute_from_schedule Examples.one_watt in
  _guess_slot_hours Examples.one_watt = B64.quarter
  /\ exists buckets,
       per_hour_Wh (power_by_ts a) = Some buckets
       /\ py_sum buckets = B64.quarter
       /\ total_kwh a = B64.zero
       /\ B64.eqb (B64.div (py_sum buckets) B64.thousand) (total_kwh a) = false.
Proof.
  intros a. split; [reflexivity|].
  eexists. split; [vm_compute; reflexivity|]. repeat split.
Qed.

(** Why the powers are asked to be binary fractions: with three slots in
    which a load draws 6 W, a power that is no double, the sums are
    rounded, and even after rounding to three decimals the histogram gives
    0.004 kWh where the total energy is 0.005 kWh. *)
Lemma six_watts_differ_rounded :
  exists buckets,
    per_hour_Wh (power_by_ts (compute_from_schedule Examples.six_watts)) = Some buckets
    /\ round3 (B64.div (py_sum buckets) B64.thousand)
       = S754_finite false 4611686018427388 (-60)
    /\ total_kwh (compute_from_schedule Examples.six_watts)
       = S754_finite false 5764607523034235 (-60).
Proof.
  eexists. split; [vm_compute; reflexivity|]. split; vm_compute; reflexivity.
Qed.

(** Why the keys are asked to be distinct: a timestamp that is repeated is
    counted once in the histogram, which keeps the last total stored under
    the key, and every time in the total energy. *)
Lemma repeated_timestamp_counted_once :
  exists buckets,
    per_hour_Wh (power_by_ts (compute_from_schedule Examples.repeated_timestamp))
    = Some buckets
    /\ B64.div (py_sum buckets) B64.thousand = B64.quarter
    /\ total_kwh (compute_from_schedule Examples.repeated_timestamp) = Examples.f_half.
Proof.
  eexists. split; [vm_compute; reflexivity|]. split; vm_compute; reflexivity.
Qed.

(** ** Examples of the further properties *)

Lemma on_off_on_years : four_digit_years (schedule Examples.on_off_on).
Proof. repeat constructor; by_evaluation. Defined.

Lemma on_off_on_histogram :
  per_hour_Wh (power_by_ts (compute_from_schedule Examples.on_off_on))
  = Some Samples.on_off_on_buckets.
Proof. vm_compute. reflexivity. Qed.

Lemma on_off_on_ascii :
  ascii_keys (power_by_ts (compute_from_schedule Examples.on_off_on)).
Proof. vm_compute. repeat constructor. Defined.

Lemma repeated_timestamp_end :
  window_end Examples.repeated_timestamp = Some (Examples.t_0000 + 900000000).
Proof. vm_compute. reflexivity. Qed.

Lemma repeated_timestamp_windows :
  load_windows_15m Examples.repeated_timestamp
  = Some [("pump", [(Examples.t_0000, Examples.t_0000);
                    (Examples.t_0000, Examples.t_0000 + 900000000)])].
Proof. vm_compute. reflexivity. Qed.

Lemma peak_ts_nonempty_witness :
  peak_ts (compute_from_schedule Examples.on_off_on) <> [].
Proof.
  apply (peak_ts_nonempty_iff_finite Examples.on_off_on); [discriminate|reflexivity].
Defined.

Lemma aggregates_nonneg_witness :
  nonnegative (total_kwh (compute_from_schedule Examples.on_off_on)) = true
  /\ nonnegative (peak_kw (compute_from_schedule Examples.on_off_on)) = true.
Proof.
  refine (proj2 (proj2 (aggregates_nonneg Examples.on_off_on _ _))).
  - repeat constructor; by_evaluation.
  - simpl. intros it [<-|[<-|[<-|[<-|[]]]]]; reflexivity.
Defined.

Lemma histogram_of_aggregates_witness :
  exists csv,
    build_24h_csv (power_by_ts (compute_from_schedule Examples.on_off_on)) = Some csv.
Proof. exact (proj1 (histogram_of_aggregates Examples.on_off_on on_off_on_years)). Defined.

Lemma histogram_buckets_witness :
  nth 0 Samples.on_off_on_buckets B64.zero
  = py_sum (map (fun kv => watt_hours (snd kv))
              (filter (in_bucket 0)
                 (power_by_ts (compute_from_schedule Examples.on_off_on)))).
Proof.
  exact (proj2 (histogram_buckets _ _ on_off_on_ascii on_off_on_histogram) 0%nat).
Defined.

Lemma histogram_raises_witness : build_24h_csv Samples.date_only = None.
Proof.
  apply (histogram_raises_iff Samples.date_only).
  - repeat constructor.
  - exists ("2024-01-01", Examples.f_one). split; [now left|reflexivity].
Defined.

Lemma windows_ignore_power_witness :
  load_windows_15m Examples.on_off_on = load_windows_15m Samples.on_off_on_other.
Proof.
  apply windows_ignore_power. repeat constructor.
Defined.

Lemma windows_and_energy_keys_witness :
  exists e, Dict.get (energy_by_load (compute_from_schedule Examples.on_off_on)) "pump" = Some e.
Proof.
  apply (proj2 (windows_and_energy_keys Examples.on_off_on _ on_off_on_windows "pump")).
  simpl. now left.
Defined.

Lemma windows_count_runs_witness :
  List.length [(Examples.t_0000, Examples.t_0015);
               (Examples.t_0030, Examples.t_0030 + 900000000)]
  = runs "pump" (schedule Examples.on_off_on) false.
Proof. exact (windows_count_runs Examples.on_off_on _ on_off_on_windows "pump"). Defined.

Lemma windows_on_sorted_witness :
  exists w,
    load_windows_15m Examples.repeated_timestamp = Some w
    /\ windows_ordered (Dict.get_default w "pump" []).
Proof.
  destruct (windows_on_sorted Examples.repeated_timestamp (Examples.t_0000 + 900000000))
    as (w & Hw & H).
  - unfold sorted_schedule. simpl. repeat (constructor; try (unfold ts_le; by_evaluation)).
  - repeat constructor; by_evaluation.
  - exact repeated_timestamp_end.
  - exists w. split; [exact Hw|]. exact (proj1 (proj2 (H "pump"))).
Defined.

Lemma peak_times_rendered_witness :
  exists peaks,
    peak_ts (compute_from_schedule Examples.on_off_on) = map slot_key peaks
    /\ hhmm (peak_ts (compute_from_schedule Examples.on_off_on))
       = Some (String.concat ", "
                 (map (fun s => Datetime.strftime_HhM (timestamp s)) peaks)).
Proof.
  destruct (peak_times_rendered Examples.on_off_on on_off_on_years) as (peaks & _ & H).
  exists peaks. exact H.
Defined.

Lemma pick_persona_witness :
  In (pick_persona None 0) CHARACTERS
  /\ pick_persona (Some (Str.lit " Yoda ")) 0 = Str.strip (Str.lit " Yoda ").
Proof.
  split.
  - apply (proj1 (pick_persona_spec None 0)); [simpl; lia|now left].
  - apply (proj2 (pick_persona_spec (Some (Str.lit " Yoda ")) 0) _ eq_refl). discriminate.
Defined.

Lemma greeting_guaranteed_witness :
  Str.startswith (postprocess Samples.yoda [] Samples.plain_report)
    (header_line Samples.yoda ++ opening_rest) = true.
Proof.
  apply (proj2 (greeting_guaranteed Samples.yoda [] Samples.plain_report)). reflexivity.
Defined.

Lemma costs_guaranteed_witness :
  Str.contains costs_title
    (postprocess Samples.yoda Samples.one_cost_line Samples.plain_report) = true.
Proof.
  apply (proj1 (costs_guaranteed Samples.yoda Samples.one_cost_line Samples.plain_report
                  ltac:(discriminate))).
Defined.

Lemma postprocess_keeps_text_witness :
  postprocess Samples.yoda Samples.one_cost_line
    (postprocess Samples.yoda Samples.one_cost_line Samples.plain_report)
  = postprocess Samples.yoda Samples.one_cost_line Samples.plain_report.
Proof.
  apply (proj2 (postprocess_keeps_text Samples.yoda Samples.one_cost_line Samples.plain_report)).
  simpl. lia.
Defined.

Lemma strip_markdown_plain_witness :
  strip_markdown Samples.plain_report = Samples.plain_report.
Proof. apply strip_markdown_plain_text. reflexivity. Defined.

Lemma strip_markdown_emphasis_witness :
  strip_markdown (Str.lit "Ligue o " ++ repeat 42 2 ++ Str.lit "forno" ++ repeat 42 2
                  ++ Str.lit " ao meio-dia.")
  = (Str.lit "Ligue o " ++ Str.lit "forno" ++ Str.lit " ao meio-dia.")%list.
Proof.
  apply (strip_markdown_emphasis 42 2); try reflexivity.
  - now left.
  - lia.
  - discriminate.
  - simpl. intuition discriminate.
Defined.

Lemma strip_markdown_heading_witness :
  strip_markdown ([] ++ repeat 35 2 ++ Str.lit " Custos do dia") = ([] ++ Str.lit "Custos do dia")%list.
Proof.
  apply (strip_markdown_heading 2 [] (Str.lit " Custos do dia")); [lia|reflexivity|reflexivity].
Defined.

Lemma strip_markdown_link_witness :
  strip_markdown (Str.lit "ver " ++ [91] ++ Str.lit "tarifas" ++ [93; 40]
                  ++ Str.lit "http://tarifas.pt" ++ [41] ++ Str.lit ".")
  = (Str.lit "ver " ++ Str.lit "tarifas" ++ Str.lit ".")%list.
Proof.
  apply strip_markdown_link; try reflexivity; simpl; intuition discriminate.
Defined.

Lemma audio_text_nonempty_witness :
  audio_text (postprocess Samples.yoda [] Samples.plain_report) <> None.
Proof.
  apply (proj2 (audio_text_nonempty Samples.yoda [] Samples.plain_report)). reflexivity.
Defined.

Lemma costs_shown_witness :
  Str.contains costs_title
    (postprocess (Str.lit "Yoda") (cost_lines (Some CostSamples.total_and_solar))
       (Str.lit "Ligue o forno ao meio-dia.")) = true.
Proof.
  apply (proj2 (proj2 (proj2 (proj2 (costs_shown_iff_total
                                      (Some CostSamples.total_and_solar)))
                         CostSamples.total_and_solar Examples.f_one eq_refl eq_refl))).
Defined.

Lemma generate_text_witness :
  generate_text (Str.lit "MISTRAL") (Str.lit "llama3.2") (Str.lit "http://localhost:11434")
    (fun _ => Failed) (Str.lit "s") (Str.lit "p") 420 B64.quarter
  = ([], Raise RuntimeError).
Proof.
  apply (proj1 (generate_text_errors (Str.lit "MISTRAL") (Str.lit "llama3.2")
                  (Str.lit "http://localhost:11434") (fun _ => Failed)
                  (Str.lit "s") (Str.lit "p") 420 B64.quarter)).
  reflexivity.
Defined.

Lemma audio_url_witness :
  audio_url (fun p => p) (Str.lit "http://localhost:8000/v1//persona_report?debug=1") None
  = (rstrip_slash (Str.lit "http://localhost:8000/v1/") ++ Str.lit "/persona_report_audio"
     ++ persona_query (fun p => p) None)%list.
Proof.
  apply (proj1 (proj2 (audio_url_spec (fun p => p)
                         (Str.lit "http://localhost:8000/v1//persona_report?debug=1") None))
           (Str.lit "http://localhost:8000/v1/") (Str.lit "?debug=1"));
    reflexivity.
Defined.
